(** * The classification engine of [services/mlEngine.ts]

    A shallow embedding of the class [MLEngine]: feature standardisation,
    logistic regression fitted by batch gradient descent, k-nearest-neighbour
    voting and training-set accuracy.

    The engine computes with JavaScript numbers.  The embedding is written
    once, over an interface [Number] of the operations the source applies to
    numbers, and is read at two instances:

    - [binary64]: IEEE 754 double precision, on Rocq's primitive floats.
      This is what the program runs on; ECMAScript's [Math.exp] is only
      specified up to an approximation, and the instance fixes one
      ([binary64_with] takes any other).
    - [exact]: the real numbers, the arithmetic in which the specification
      states its formulas (no rounding, no overflow, no NaN).

    A statement proved for every [Number] instance holds for both.

    The engine gets its training set from the application component, whose
    upload handler ([handleFileUpload] in [App]) parses a CSV file into the
    records; the handler is embedded as well, on strings and doubles. *)

From Stdlib Require Import ZArith List Bool Lia Floats Reals Lra Psatz.
From Stdlib Require Import Permutation Sorted.
From Stdlib Require Ascii String DecimalString DecimalPos.
Import ListNotations.

Set Warnings "-inexact-float".

(** ** Completions

    A JavaScript call either returns a value or throws.  The only operation the
    engine uses that can throw on its own is [Array.prototype.reduce], which
    raises a [TypeError] on an empty array when no initial value is given. *)

Inductive JsError : Type := TypeError.

Inductive completion (A : Type) : Type :=
| Normal (a : A)
| Throw (e : JsError).

Arguments Normal {A} a.
Arguments Throw {A} e.

Definition bind {A B : Type} (c : completion A) (k : A -> completion B) : completion B :=
  match c with
  | Normal a => k a
  | Throw e => Throw e
  end.

Notation "x <- c ;; k" := (bind c (fun x => k))
  (at level 61, c at next level, right associativity).

(** The result of ECMAScript's [ToIntegerOrInfinity]. *)
Inductive IntegerOrInfinity : Type :=
| Finite (z : Z)
| PosInfinity
| NegInfinity.

(** ** The operations on numbers the engine uses *)

Class Number (num : Type) : Type := {
  (** an integer-valued number: an array length or an integer literal *)
  of_nat : nat -> num;
  (** the literals [0.1] and [0.5] *)
  lit_0_1 : num;
  lit_0_5 : num;
  add : num -> num -> num;
  sub : num -> num -> num;
  mul : num -> num -> num;
  div : num -> num -> num;
  neg : num -> num;
  Math_sqrt : num -> num;
  Math_exp : num -> num;
  (** [Math.pow(x, 2)], the only exponent the engine uses *)
  Math_pow2 : num -> num;
  (** [x < y], [x <= y] and [x === y] *)
  ltb : num -> num -> bool;
  leb : num -> num -> bool;
  strict_eq : num -> num -> bool;
  (** truthiness, as [||] tests it: false on zero and on NaN *)
  ToBoolean : num -> bool;
  ToIntegerOrInfinity : num -> IntegerOrInfinity
}.

(** What the general statements below use of the arithmetic; all of it holds
    for doubles and for reals. *)
Class NumberLaws (num : Type) {N : Number num} : Prop := {
  ToBoolean_one : ToBoolean (of_nat 1) = true;
  ltb_irrefl : forall x, ltb x x = false;
  strict_eq_one_one : strict_eq (of_nat 1) (of_nat 1) = true;
  strict_eq_zero_one : strict_eq (of_nat 0) (of_nat 1) = false;
  ToInteger_five : ToIntegerOrInfinity (of_nat 5) = Finite 5;
  three_of_five : forall c, (3 <= c <= 5)%nat ->
    ltb (div (of_nat 5) (of_nat 2)) (of_nat c) = true;
  two_of_five : forall c, (c <= 2)%nat ->
    ltb (div (of_nat 5) (of_nat 2)) (of_nat c) = false
}.

Declare Scope num_scope.
Delimit Scope num_scope with num.
Infix "+" := add : num_scope.
Infix "-" := sub : num_scope.
Infix "*" := mul : num_scope.
Infix "/" := div : num_scope.
Notation "- x" := (neg x) : num_scope.
Infix "<?" := ltb : num_scope.
Infix "<=?" := leb : num_scope.
Infix "===" := strict_eq (at level 70, no associativity) : num_scope.

(** [a > b] and [a >= b] are [b < a] and [b <= a], also on NaN. *)
Notation "x >? y" := (ltb y x) (at level 70, no associativity) : num_scope.
Notation "x >=? y" := (leb y x) (at level 70, no associativity) : num_scope.

(** [x || y] on numbers. *)
Definition or_else {num : Type} {N : Number num} (x y : num) : num :=
  if ToBoolean x then x else y.

(** ** Binary64 *)

Module Binary64.

Local Open Scope float_scope.

(** Array lengths are below [2^32], where the conversion is exact. *)
Definition float_of_nat (n : nat) : float :=
  of_uint63 (Uint63.of_Z (Z.of_nat n)).

Definition float_ToBoolean (x : float) : bool :=
  negb (is_nan x || is_zero x).

(** ECMA-262, [ToIntegerOrInfinity]: NaN and the zeros give 0, the infinities stay, any other
    number is truncated towards zero. *)
Definition float_ToIntegerOrInfinity (x : float) : IntegerOrInfinity :=
  match Prim2SF x with
  | S754_nan => Finite 0
  | S754_zero _ => Finite 0
  | S754_infinity s => if s then NegInfinity else PosInfinity
  | S754_finite s m e => Finite (cond_Zopp s (Z.shiftl (Zpos m) e))
  end.

(** [Math.pow(x, 2)] is the product [x * x], correctly rounded (what the
    fdlibm [pow] that JavaScript engines ship returns for the exponent 2). *)
Definition float_pow2 (x : float) : float := x * x.

(** [===] on numbers: NaN differs from itself and the two zeros are equal. *)
Definition float_strict_eq (x y : float) : bool := (x =? y).

Fixpoint horner (coeffs : list float) (r : float) : float :=
  match coeffs with
  | [] => 0
  | c :: cs => c + r * horner cs r
  end.

(** [1/n!] for [n = 0 .. 17]. *)
Definition exp_coeffs : list float :=
  let fix go (n : nat) (k : float) (c : float) : list float :=
    match n with
    | O => []
    | S n' => c :: go n' (k + 1) (c / k)
    end in
  go 18%nat 1 1.

(** ECMA-262 leaves [Math.exp] "implementation-approximated" and
    fixes it on NaN (NaN), on the zeros (1) and on the infinities (+inf, +0).
    Elsewhere this instance reduces the argument by a multiple of [ln 2] and
    sums the exponential series; an engine's [Math.exp] can differ from it
    in the last place. *)
Definition float_exp (x : float) : float :=
  if is_nan x then nan
  else if 710 <? x then infinity
  else if x <? -746 then 0
  else
    let q := x * 0x1.71547652b82fep+0 in
    let k := match float_ToIntegerOrInfinity (if q <? 0 then q - 0.5 else q + 0.5) with
             | Finite z => z
             | _ => 0%Z
             end in
    let kf := of_uint63 (Uint63.of_Z (Z.abs k)) in
    let kf := if (k <? 0)%Z then - kf else kf in
    let r := (x - kf * 0x1.62e42feep-1) - kf * 0x1.a39ef35793c76p-33 in
    Z.ldexp (horner exp_coeffs r) k.

#[export] Instance binary64 : Number float := {|
  of_nat := float_of_nat;
  lit_0_1 := 0.1;
  lit_0_5 := 0.5;
  add := PrimFloat.add;
  sub := PrimFloat.sub;
  mul := PrimFloat.mul;
  div := PrimFloat.div;
  neg := PrimFloat.opp;
  Math_sqrt := PrimFloat.sqrt;
  Math_exp := float_exp;
  Math_pow2 := float_pow2;
  ltb := PrimFloat.ltb;
  leb := PrimFloat.leb;
  strict_eq := float_strict_eq;
  ToBoolean := float_ToBoolean;
  ToIntegerOrInfinity := float_ToIntegerOrInfinity
|}.

(** Binary64 with another implementation of [Math.exp]: ECMA-262 leaves
    the function implementation-approximated, and engines differ in the
    last place of its results. *)
Definition binary64_with (Math_exp' : float -> float) : Number float := {|
  of_nat := float_of_nat;
  lit_0_1 := 0.1;
  lit_0_5 := 0.5;
  add := PrimFloat.add;
  sub := PrimFloat.sub;
  mul := PrimFloat.mul;
  div := PrimFloat.div;
  neg := PrimFloat.opp;
  Math_sqrt := PrimFloat.sqrt;
  Math_exp := Math_exp';
  Math_pow2 := float_pow2;
  ltb := PrimFloat.ltb;
  leb := PrimFloat.leb;
  strict_eq := float_strict_eq;
  ToBoolean := float_ToBoolean;
  ToIntegerOrInfinity := float_ToIntegerOrInfinity
|}.

End Binary64.
Export Binary64.

(** ** Exact real arithmetic *)

Module Exact.

Local Open Scope R_scope.

Definition R_ltb (x y : R) : bool := if Rlt_dec x y then true else false.
Definition R_leb (x y : R) : bool := if Rle_dec x y then true else false.
Definition R_strict_eq (x y : R) : bool := if Req_dec_T x y then true else false.
Definition R_ToBoolean (x : R) : bool := negb (R_strict_eq x 0).

(** Truncation towards zero. *)
Definition R_trunc (x : R) : Z :=
  if Rle_dec 0 x then Int_part x else (- Int_part (- x))%Z.

#[export] Instance exact : Number R := {|
  of_nat := INR;
  lit_0_1 := 1 / 10;
  lit_0_5 := 1 / 2;
  add := Rplus;
  sub := Rminus;
  mul := Rmult;
  div := Rdiv;
  neg := Ropp;
  Math_sqrt := sqrt;
  Math_exp := exp;
  Math_pow2 := fun x => x * x;
  ltb := R_ltb;
  leb := R_leb;
  strict_eq := R_strict_eq;
  ToBoolean := R_ToBoolean;
  ToIntegerOrInfinity := fun x => Finite (R_trunc x)
|}.

End Exact.
Export Exact.

(** ** Arrays

    The array methods the engine calls, on lists. *)

(** [a.reduce(f, init)]; with no initial value the first element starts the
    fold and an empty array throws. *)
Definition Array_reduce {A : Type} (f : A -> A -> A) (init : option A) (a : list A)
  : completion A :=
  match init, a with
  | Some i, _ => Normal (fold_left f a i)
  | None, x :: t => Normal (fold_left f t x)
  | None, [] => Throw TypeError
  end.

(** [a.slice(0, end)]: a negative [end] counts from the back, and the
    result stops at the length of the array. *)
Definition Array_slice0 {A : Type} (a : list A) (relativeEnd : IntegerOrInfinity) : list A :=
  match relativeEnd with
  | NegInfinity => []
  | PosInfinity => a
  | Finite z =>
      if (z <? 0)%Z
      then firstn (Z.to_nat (Z.max (Z.of_nat (length a) + z) 0)) a
      else firstn (Z.to_nat (Z.min z (Z.of_nat (length a)))) a
  end.

(** The end index [relativeEnd] is not before the end of an array of [n]
    elements. *)
Definition reaches (relativeEnd : IntegerOrInfinity) (n : nat) : Prop :=
  match relativeEnd with
  | Finite z => (Z.of_nat n <= z)%Z
  | PosInfinity => True
  | NegInfinity => False
  end.

Section Sort.

Context {num : Type} {N : Number num} {A : Type}.

(** The comparator [comparefn] returns a number.  ECMA-262's [SortCompare]
    reads a NaN as [+0]; what the sort then looks at is the sign: [a] goes
    after [b] when [comparefn(a, b) > 0]. *)
Variable comparefn : A -> A -> num.

Definition goes_after (a b : A) : bool := (comparefn a b >? of_nat 0)%num.

(** [a.sort(comparefn)].  ECMA-262 requires the sort to be stable and, for a
    comparator that orders the elements consistently, fixes the result: the
    one stable ordering.  Insertion from the right computes it: an element is
    put in front of the first later element it does not go after.  (For a
    comparator that is not consistent the standard leaves the order to the
    implementation.) *)
Fixpoint sort_insert (x : A) (sorted : list A) : list A :=
  match sorted with
  | [] => [x]
  | y :: rest => if goes_after x y then y :: sort_insert x rest else x :: sorted
  end.

Definition Array_sort (a : list A) : list A := fold_right sort_insert [] a.

(** A comparator orders the elements of [l] consistently when "does not go
    after" is total and transitive on them.  (ECMA-262's "consistent
    comparator", read after [SortCompare] has turned a NaN into [+0].) *)
Definition consistent_on (l : list A) : Prop :=
  (forall a b, In a l -> In b l -> goes_after a b = true -> goes_after b a = false) /\
  (forall a b c, In a l -> In b l -> In c l ->
     goes_after a b = false -> goes_after b c = false -> goes_after a c = false).

Definition consistentb (l : list A) : bool :=
  forallb (fun a =>
    forallb (fun b =>
      implb (goes_after a b) (negb (goes_after b a)) &&
      forallb (fun c =>
        implb (negb (goes_after a b) && negb (goes_after b c)) (negb (goes_after a c))) l) l) l.

(** The comparator puts neither of [a] and [b] after the other. *)
Definition same_rank (a b : A) : bool :=
  negb (goes_after a b) && negb (goes_after b a).

End Sort.

(** ** The engine *)

Record CustomerData (num : Type) : Type := {
  Age : num;
  EstimatedSalary : num;
  Purchased : num
}.
Arguments Age {num} _.
Arguments EstimatedSalary {num} _.
Arguments Purchased {num} _.

Record ScaleParams (num : Type) : Type := {
  mean : num * num;
  std : num * num
}.
Arguments mean {num} _.
Arguments std {num} _.

(** The fields of [MLEngine]; [lrWeights] always holds two numbers. *)
Record MLEngine (num : Type) : Type := {
  trainingData : list (CustomerData num);
  scaleParams : ScaleParams num;
  lrWeights : num * num;
  lrBias : num
}.
Arguments trainingData {num} _.
Arguments scaleParams {num} _.
Arguments lrWeights {num} _.
Arguments lrBias {num} _.

(** The object both prediction methods return. *)
Record Prediction (num : Type) : Type := {
  purchased : bool;
  probability : num
}.
Arguments purchased {num} _.
Arguments probability {num} _.

(** An entry of the array [distances] in [predictKNN]. *)
Record Neighbor (num : Type) : Type := {
  dist : num;
  nb_purchased : num
}.
Arguments dist {num} _.
Arguments nb_purchased {num} _.

Inductive Algorithm : Type := LR | KNN.

(** [for (let i = 0; i < n; i++) body], for a body that does not read [i]. *)
Fixpoint for_loop {S : Type} (n : nat) (body : S -> S) (s : S) : S :=
  match n with
  | O => s
  | Datatypes.S n' => for_loop n' body (body s)
  end.

Section Engine.

Context {num : Type} {N : Number num}.

Local Open Scope num_scope.

Local Notation "0" := (of_nat 0) : num_scope.
Local Notation "1" := (of_nat 1) : num_scope.
Local Notation "2" := (of_nat 2) : num_scope.
Local Notation "5" := (of_nat 5) : num_scope.

(** The field initialisers of the class. *)
Definition MLEngine_fields : MLEngine num := {|
  trainingData := [];
  scaleParams := {| mean := (0, 0); std := (1, 1) |};
  lrWeights := (0, 0);
  lrBias := 0
|}.

Definition set_trainingData (this : MLEngine num) (data : list (CustomerData num)) : MLEngine num :=
  {| trainingData := data;
     scaleParams := scaleParams this;
     lrWeights := lrWeights this;
     lrBias := lrBias this |}.

Definition set_scaleParams (this : MLEngine num) (p : ScaleParams num) : MLEngine num :=
  {| trainingData := trainingData this;
     scaleParams := p;
     lrWeights := lrWeights this;
     lrBias := lrBias this |}.

Definition set_lr (this : MLEngine num) (w : num * num) (b : num) : MLEngine num :=
  {| trainingData := trainingData this;
     scaleParams := scaleParams this;
     lrWeights := w;
     lrBias := b |}.

(** [calculateScaling]: per-feature mean and population standard deviation,
    a falsy deviation replaced by 1. *)
Definition calculateScaling (this : MLEngine num) : completion (MLEngine num) :=
  let ages := map Age (trainingData this) in
  let salaries := map EstimatedSalary (trainingData this) in
  sumAge <- Array_reduce add (Some 0) ages ;;
  let meanAge := sumAge / of_nat (length ages) in
  sumSalary <- Array_reduce add (Some 0) salaries ;;
  let meanSalary := sumSalary / of_nat (length salaries) in
  sqAge <- Array_reduce add (Some 0) (map (fun x => Math_pow2 (x - meanAge)) ages) ;;
  let stdAge := Math_sqrt (sqAge / of_nat (length ages)) in
  sqSalary <- Array_reduce add (Some 0) (map (fun x => Math_pow2 (x - meanSalary)) salaries) ;;
  let stdSalary := Math_sqrt (sqSalary / of_nat (length salaries)) in
  Normal (set_scaleParams this
            {| mean := (meanAge, meanSalary);
               std := (or_else stdAge 1, or_else stdSalary 1) |}).

(** [scale] *)
Definition scale (this : MLEngine num) (age salary : num) : num * num :=
  ((age - fst (mean (scaleParams this))) / fst (std (scaleParams this)),
   (salary - snd (mean (scaleParams this))) / snd (std (scaleParams this))).

(** The body of the inner loop of [trainLogisticRegression]: one record's
    contribution to [dw1], [dw2] and [db] under the weights [(w1, w2, b)]. *)
Definition accumulate (w : num * num * num) (g : num * num * num)
    (d : CustomerData num * (num * num)) : num * num * num :=
  let '(w1, w2, b) := w in
  let '(dw1, dw2, db) := g in
  let scaled := snd d in
  let z := w1 * fst scaled + w2 * snd scaled + b in
  let p := 1 / (1 + Math_exp (- z)) in
  let diff := p - Purchased (fst d) in
  (dw1 + diff * fst scaled, dw2 + diff * snd scaled, db + diff).

(** The body of the outer loop: one pass over the scaled data, then the
    update of [w1], [w2] and [b]. *)
Definition descend (learningRate m : num) (scaledData : list (CustomerData num * (num * num)))
    (w : num * num * num) : num * num * num :=
  let '(dw1, dw2, db) := fold_left (accumulate w) scaledData (0, 0, 0) in
  let '(w1, w2, b) := w in
  (w1 - (learningRate / m) * dw1,
   w2 - (learningRate / m) * dw2,
   b - (learningRate / m) * db).

(** [trainLogisticRegression] *)
Definition trainLogisticRegression (this : MLEngine num) : MLEngine num :=
  let learningRate := lit_0_1 in
  let iterations := 1000%nat in
  let m := of_nat (length (trainingData this)) in
  let scaledData :=
    map (fun d => (d, scale this (Age d) (EstimatedSalary d))) (trainingData this) in
  let '(w1, w2, b) := for_loop iterations (descend learningRate m scaledData) (0, 0, 0) in
  set_lr this (w1, w2) b.

(** [new MLEngine(data)] *)
Definition MLEngine_new (data : list (CustomerData num)) : completion (MLEngine num) :=
  let this := set_trainingData MLEngine_fields data in
  this <- calculateScaling this ;;
  Normal (trainLogisticRegression this).

(** [predictLogisticRegression] *)
Definition predictLogisticRegression (this : MLEngine num) (age salary : num) : Prediction num :=
  let '(sAge, sSalary) := scale this age salary in
  let z := fst (lrWeights this) * sAge + snd (lrWeights this) * sSalary + lrBias this in
  let prob := 1 / (1 + Math_exp (- z)) in
  {| purchased := prob >=? lit_0_5; probability := prob |}.

(** The array [distances] of [predictKNN], before it is sorted. *)
Definition distances (this : MLEngine num) (sAge sSalary : num) : list (Neighbor num) :=
  map (fun d =>
         let '(dsAge, dsSalary) := scale this (Age d) (EstimatedSalary d) in
         let dist := Math_sqrt (Math_pow2 (sAge - dsAge) + Math_pow2 (sSalary - dsSalary)) in
         {| dist := dist; nb_purchased := Purchased d |})
      (trainingData this).

(** The comparator [(a, b) => a.dist - b.dist]. *)
Definition by_dist (a b : Neighbor num) : num := dist a - dist b.

(** [distances.sort(...).slice(0, k)] *)
Definition neighbors (this : MLEngine num) (age salary k : num) : list (Neighbor num) :=
  let '(sAge, sSalary) := scale this age salary in
  Array_slice0 (Array_sort by_dist (distances this sAge sSalary)) (ToIntegerOrInfinity k).

(** [predictKNN]; the optional [k] defaults to 5. *)
Definition predictKNN (this : MLEngine num) (age salary : num) (k : option num) : Prediction num :=
  let k := match k with Some k => k | None => 5 end in
  let neighbors := neighbors this age salary k in
  let purchasedCount := of_nat (length (filter (fun n => nb_purchased n === 1) neighbors)) in
  {| purchased := purchasedCount >? k / 2; probability := purchasedCount / k |}.

(** The prediction [getAccuracy] compares with the record's label. *)
Definition predicted (this : MLEngine num) (algorithm : Algorithm) (d : CustomerData num) : bool :=
  match algorithm with
  | LR => purchased (predictLogisticRegression this (Age d) (EstimatedSalary d))
  | KNN => purchased (predictKNN this (Age d) (EstimatedSalary d) None)
  end.

Definition is_correct (this : MLEngine num) (algorithm : Algorithm) (d : CustomerData num) : bool :=
  (if predicted this algorithm d then 1 else 0) === Purchased d.

(** [getAccuracy] *)
Definition getAccuracy (this : MLEngine num) (algorithm : Algorithm) : num :=
  let correct :=
    fold_left (fun correct d => if is_correct this algorithm d then S correct else correct)
              (trainingData this) O in
  of_nat correct / of_nat (length (trainingData this)).

(** *** The formulas of the specification

    The quantities the specification names, written as it words them; the
    statements below compare the methods above with them. *)

(** The sum of a list of numbers, in input order. *)
Definition spec_sum (xs : list num) : num := fold_left add xs 0.

Definition spec_mean (xs : list num) : num := spec_sum xs / of_nat (length xs).

(** Population standard deviation: the root of the mean squared deviation. *)
Definition spec_population_std (xs : list num) : num :=
  Math_sqrt (spec_sum (map (fun x => Math_pow2 (x - spec_mean xs)) xs) / of_nat (length xs)).

(** The scaling parameters of the data model: per-feature mean and
    population standard deviation, a falsy deviation replaced by 1. *)
Definition scaling_of (data : list (CustomerData num)) : ScaleParams num :=
  {| mean := (spec_mean (map Age data), spec_mean (map EstimatedSalary data));
     std := (or_else (spec_population_std (map Age data)) 1,
             or_else (spec_population_std (map EstimatedSalary data)) 1) |}.

Definition spec_sigmoid (z : num) : num := 1 / (1 + Math_exp (- z)).

(** A standardized training record: the two scaled features and the label. *)
Definition spec_standardized (this : MLEngine num) (d : CustomerData num) : num * num * num :=
  (fst (scale this (Age d) (EstimatedSalary d)),
   snd (scale this (Age d) (EstimatedSalary d)),
   Purchased d).

(** [diff = sigmoid(w1 x1 + w2 x2 + b) - label] *)
Definition spec_diff (w : num * num * num) (r : num * num * num) : num :=
  let '(w1, w2, b) := w in
  let '(x1, x2, label) := r in
  spec_sigmoid (w1 * x1 + w2 * x2 + b) - label.

(** The three sums of one iteration, over every record. *)
Definition spec_gradient_sums (X : list (num * num * num)) (w : num * num * num)
  : num * num * num :=
  (spec_sum (map (fun r => spec_diff w r * fst (fst r)) X),
   spec_sum (map (fun r => spec_diff w r * snd (fst r)) X),
   spec_sum (map (fun r => spec_diff w r) X)).

(** One iteration with the update associated as the source writes it:
    the sum times [eta / m]. *)
Definition gd_step (eta m : num) (X : list (num * num * num)) (w : num * num * num)
  : num * num * num :=
  let '(g1, g2, g3) := spec_gradient_sums X w in
  let '(w1, w2, b) := w in
  (w1 - (eta / m) * g1, w2 - (eta / m) * g2, b - (eta / m) * g3).

(** One iteration as the specification words it: each sum divided by [m],
    then [eta] times that average subtracted. *)
Definition spec_gd_step (eta m : num) (X : list (num * num * num)) (w : num * num * num)
  : num * num * num :=
  let '(g1, g2, g3) := spec_gradient_sums X w in
  let '(w1, w2, b) := w in
  (w1 - eta * (g1 / m), w2 - eta * (g2 / m), b - eta * (g3 / m)).

(** The training record with its feature-1 value multiplied by [c]. *)
Definition scale_feature1 (c : num) (d : CustomerData num) : CustomerData num :=
  {| Age := c * Age d; EstimatedSalary := EstimatedSalary d; Purchased := Purchased d |}.

(** The entry of [distances] for one training record. *)
Definition entry (this : MLEngine num) (sAge sSalary : num) (d : CustomerData num)
  : Neighbor num :=
  {| dist := Math_sqrt (Math_pow2 (sAge - fst (scale this (Age d) (EstimatedSalary d)))
                        + Math_pow2 (sSalary - snd (scale this (Age d) (EstimatedSalary d))));
     nb_purchased := Purchased d |}.

(** The squared Euclidean distance, in standardized feature space, between
    a query and a training record. *)
Definition spec_sq_distance (this : MLEngine num) (age salary : num) (d : CustomerData num)
  : num :=
  Math_pow2 (fst (scale this age salary) - fst (scale this (Age d) (EstimatedSalary d)))
  + Math_pow2 (snd (scale this age salary) - snd (scale this (Age d) (EstimatedSalary d))).

(** [distances] with every entry tagged by the position of its training
    record, sorted by the same comparator: the training records by rank. *)
Definition ranked (this : MLEngine num) (age salary : num) : list (nat * Neighbor num) :=
  let '(sAge, sSalary) := scale this age salary in
  let ds := distances this sAge sSalary in
  Array_sort (fun a b => by_dist (snd a) (snd b)) (combine (seq O (length ds)) ds).

(** The positions of the training records [predictKNN] votes with. *)
Definition nearest (this : MLEngine num) (age salary k : num) : list nat :=
  map fst (Array_slice0 (ranked this age salary) (ToIntegerOrInfinity k)).

(** A feature value standardized with the mean [m] and the deviation [s]. *)
Definition spec_zscore (m s x : num) : num := (x - m) / s.

(** The point of standardized feature space for the raw features
    [(age, salary)] under the scaling parameters [p]. *)
Definition spec_standardize (p : ScaleParams num) (age salary : num) : num * num :=
  (spec_zscore (fst (mean p)) (fst (std p)) age,
   spec_zscore (snd (mean p)) (snd (std p)) salary).

(** The Euclidean distance of two points of the plane. *)
Definition spec_euclidean (a b : num * num) : num :=
  Math_sqrt (Math_pow2 (fst a - fst b) + Math_pow2 (snd a - snd b)).

(** The distances the specification ranks by: for every training record, in
    input order, the Euclidean distance in standardized feature space
    between the query and the record, with the label of the record. *)
Definition spec_distances (p : ScaleParams num) (data : list (CustomerData num))
    (age salary : num) : list (Neighbor num) :=
  map (fun d =>
         {| dist := spec_euclidean (spec_standardize p age salary)
                                   (spec_standardize p (Age d) (EstimatedSalary d));
            nb_purchased := Purchased d |})
      data.

(** The standardized training records: the two standardized features and
    the label, in input order. *)
Definition spec_records (p : ScaleParams num) (data : list (CustomerData num))
  : list (num * num * num) :=
  map (fun d => (spec_standardize p (Age d) (EstimatedSalary d), Purchased d)) data.

End Engine.

(** ** Training sets used below *)

Module Data.

Definition customer {num : Type} (age salary label : num) : CustomerData num :=
  {| Age := age; EstimatedSalary := salary; Purchased := label |}.

Local Open Scope float_scope.

(** The two-record scenario of the specification. *)
Definition two_points : list (CustomerData float) :=
  [customer 20 20000 0; customer 60 140000 1].

(** One and three records, every label 1. *)
Definition one_buyer : list (CustomerData float) :=
  [customer 20 20000 1].

Definition three_buyers : list (CustomerData float) :=
  [customer 20 20000 1; customer 30 20000 1; customer 40 50000 1].

(** Two finite ages whose sum is beyond the largest double. *)
Definition overflowing : list (CustomerData float) :=
  [customer 1e308 1 1; customer 1e308 1 1].

(** A constant feature-1 value that is not a dyadic fraction. *)
Definition constant_tenth : list (CustomerData float) :=
  [customer 0.1 1 1; customer 0.1 2 1; customer 0.1 3 0].

(** A constant integer feature-1 value. *)
Definition constant_age : list (CustomerData float) :=
  [customer 25 20000 0; customer 25 50000 1].

(** Records 0 and 2 are equally far from the query [(27, 8000)]. *)
Definition tied : list (CustomerData float) :=
  [customer 24 8000 1; customer 38 2000 0; customer 30 8000 0].

(** Finite salaries whose deviations from their mean overflow. *)
Definition mixed : list (CustomerData float) :=
  [customer 20 1.7e308 1; customer 30 (-1.7e308) 0; customer 40 (-0.6e308) 0].

Local Open Scope R_scope.

Definition two_points_exact : list (CustomerData R) :=
  [customer 20 20000 0; customer 60 140000 1].

End Data.

(** ** Text

    The upload handler of [App] works on strings.  A string is a sequence of
    code units; the embedding takes the code units below 256 (ISO 8859-1,
    which contains ASCII), on which [toLowerCase], [trim] and [parseInt] are
    given in full. *)

Import Ascii.AsciiSyntax String.StringSyntax.
Delimit Scope char_scope with char.
Delimit Scope string_scope with string.
Infix "++" := String.append (right associativity, at level 60) : string_scope.

#[local] Abbreviation ascii := Ascii.ascii.
#[local] Abbreviation string := String.string.
#[local] Abbreviation String := String.String.
#[local] Abbreviation EmptyString := String.EmptyString.

(** ** The upload handler of [App]

    [App] keeps the training set in the state [data] and builds the engine
    from it ([new MLEngine(data)]).  The only code that replaces [data] is
    the [onload] callback of [handleFileUpload], which parses the text of an
    uploaded CSV file. *)

Section Upload.

Local Open Scope string_scope.

(** [s.split(separator)] for a separator of one code unit: the pieces
    between the occurrences, one more than there are occurrences. *)
Fixpoint String_split (separator : ascii) (s : string) : list string :=
  match s with
  | EmptyString => [EmptyString]
  | String c rest =>
      if Ascii.eqb c separator then EmptyString :: String_split separator rest
      else match String_split separator rest with
           | piece :: pieces => String c piece :: pieces
           | [] => [String c EmptyString]
           end
  end.

(** The lower-case mapping of Unicode on the code units below 256: the
    letters [A]-[Z] and the accented capitals U+00C0-U+00DE other than the
    multiplication sign move up by 32. *)
Definition lower_case (c : ascii) : ascii :=
  let n := Ascii.N_of_ascii c in
  if ((65 <=? n) && (n <=? 90) || (192 <=? n) && (n <=? 214) || (216 <=? n) && (n <=? 222))%N
  then Ascii.ascii_of_N (n + 32)
  else c.

Fixpoint String_toLowerCase (s : string) : string :=
  match s with
  | EmptyString => EmptyString
  | String c rest => String (lower_case c) (String_toLowerCase rest)
  end.

(** [s.includes(searchString)] *)
Fixpoint String_includes (s searchString : string) : bool :=
  String.prefix searchString s ||
  match s with
  | EmptyString => false
  | String _ rest => String_includes rest searchString
  end.

(** [a.findIndex(predicate)]: the first index that satisfies the predicate,
    or [-1]. *)
Fixpoint Array_findIndex {A : Type} (predicate : A -> bool) (a : list A) : Z :=
  match a with
  | [] => -1
  | x :: rest =>
      if predicate x then 0
      else let i := Array_findIndex predicate rest in
           if (i =? -1)%Z then -1 else (i + 1)%Z
  end.

(** [a[i]] for an integer [i]: [undefined] outside the array. *)
Definition Array_get {A : Type} (a : list A) (i : Z) : option A :=
  if (i <? 0)%Z then None else nth_error a (Z.to_nat i).

(** [ToString] of a string or [undefined]. *)
Definition ToString (v : option string) : string :=
  match v with
  | Some s => s
  | None => "undefined"
  end.

(** ECMAScript's white space and line terminators below 256: TAB, LF, VT,
    FF, CR, SP and NBSP. *)
Definition is_white_space (c : ascii) : bool :=
  match Ascii.N_of_ascii c with
  | 9 | 10 | 11 | 12 | 13 | 32 | 160 => true
  | _ => false
  end%N.

Fixpoint String_trimStart (s : string) : string :=
  match s with
  | EmptyString => EmptyString
  | String c rest => if is_white_space c then String_trimStart rest else s
  end.

Fixpoint String_trimEnd (s : string) : string :=
  match s with
  | EmptyString => EmptyString
  | String c rest =>
      match String_trimEnd rest with
      | EmptyString => if is_white_space c then EmptyString else String c EmptyString
      | trimmed => String c trimmed
      end
  end.

(** [s.trim()] *)
Definition String_trim (s : string) : string := String_trimEnd (String_trimStart s).

(** Truthiness of a string: false on the empty string only. *)
Definition String_ToBoolean (s : string) : bool :=
  match s with
  | EmptyString => false
  | String _ _ => true
  end.

(** The Number value for an integer: the double nearest to it, ties to
    even, an infinity beyond the range. *)
Definition Number_of_Z (z : Z) : float :=
  SF2Prim (binary_normalize prec emax z 0 false).

(** The value of a digit of [parseInt]: [0]-[9], then the letters in either
    case from 10 on. *)
Definition digit_of (c : ascii) : option N :=
  let n := Ascii.N_of_ascii c in
  if ((48 <=? n) && (n <=? 57))%N then Some (n - 48)%N
  else if ((97 <=? n) && (n <=? 122))%N then Some (n - 87)%N
  else if ((65 <=? n) && (n <=? 90))%N then Some (n - 55)%N
  else None.

(** The integer written by the longest prefix of [s] made of digits of the
    radix, continuing the digits already read; [None] when there is no
    digit at all. *)
Fixpoint digits_prefix (radix : N) (s : string) (read : option N) : option N :=
  match s with
  | EmptyString => read
  | String c rest =>
      match digit_of c with
      | Some d =>
          if (d <? radix)%N
          then digits_prefix radix rest
                 (Some (match read with Some n => n * radix + d | None => d end)%N)
          else read
      | None => read
      end
  end.

(** The sign [parseInt] reads, and the string after it. *)
Definition read_sign (s : string) : bool * string :=
  match s with
  | String "-" rest => (true, rest)
  | String "+" rest => (false, rest)
  | _ => (false, s)
  end.

(** The radix [parseInt] chooses when it is given none, and the string
    after the prefix: 16 after [0x] or [0X], otherwise 10. *)
Definition read_radix (s : string) : N * string :=
  match s with
  | String c0 (String c1 rest) =>
      if Ascii.eqb c0 "0" && (Ascii.eqb c1 "x" || Ascii.eqb c1 "X")
      then (16%N, rest)
      else (10%N, s)
  | _ => (10%N, s)
  end.

(** [parseInt(string)] with no radix: leading white space is skipped, a
    sign is read, the radix is chosen, the longest prefix of digits is the
    value, and there being none gives NaN; a zero keeps the sign.  (For
    more than 20 significant decimal digits ECMA-262 lets an implementation
    round from the first 20; the value here is the exact one, rounded
    once.) *)
Definition parseInt (string : string) : float :=
  let '(negative, unsigned) := read_sign (String_trimStart string) in
  let '(radix, digits) := read_radix unsigned in
  match digits_prefix radix digits None with
  | None => nan
  | Some mathInt =>
      if (mathInt =? 0)%N then (if negative then (-0)%float else 0%float)
      else Number_of_Z (if negative then - Z.of_N mathInt else Z.of_N mathInt)
  end.

(** [isNaN] of a number *)
Definition isNaN (x : float) : bool := is_nan x.

(** The callback [reader.onload] of [handleFileUpload]: [text] is the text
    of the file, [data] the state, and the result the state afterwards
    ([setData(parsed)] replaces it). *)
Definition handleFileUpload_onload (text : string) (data : list (CustomerData float))
  : list (CustomerData float) :=
  let lines := String_split "010"%char text in
  if (length lines <? 2)%nat then data
  else
    let headers := String_split ","%char (String_toLowerCase (nth 0 lines "")) in
    let ageIdx := Array_findIndex (fun h => String_includes h "age") headers in
    let salaryIdx := Array_findIndex (fun h => String_includes h "salary") headers in
    let purchasedIdx := Array_findIndex (fun h => String_includes h "purchased") headers in
    if negb (ageIdx =? -1)%Z && negb (salaryIdx =? -1)%Z && negb (purchasedIdx =? -1)%Z
    then
      let parsed :=
        filter (fun d => negb (isNaN (Age d)))
          (map (fun line =>
                  let cols := String_split ","%char line in
                  {| Age := parseInt (ToString (Array_get cols ageIdx));
                     EstimatedSalary := parseInt (ToString (Array_get cols salaryIdx));
                     Purchased := parseInt (ToString (Array_get cols purchasedIdx)) |})
               (filter (fun l => String_ToBoolean (String_trim l)) (tl lines))) in
      if (length parsed =? 0)%nat then data else parsed
    else data.

(** *** Well-formed files

    The text of a CSV file, used below to state what the handler reads
    from it. *)

(** The decimal numeral of an integer. *)
Definition decimal (z : Z) : string :=
  DecimalString.NilEmpty.string_of_int (Z.to_int z).

(** A row of integer cells, followed by [eol] (nothing, or a carriage
    return). *)
Definition csv_row (eol : string) (cells : list Z) : string :=
  String.concat "," (map decimal cells) ++ eol.

(** A header line, rows and trailing blank lines, joined by line feeds. *)
Definition csv_text (header eol : string) (rows : list (list Z)) (blank : list string)
  : string :=
  String.concat (String "010" "") (header :: (map (csv_row eol) rows ++ blank)%list).

(** The code unit [c] does not occur in [s]. *)
Fixpoint without (c : ascii) (s : string) : Prop :=
  match s with
  | EmptyString => True
  | String x rest => x <> c /\ without c rest
  end.

(** The string does not go on with a letter or a digit. *)
Definition stops (rest : string) : Prop :=
  match rest with
  | EmptyString => True
  | String c _ => digit_of c = None
  end.

(** What a cell of a parsed row holds: the number written in the cell, or
    NaN when the row has no such cell. *)
Definition csv_cell (cells : list Z) (i : nat) : float :=
  match nth_error cells i with
  | Some z => Number_of_Z z
  | None => nan
  end.

End Upload.

(** * Properties *)

(** ** The arithmetic laws at the two instances *)

Lemma float_ltb_irrefl (x : float) : PrimFloat.ltb x x = false.
Proof.
  rewrite ltb_spec. unfold SFltb.
  destruct (Prim2SF x) as [s | s | | s m e]; simpl; try reflexivity.
  - destruct s; reflexivity.
  - destruct s; rewrite Z.compare_refl, Pos.compare_cont_refl; reflexivity.
Qed.

Lemma few_cases (P : nat -> Prop) (lo hi : nat) :
  (forall c, (lo <= c <= hi)%nat -> P c) <->
  Forall P (seq lo (S hi - lo)).
Proof.
  rewrite Forall_forall. split; intros H c Hc.
  - apply H. apply in_seq in Hc. lia.
  - apply H. apply in_seq. lia.
Qed.

#[export] Instance binary64_laws : NumberLaws float.
Proof.
  split.
  - reflexivity.
  - exact float_ltb_irrefl.
  - reflexivity.
  - reflexivity.
  - reflexivity.
  - apply (few_cases _ 3 5). repeat constructor.
  - intros c Hc.
    apply (proj2 (few_cases
      (fun c => PrimFloat.ltb (PrimFloat.div (float_of_nat 5) (float_of_nat 2)) (float_of_nat c) = false)
      0 2)); [repeat constructor | lia].
Qed.

Lemma R_trunc_INR (n : nat) : R_trunc (INR n) = Z.of_nat n.
Proof.
  unfold R_trunc. destruct (Rle_dec 0 (INR n)) as [_ | Hneg].
  - apply Int_part_INR.
  - exfalso. apply Hneg, pos_INR.
Qed.

Lemma R_ltb_true (x y : R) : R_ltb x y = true <-> (x < y)%R.
Proof. unfold R_ltb. destruct (Rlt_dec x y); split; intros; (lra || congruence). Qed.

Lemma R_ltb_false (x y : R) : R_ltb x y = false <-> (y <= x)%R.
Proof. unfold R_ltb. destruct (Rlt_dec x y); split; intros; (lra || congruence). Qed.

Lemma R_leb_true (x y : R) : R_leb x y = true <-> (x <= y)%R.
Proof. unfold R_leb. destruct (Rle_dec x y); split; intros; (lra || congruence). Qed.

Lemma R_strict_eq_true (x y : R) : R_strict_eq x y = true <-> x = y.
Proof. unfold R_strict_eq. destruct (Req_dec_T x y); split; intros; congruence. Qed.

Lemma R_ToBoolean_true (x : R) : R_ToBoolean x = true <-> x <> 0%R.
Proof.
  unfold R_ToBoolean, R_strict_eq.
  destruct (Req_dec_T x 0); simpl; split; intros; congruence.
Qed.

Lemma R_ToBoolean_false (x : R) : R_ToBoolean x = false <-> x = 0%R.
Proof.
  unfold R_ToBoolean, R_strict_eq.
  destruct (Req_dec_T x 0); simpl; split; intros; congruence.
Qed.

#[export] Instance exact_laws : NumberLaws R.
Proof.
  split; simpl.
  - apply R_ToBoolean_true. lra.
  - intros x. apply R_ltb_false. lra.
  - apply R_strict_eq_true. reflexivity.
  - unfold R_strict_eq. destruct (Req_dec_T 0 1); [lra | reflexivity].
  - f_equal. apply (R_trunc_INR 5).
  - intros c Hc. apply R_ltb_true.
    pose proof (le_INR 3 c (proj1 Hc)) as H. simpl in *. lra.
  - intros c Hc. apply R_ltb_false.
    pose proof (le_INR c 2 Hc) as H. simpl in *. lra.
Qed.

(** ** Order and subtraction on doubles

    The comparator of [predictKNN] looks at the sign of a difference.  On
    doubles a difference is positive exactly when the subtrahend is the
    smaller number (gradual underflow: distinct doubles never subtract to
    zero), and numbers other than NaN are totally ordered. *)

Section Binary64Order.

Local Open Scope Z_scope.

Local Abbreviation emin := (-1074)%Z.

Lemma fexp_eq (e : Z) : fexp prec emax e = Z.max (e - 53) emin.
Proof. reflexivity. Qed.

Lemma iter_xO (m d : positive) : Zpos (Pos.iter xO m d) = Zpos m * 2 ^ Zpos d.
Proof.
  induction d as [| d IH] using Pos.peano_ind.
  - simpl. lia.
  - rewrite Pos.iter_succ, Pos2Z.inj_succ, Z.pow_succ_r by lia.
    rewrite Pos2Z.inj_xO, IH. lia.
Qed.

Lemma shl_align_spec (m : positive) (e e' : Z) :
  e' <= e ->
  Zpos (fst (shl_align m e e')) = Zpos m * 2 ^ (e - e') /\ snd (shl_align m e e') = e'.
Proof.
  intros Hle. unfold shl_align.
  destruct (e' - e) as [| d | d] eqn:Hd; try lia.
  - assert (e = e') as -> by lia. rewrite Z.sub_diag. simpl. split; lia.
  - simpl. rewrite iter_xO. replace (e - e') with (Zpos d) by lia. split; reflexivity.
Qed.

Lemma digits2_bounds (m : positive) :
  2 ^ (Zpos (digits2_pos m) - 1) <= Zpos m < 2 ^ Zpos (digits2_pos m).
Proof.
  induction m as [m IH | m IH |]; simpl digits2_pos.
  - rewrite Pos2Z.inj_succ, Z.pow_succ_r by lia.
    replace (Z.succ (Zpos (digits2_pos m)) - 1) with (Z.succ (Zpos (digits2_pos m) - 1)) by lia.
    rewrite Z.pow_succ_r by lia. lia.
  - rewrite Pos2Z.inj_succ, Z.pow_succ_r by lia.
    replace (Z.succ (Zpos (digits2_pos m)) - 1) with (Z.succ (Zpos (digits2_pos m) - 1)) by lia.
    rewrite Z.pow_succ_r by lia. lia.
  - simpl. lia.
Qed.

Lemma shr_1_m (mrs : shr_record) :
  0 <= shr_m mrs -> shr_m (shr_1 mrs) = shr_m mrs / 2.
Proof.
  destruct mrs as [m r s]. simpl shr_m. intros Hm.
  rewrite <- Z.div2_div.
  destruct m as [| [p | p |] | p]; try reflexivity; lia.
Qed.

Lemma pow2_xI (p : positive) : 2 ^ Zpos p~1 = 2 * (2 ^ Zpos p * 2 ^ Zpos p).
Proof.
  assert (Zpos p~1 = 1 + (Zpos p + Zpos p)) as -> by lia.
  rewrite !Z.pow_add_r by lia. reflexivity.
Qed.

Lemma pow2_xO (p : positive) : 2 ^ Zpos p~0 = 2 ^ Zpos p * 2 ^ Zpos p.
Proof.
  assert (Zpos p~0 = Zpos p + Zpos p) as -> by lia.
  rewrite !Z.pow_add_r by lia. reflexivity.
Qed.

Lemma iter_shr_1_m (p : positive) (mrs : shr_record) :
  0 <= shr_m mrs -> shr_m (SpecFloat.iter_pos shr_1 p mrs) = shr_m mrs / 2 ^ Zpos p.
Proof.
  revert mrs. induction p as [p IH | p IH |]; intros mrs Hm; simpl SpecFloat.iter_pos.
  - assert (0 <= shr_m (shr_1 mrs)) as H1
      by (rewrite shr_1_m by assumption; apply Z.div_pos; lia).
    assert (0 <= shr_m (SpecFloat.iter_pos shr_1 p (shr_1 mrs))) as H2
      by (rewrite IH by assumption; apply Z.div_pos; lia).
    rewrite IH, IH, shr_1_m by assumption.
    rewrite !Z.div_div by lia. now rewrite pow2_xI.
  - assert (0 <= shr_m (SpecFloat.iter_pos shr_1 p mrs)) as H2
      by (rewrite IH by assumption; apply Z.div_pos; lia).
    rewrite IH, IH by assumption.
    rewrite !Z.div_div by lia. now rewrite pow2_xO.
  - now rewrite shr_1_m.
Qed.

Lemma shr_record_of_loc_m (m : Z) (l : location) : shr_m (shr_record_of_loc m l) = m.
Proof. destruct l as [| []]; reflexivity. Qed.

(** Shifting a positive mantissa to its canonical exponent leaves it
    positive when the exponent is not below [emin]. *)
Lemma shr_fexp_pos (m e : Z) (l : location) :
  0 < m -> emin <= e ->
  0 < shr_m (fst (shr_fexp prec emax m e l)) /\ emin <= snd (shr_fexp prec emax m e l).
Proof.
  intros Hm He. unfold shr_fexp, shr.
  destruct m as [| m | m]; try lia. simpl Zdigits2.
  pose proof (digits2_bounds m) as Hd.
  rewrite fexp_eq.
  destruct (Z.max (Zpos (digits2_pos m) + e - 53) emin - e) as [| n | n] eqn:Hn;
    cbn [fst snd]; rewrite ?shr_record_of_loc_m; try (split; lia).
  rewrite iter_shr_1_m by (rewrite shr_record_of_loc_m; lia).
  rewrite shr_record_of_loc_m. split; [| lia].
  assert (Zpos n <= Zpos (digits2_pos m) - 1) as Hle by lia.
  apply Z.div_str_pos. split; [apply Z.pow_pos_nonneg; lia |].
  apply Z.le_trans with (2 ^ (Zpos (digits2_pos m) - 1)); [| lia].
  apply Z.pow_le_mono_r; lia.
Qed.

Lemma round_nearest_even_pos (m : Z) (l : location) :
  0 < m -> 0 < round_nearest_even m l.
Proof.
  intros Hm. destruct l as [| []]; simpl; try lia.
  destruct (Z.even m); lia.
Qed.

(** Rounding a positive integer at an exponent not below [emin] gives a
    finite number or an infinity of the sign asked for. *)
Lemma binary_round_aux_sign (s : bool) (m e : Z) (l : location) :
  0 < m -> emin <= e ->
  (exists m' e', binary_round_aux prec emax s m e l = S754_finite s m' e') \/
  binary_round_aux prec emax s m e l = S754_infinity s.
Proof.
  intros Hm He. unfold binary_round_aux.
  destruct (shr_fexp_pos m e l Hm He) as [H1 H1e].
  destruct (shr_fexp prec emax m e l) as [mrs' e']. cbn [fst snd] in *.
  pose proof (round_nearest_even_pos (shr_m mrs') (loc_of_shr_record mrs') H1) as H2.
  destruct (shr_fexp_pos _ e' loc_Exact H2 H1e) as [H3 _].
  destruct (shr_fexp prec emax _ e' loc_Exact) as [mrs'' e'']. cbn [fst snd] in *.
  destruct (shr_m mrs'') as [| m'' | m'']; try lia.
  destruct (e'' <=? emax - prec); [left; eauto | right; reflexivity].
Qed.

Lemma binary_round_sign (s : bool) (m : positive) (e : Z) :
  emin <= e ->
  (exists m' e', binary_round prec emax s m e = S754_finite s m' e') \/
  binary_round prec emax s m e = S754_infinity s.
Proof.
  intros He. unfold binary_round.
  destruct (shl_align m e (fexp prec emax (Zpos (digits2_pos m) + e))) as [mz ez] eqn:Hal.
  apply binary_round_aux_sign; [lia |].
  unfold shl_align in Hal. rewrite fexp_eq in Hal.
  destruct (Z.max (Zpos (digits2_pos m) + e - 53) emin - e) as [| d | d] eqn:Hd;
    injection Hal as <- <-; lia.
Qed.

Lemma canonical_bounds (m : positive) (e : Z) :
  canonical_mantissa prec emax m e = true ->
  emin <= e /\ Zpos (digits2_pos m) <= 53 /\ (emin < e -> Zpos (digits2_pos m) = 53).
Proof.
  unfold canonical_mantissa. rewrite fexp_eq. intros H. apply Z.eqb_eq in H. lia.
Qed.

(** Of two canonical mantissas the one with the larger exponent is larger. *)
Lemma canonical_lt (mx my : positive) (ex ey : Z) :
  canonical_mantissa prec emax mx ex = true ->
  canonical_mantissa prec emax my ey = true ->
  ex < ey ->
  Zpos mx < Zpos my * 2 ^ (ey - ex).
Proof.
  intros Hx Hy Hlt.
  destruct (canonical_bounds mx ex Hx) as (Hex & Hdx & _).
  destruct (canonical_bounds my ey Hy) as (_ & _ & Hdy).
  pose proof (digits2_bounds mx) as Hmx. pose proof (digits2_bounds my) as Hmy.
  rewrite Hdy in Hmy by lia.
  assert (2 ^ Zpos (digits2_pos mx) <= 2 ^ 53) by (apply Z.pow_le_mono_r; lia).
  assert (2 ^ 1 <= 2 ^ (ey - ex)) by (apply Z.pow_le_mono_r; lia).
  change (2 ^ 1) with 2 in *. change (2 ^ (53 - 1)) with 4503599627370496 in *.
  change (2 ^ 53) with 9007199254740992 in *. nia.
Qed.

Lemma SFcompare_lt_iff (sx sy : bool) (mx my : positive) (ex ey : Z) :
  canonical_mantissa prec emax mx ex = true ->
  canonical_mantissa prec emax my ey = true ->
  let ez := Z.min ex ey in
  SFcompare (S754_finite sy my ey) (S754_finite sx mx ex) = Some Lt <->
  cond_Zopp sy (Zpos my * 2 ^ (ey - ez)) < cond_Zopp sx (Zpos mx * 2 ^ (ex - ez)).
Proof.
  intros Hx Hy ez. subst ez.
  assert (0 < Zpos my * 2 ^ (ey - Z.min ex ey)) as Hpy
    by (apply Z.mul_pos_pos; [lia | apply Z.pow_pos_nonneg; lia]).
  assert (0 < Zpos mx * 2 ^ (ex - Z.min ex ey)) as Hpx
    by (apply Z.mul_pos_pos; [lia | apply Z.pow_pos_nonneg; lia]).
  unfold SFcompare.
  destruct (Z.compare_spec ey ex) as [Heq | Hlt | Hgt].
  - subst ey. rewrite Z.min_id, Z.sub_diag, !Z.mul_1_r in *.
    change (Pos.compare_cont Eq my mx) with (Pos.compare my mx).
    destruct (Pos.compare_spec my mx) as [-> | Hm | Hm];
      destruct sy, sx; cbv beta iota delta [cond_Zopp CompOpp];
      split; intros H; (discriminate || lia || reflexivity).
  - pose proof (canonical_lt my mx ey ex Hy Hx Hlt) as Hc.
    rewrite Z.min_r in * by lia. rewrite Z.sub_diag, Z.mul_1_r in *.
    destruct sy, sx; cbv beta iota delta [cond_Zopp CompOpp];
      split; intros H; (discriminate || lia || reflexivity).
  - pose proof (canonical_lt mx my ex ey Hx Hy Hgt) as Hc.
    rewrite Z.min_l in * by lia. rewrite Z.sub_diag, Z.mul_1_r in *.
    destruct sy, sx; cbv beta iota delta [cond_Zopp CompOpp];
      split; intros H; (discriminate || lia || reflexivity).
Qed.

Lemma SFltb_zero_round (s : bool) (m : positive) (e : Z) :
  emin <= e ->
  SFltb (S754_zero false) (binary_round prec emax s m e) = negb s.
Proof.
  intros He. destruct (binary_round_sign s m e He) as [(m' & e' & ->) | ->];
    destruct s; reflexivity.
Qed.

(** The difference is positive exactly when the subtrahend is smaller. *)
Lemma SFsub_sign (X Y : spec_float) :
  valid_binary X = true ->
  valid_binary Y = true ->
  SFltb (S754_zero false) (SFsub prec emax X Y) = SFltb Y X.
Proof.
  intros HX HY.
  destruct X as [sx | sx | | sx mx ex], Y as [sy | sy | | sy my ey];
    try reflexivity;
    try (destruct sx; reflexivity);
    try (destruct sy; reflexivity);
    try (destruct sx, sy; reflexivity).
  unfold valid_binary, SpecFloat.valid_binary, bounded in HX, HY.
  apply andb_prop in HX as [HX _], HY as [HY _].
  destruct (canonical_bounds mx ex HX) as (Hex & _).
  destruct (canonical_bounds my ey HY) as (Hey & _).
  unfold SFsub, SFltb at 2.
  destruct (shl_align_spec mx ex (Z.min ex ey) ltac:(lia)) as [Hax _].
  destruct (shl_align_spec my ey (Z.min ex ey) ltac:(lia)) as [Hay _].
  rewrite Hax, Hay.
  pose proof (SFcompare_lt_iff sx sy mx my ex ey HX HY) as Hcmp. cbv zeta in Hcmp.
  set (ax := cond_Zopp sx (Zpos mx * 2 ^ (ex - Z.min ex ey))) in *.
  set (ay := cond_Zopp sy (Zpos my * 2 ^ (ey - Z.min ex ey))) in *.
  unfold binary_normalize.
  destruct (ax - ay) as [| d | d] eqn:Hd.
  - destruct (SFcompare (S754_finite sy my ey) (S754_finite sx mx ex)) as [[| |] |];
      try reflexivity.
    assert (ay < ax) by (now apply Hcmp). lia.
  - rewrite SFltb_zero_round by lia.
    assert (SFcompare (S754_finite sy my ey) (S754_finite sx mx ex) = Some Lt) as ->
      by (apply Hcmp; lia).
    reflexivity.
  - rewrite SFltb_zero_round by lia.
    destruct (SFcompare (S754_finite sy my ey) (S754_finite sx mx ex)) as [[| |] |];
      try reflexivity.
    assert (ay < ax) by (now apply Hcmp). lia.
Qed.

Lemma float_sub_sign (x y : float) :
  PrimFloat.ltb 0 (x - y)%float = PrimFloat.ltb y x.
Proof.
  rewrite !ltb_spec, sub_spec.
  apply SFsub_sign; apply Prim2SF_valid.
Qed.

Lemma SFltb_asym (x y : spec_float) : SFltb x y = true -> SFltb y x = false.
Proof.
  unfold SFltb, SFcompare.
  destruct x as [sx | sx | | sx mx ex], y as [sy | sy | | sy my ey];
    try discriminate; try reflexivity;
    try (destruct sx; try destruct sy; (discriminate || reflexivity));
    try (destruct sy; (discriminate || reflexivity)).
  change (Pos.compare_cont Eq mx my) with (Pos.compare mx my).
  change (Pos.compare_cont Eq my mx) with (Pos.compare my mx).
  rewrite (Z.compare_antisym ex ey), (Pos.compare_antisym mx my).
  destruct sx, sy; try (discriminate || reflexivity);
    destruct (ex ?= ey); simpl; try (discriminate || reflexivity);
    destruct (mx ?= my)%positive; simpl; (discriminate || reflexivity).
Qed.

Lemma SFltb_false_trans (x y z : spec_float) :
  y <> S754_nan ->
  SFltb y x = false -> SFltb z y = false -> SFltb z x = false.
Proof.
  intros Hy. unfold SFltb, SFcompare.
  destruct x as [sx | sx | | sx mx ex], y as [sy | sy | | sy my ey],
           z as [sz | sz | | sz mz ez];
    try congruence; try reflexivity;
    try (destruct sx; try destruct sy; try destruct sz; (discriminate || reflexivity));
    try (destruct sy; try destruct sz; (discriminate || reflexivity));
    try (destruct sx; try destruct sz; (discriminate || reflexivity)).
  change (Pos.compare_cont Eq my mx) with (Pos.compare my mx).
  change (Pos.compare_cont Eq mz my) with (Pos.compare mz my).
  change (Pos.compare_cont Eq mz mx) with (Pos.compare mz mx).
  destruct sx, sy, sz; try (discriminate || reflexivity);
    destruct (Z.compare_spec ey ex), (Z.compare_spec ez ey), (Z.compare_spec ez ex);
    try lia; simpl; try (discriminate || reflexivity);
    destruct (Pos.compare_spec my mx), (Pos.compare_spec mz my), (Pos.compare_spec mz mx);
    simpl; try (discriminate || reflexivity); try lia; subst; lia.
Qed.

Lemma SFleb_not_ltb (x y : spec_float) :
  x <> S754_nan -> y <> S754_nan -> SFleb x y = negb (SFltb y x).
Proof.
  intros Hx Hy. unfold SFleb, SFltb, SFcompare.
  destruct x as [sx | sx | | sx mx ex], y as [sy | sy | | sy my ey];
    try congruence; try reflexivity;
    try (destruct sx; try destruct sy; reflexivity);
    try (destruct sy; reflexivity).
  change (Pos.compare_cont Eq mx my) with (Pos.compare mx my).
  change (Pos.compare_cont Eq my mx) with (Pos.compare my mx).
  rewrite (Z.compare_antisym ex ey), (Pos.compare_antisym mx my).
  destruct sx, sy; try reflexivity;
    destruct (ex ?= ey); simpl; try reflexivity;
    destruct (mx ?= my)%positive; reflexivity.
Qed.

Lemma SFeqb_not_ltb (x y : spec_float) :
  x <> S754_nan -> y <> S754_nan ->
  SFeqb x y = negb (SFltb x y) && negb (SFltb y x).
Proof.
  intros Hx Hy. unfold SFeqb, SFltb, SFcompare.
  destruct x as [sx | sx | | sx mx ex], y as [sy | sy | | sy my ey];
    try congruence; try reflexivity;
    try (destruct sx; try destruct sy; reflexivity);
    try (destruct sy; reflexivity).
  change (Pos.compare_cont Eq mx my) with (Pos.compare mx my).
  change (Pos.compare_cont Eq my mx) with (Pos.compare my mx).
  rewrite (Z.compare_antisym ex ey), (Pos.compare_antisym mx my).
  destruct sx, sy; try reflexivity;
    destruct (ex ?= ey); simpl; try reflexivity;
    destruct (mx ?= my)%positive; reflexivity.
Qed.

Lemma not_nan_spec (x : float) : is_nan x = false -> Prim2SF x <> S754_nan.
Proof.
  unfold is_nan. rewrite FloatAxioms.eqb_spec. intros H Hnan. rewrite Hnan in H. discriminate.
Qed.

Lemma float_ltb_asym (x y : float) :
  PrimFloat.ltb x y = true -> PrimFloat.ltb y x = false.
Proof. rewrite !ltb_spec. apply SFltb_asym. Qed.

Lemma float_ltb_false_trans (x y z : float) :
  is_nan y = false ->
  PrimFloat.ltb y x = false -> PrimFloat.ltb z y = false -> PrimFloat.ltb z x = false.
Proof.
  intros Hy. rewrite !ltb_spec. apply SFltb_false_trans. now apply not_nan_spec.
Qed.

Lemma float_leb_not_ltb (x y : float) :
  is_nan x = false -> is_nan y = false ->
  PrimFloat.leb x y = negb (PrimFloat.ltb y x).
Proof.
  intros Hx Hy. rewrite leb_spec, ltb_spec.
  apply SFleb_not_ltb; now apply not_nan_spec.
Qed.

Lemma float_eqb_not_ltb (x y : float) :
  is_nan x = false -> is_nan y = false ->
  PrimFloat.eqb x y = negb (PrimFloat.ltb x y) && negb (PrimFloat.ltb y x).
Proof.
  intros Hx Hy. rewrite FloatAxioms.eqb_spec, !ltb_spec.
  apply SFeqb_not_ltb; now apply not_nan_spec.
Qed.

Lemma by_dist_after_float (a b : Neighbor float) :
  goes_after by_dist a b = PrimFloat.ltb (dist b) (dist a).
Proof. unfold goes_after, by_dist. apply float_sub_sign. Qed.

(** On doubles the comparator orders neighbours consistently as soon as no
    distance is NaN. *)
Lemma by_dist_consistent_float (l : list (Neighbor float)) :
  Forall (fun n => is_nan (dist n) = false) l -> consistent_on by_dist l.
Proof.
  intros Hl. rewrite Forall_forall in Hl. split.
  - intros a b _ _. rewrite !by_dist_after_float. apply float_ltb_asym.
  - intros a b c _ Hb _. rewrite !by_dist_after_float.
    intros Hab Hbc. now apply (float_ltb_false_trans _ (dist b)); auto.
Qed.

End Binary64Order.

(** ** Quotients of doubles

    [getAccuracy] and [predictKNN] return a quotient of two array lengths,
    or of a count and [k]; [predictLogisticRegression] returns the quotient
    [1 / (1 + e)].  Rounding to nearest keeps a quotient on the side of 1
    its exact value is on: the lemmas below bound the result of the division
    of two normal doubles. *)

Section Binary64Range.

Local Open Scope Z_scope.

Local Abbreviation emin := (-1074)%Z.

Lemma digits2_unique (m : positive) (d : Z) :
  2 ^ (d - 1) <= Zpos m < 2 ^ d -> Zpos (digits2_pos m) = d.
Proof.
  intros [Hlo Hhi]. pose proof (digits2_bounds m) as [Hlo' Hhi'].
  assert (0 < d) as Hd.
  { destruct (Z.lt_trichotomy d 0) as [Hn | [-> | Hp]]; [| simpl in Hhi; lia | exact Hp].
    rewrite Z.pow_neg_r in Hhi by assumption. lia. }
  destruct (Z.lt_trichotomy (Zpos (digits2_pos m)) d) as [Hlt | [Heq | Hgt]]; [| exact Heq |].
  - assert (2 ^ Zpos (digits2_pos m) <= 2 ^ (d - 1)) by (apply Z.pow_le_mono_r; lia). lia.
  - assert (2 ^ d <= 2 ^ (Zpos (digits2_pos m) - 1)) by (apply Z.pow_le_mono_r; lia). lia.
Qed.

(** The number of binary digits is below [d] when the number is below [2^d]. *)
Lemma digits2_le (m : positive) (d : Z) : Zpos m < 2 ^ d -> Zpos (digits2_pos m) <= d.
Proof.
  intros Hhi. pose proof (digits2_bounds m) as [Hlo' _].
  destruct (Z_le_gt_dec (Zpos (digits2_pos m)) d) as [Hle | Hgt]; [exact Hle |].
  assert (0 <= d).
  { destruct (Z_le_gt_dec 0 d); [assumption |]. rewrite Z.pow_neg_r in Hhi by lia. lia. }
  assert (2 ^ d <= 2 ^ (Zpos (digits2_pos m) - 1)) by (apply Z.pow_le_mono_r; lia). lia.
Qed.

(** The shift [shr_fexp] makes: by [n] binary places, [n] the distance to
    the canonical exponent when that is above. *)
Lemma shr_fexp_shift (q e : Z) (l : location) :
  0 < q ->
  let n := Z.max 0 (fexp prec emax (Zdigits2 q + e) - e) in
  snd (shr_fexp prec emax q e l) = e + n /\
  shr_m (fst (shr_fexp prec emax q e l)) = q / 2 ^ n.
Proof.
  intros Hq n. subst n. unfold shr_fexp, shr.
  destruct (fexp prec emax (Zdigits2 q + e) - e) as [| p | p]; cbn [fst snd].
  - rewrite shr_record_of_loc_m, Z.max_id. simpl. rewrite Z.div_1_r. split; lia.
  - rewrite iter_shr_1_m by (rewrite shr_record_of_loc_m; lia).
    rewrite shr_record_of_loc_m, Z.max_r by lia. split; reflexivity.
  - rewrite shr_record_of_loc_m, Z.max_l by lia. simpl. rewrite Z.div_1_r. split; lia.
Qed.

Lemma round_nearest_even_bounds (m : Z) (l : location) :
  m <= round_nearest_even m l <= m + 1.
Proof.
  destruct l as [| []]; simpl; try lia. destruct (Z.even m); lia.
Qed.

(** Rounding [q * 2^e] gives a number that is at most [B * 2^e], for any
    bound [B] above [q] on the grid the result is rounded to. *)
Lemma binary_round_aux_cap (s : bool) (q e : Z) (l : location) (B : Z) :
  0 < q -> emin <= e ->
  q < B ->
  (2 ^ Z.max 0 (fexp prec emax (Zdigits2 q + e) - e) | B) ->
  B <= 2 ^ (971 - e) ->
  exists m' e',
    binary_round_aux prec emax s q e l = S754_finite s m' e' /\
    e <= e' /\ Zpos m' * 2 ^ (e' - e) <= B.
Proof.
  intros Hq He HB [b Hb] Hmax. unfold binary_round_aux.
  destruct (shr_fexp_shift q e l Hq) as [Hs1 Hm1].
  destruct (shr_fexp_pos q e l Hq He) as [Hp1 He1].
  set (n := Z.max 0 (fexp prec emax (Zdigits2 q + e) - e)) in *.
  assert (0 <= n) as Hn by (subst n; lia).
  assert (0 < 2 ^ n) as Hpn by (apply Z.pow_pos_nonneg; lia).
  destruct (shr_fexp prec emax q e l) as [mrs1 e1]. cbn [fst snd] in *. subst e1.
  set (m1 := shr_m mrs1) in *.
  assert (m1 + 1 <= b) as Hm1b.
  { assert (m1 < b); [| lia]. rewrite Hm1. apply Z.div_lt_upper_bound; lia. }
  pose proof (round_nearest_even_bounds m1 (loc_of_shr_record mrs1)) as Hr.
  set (m2 := round_nearest_even m1 (loc_of_shr_record mrs1)) in *.
  assert (0 < m2) as Hm2 by lia.
  destruct (shr_fexp_shift m2 (e + n) loc_Exact Hm2) as [Hs2 Hm3].
  destruct (shr_fexp_pos m2 (e + n) loc_Exact Hm2 ltac:(lia)) as [Hp3 _].
  set (n' := Z.max 0 (fexp prec emax (Zdigits2 m2 + (e + n)) - (e + n))) in *.
  assert (0 <= n') as Hn' by (subst n'; lia).
  assert (0 < 2 ^ n') as Hpn' by (apply Z.pow_pos_nonneg; lia).
  destruct (shr_fexp prec emax m2 (e + n) loc_Exact) as [mrs2 e2]. cbn [fst snd] in *. subst e2.
  destruct (shr_m mrs2) as [| m3 | m3] eqn:Hm3'; try lia.
  assert (Zpos m3 * 2 ^ (e + n + n' - e) <= B) as Hval.
  { replace (e + n + n' - e) with (n' + n) by lia. rewrite Z.pow_add_r by lia.
    pose proof (Z.mul_div_le m2 (2 ^ n') Hpn') as Hdiv. rewrite <- Hm3 in Hdiv.
    rewrite Hb, Z.mul_assoc. apply Z.mul_le_mono_nonneg_r; lia. }
  assert (e <= 971) as He971.
  { destruct (Z_le_gt_dec e 971) as [Hle | Hgt]; [exact Hle |].
    rewrite Z.pow_neg_r in Hmax by lia. lia. }
  assert (e + n + n' <= 971) as Hfin.
  { assert (2 ^ (e + n + n' - e) <= 2 ^ (971 - e)) as Hpow.
    { apply Z.le_trans with B; [| exact Hmax].
      apply Z.le_trans with (Zpos m3 * 2 ^ (e + n + n' - e)); [| exact Hval].
      rewrite <- (Z.mul_1_l (2 ^ (e + n + n' - e))) at 1.
      apply Z.mul_le_mono_nonneg_r; [apply Z.pow_nonneg |]; lia. }
    apply Z.pow_le_mono_r_iff in Hpow; lia. }
  change (emax - prec) with 971. rewrite (proj2 (Z.leb_le _ _) Hfin).
  exists m3, (e + n + n'). split; [reflexivity |]. split; [lia | exact Hval].
Qed.

(** The order of two positive canonical doubles is the order of their
    values, read on the grid of the smallest exponent. *)
Lemma SFltb_value (mx my : positive) (ex ey : Z) :
  canonical_mantissa prec emax mx ex = true ->
  canonical_mantissa prec emax my ey = true ->
  SFltb (S754_finite false my ey) (S754_finite false mx ex) = true <->
  Zpos my * 2 ^ (ey - emin) < Zpos mx * 2 ^ (ex - emin).
Proof.
  intros Hx Hy.
  destruct (canonical_bounds mx ex Hx) as (Hex & _).
  destruct (canonical_bounds my ey Hy) as (Hey & _).
  pose proof (SFcompare_lt_iff false false mx my ex ey Hx Hy) as Hcmp.
  cbv zeta in Hcmp. cbn [cond_Zopp] in Hcmp.
  set (ez := Z.min ex ey) in *.
  assert (0 < 2 ^ (ez - emin)) as Hp by (apply Z.pow_pos_nonneg; lia).
  replace (ey - emin) with ((ey - ez) + (ez - emin)) by lia.
  replace (ex - emin) with ((ex - ez) + (ez - emin)) by lia.
  rewrite !Z.pow_add_r by lia. rewrite !Z.mul_assoc.
  rewrite <- Z.mul_lt_mono_pos_r by exact Hp.
  rewrite <- Hcmp. unfold SFltb.
  destruct (SFcompare _ _) as [[| |] |]; split; intros H; (reflexivity || discriminate).
Qed.

(** A canonical mantissa with nothing to round comes back unchanged. *)
Lemma binary_round_aux_exact (s : bool) (m : positive) (e : Z) :
  canonical_mantissa prec emax m e = true -> e <= 971 ->
  binary_round_aux prec emax s (Zpos m) e loc_Exact = S754_finite s m e.
Proof.
  intros Hc He. unfold canonical_mantissa in Hc. apply Z.eqb_eq in Hc.
  unfold binary_round_aux, shr_fexp. cbn [Zdigits2]. rewrite Hc, Z.sub_diag.
  cbn [shr shr_record_of_loc shr_m loc_of_shr_record shr_r shr_s round_nearest_even Zdigits2].
  rewrite Hc, Z.sub_diag. cbn [shr shr_m shr_record_of_loc].
  change (emax - prec) with 971. now rewrite (proj2 (Z.leb_le _ _) He).
Qed.

Lemma digits2_iter_xO (m d : positive) :
  Zpos (digits2_pos (Pos.iter xO m d)) = Zpos (digits2_pos m) + Zpos d.
Proof.
  induction d as [| d IH] using Pos.peano_ind.
  - simpl. lia.
  - rewrite Pos.iter_succ. cbn [digits2_pos]. rewrite Pos2Z.inj_succ, IH. lia.
Qed.

(** An array length is a normal double: 53 binary digits at an exponent
    between -52 and 0, and no rounding below [2^53]. *)
Lemma float_of_nat_pos (c : nat) :
  (0 < c)%nat -> Z.of_nat c < 2 ^ 53 ->
  exists m e,
    Prim2SF (float_of_nat c) = S754_finite false m e /\
    Zpos (digits2_pos m) = 53 /\ -52 <= e <= 0 /\ Zpos m = Z.of_nat c * 2 ^ (- e).
Proof.
  intros Hc Hlt. unfold float_of_nat.
  rewrite of_uint63_spec, Uint63.of_Z_spec.
  rewrite Z.mod_small
    by (split; [lia |]; apply Z.lt_trans with (2 ^ 53); [exact Hlt | reflexivity]).
  destruct (Z.of_nat c) as [| p | p] eqn:Hp; try lia.
  unfold binary_normalize, binary_round.
  pose proof (digits2_bounds p) as Hd.
  pose proof (digits2_le p 53 Hlt) as Hd53.
  set (d := Zpos (digits2_pos p)) in *.
  assert (fexp prec emax (d + 0) = d - 53) as -> by (rewrite fexp_eq; lia).
  destruct (shl_align_spec p 0 (d - 53) ltac:(lia)) as [Hm He].
  destruct (shl_align p 0 (d - 53)) as [mz ez]. cbn [fst snd] in *. subst ez.
  replace (0 - (d - 53)) with (53 - d) in Hm by lia.
  assert (Zpos (digits2_pos mz) = 53) as Hdz.
  { apply digits2_unique. rewrite Hm.
    assert (0 < 2 ^ (53 - d)) by (apply Z.pow_pos_nonneg; lia).
    assert (2 ^ (53 - 1) = 2 ^ (d - 1) * 2 ^ (53 - d)) as ->
      by (rewrite <- Z.pow_add_r by lia; f_equal; lia).
    assert (2 ^ 53 = 2 ^ d * 2 ^ (53 - d)) as ->
      by (rewrite <- Z.pow_add_r by lia; f_equal; lia).
    split; [apply Z.mul_le_mono_nonneg_r | apply Z.mul_lt_mono_pos_r]; lia. }
  rewrite binary_round_aux_exact.
  - exists mz, (d - 53). split; [reflexivity |]. split; [exact Hdz |]. split; [lia |].
    rewrite Hm. replace (- (d - 53)) with (53 - d) by lia. reflexivity.
  - unfold canonical_mantissa. rewrite Hdz, fexp_eq. apply Z.eqb_eq. lia.
  - lia.
Qed.

Lemma float_of_nat_zero : Prim2SF (float_of_nat 0) = S754_zero false.
Proof. reflexivity. Qed.

Lemma float_of_nat_canonical (m : positive) (e : Z) :
  Zpos (digits2_pos m) = 53 -> emin <= e -> canonical_mantissa prec emax m e = true.
Proof.
  intros Hd He. unfold canonical_mantissa. rewrite Hd, fexp_eq. apply Z.eqb_eq. lia.
Qed.

Lemma Z_div_eucl_eq (a b : Z) : Z.div_eucl a b = (a / b, a mod b).
Proof. unfold Z.div, Z.modulo. now destruct (Z.div_eucl a b). Qed.

(** The integer division [SFdiv] makes for two normal doubles: the dividend
    is shifted by [s] places, 53 unless the quotient is subnormal. *)
Lemma SFdiv_core_normal (mx my : positive) (ex ey : Z) :
  Zpos (digits2_pos mx) = 53 -> Zpos (digits2_pos my) = 53 ->
  emin < ex - ey ->
  let e' := fexp prec emax (ex - ey) in
  let s := ex - ey - e' in
  SFdiv_core_binary prec emax (Zpos mx) ex (Zpos my) ey =
    (Zpos mx * 2 ^ s / Zpos my, e', new_location (Zpos my) (Zpos mx * 2 ^ s mod Zpos my)) /\
  0 < s <= 53 /\ emin <= e' /\ 0 < Zpos mx * 2 ^ s / Zpos my.
Proof.
  intros Hdx Hdy HD e' s.
  assert (0 < s <= 53 /\ emin <= e') as [Hs He'] by (subst s e'; rewrite fexp_eq; lia).
  split; [| split; [exact Hs | split; [exact He' |]]].
  - unfold SFdiv_core_binary. cbn [Zdigits2]. rewrite Hdx, Hdy.
    replace (53 + ex - (53 + ey)) with (ex - ey) by lia.
    rewrite Z.min_l by (rewrite fexp_eq; lia).
    fold e'. fold s. destruct s as [| p | p] eqn:Hp; try lia.
    rewrite Z.shiftl_mul_pow2 by lia. now rewrite Z_div_eucl_eq.
  - pose proof (digits2_bounds mx) as Hmx. pose proof (digits2_bounds my) as Hmy.
    rewrite Hdx in Hmx. rewrite Hdy in Hmy.
    apply Z.div_str_pos. split; [lia |].
    assert (2 ^ 1 <= 2 ^ s) by (apply Z.pow_le_mono_r; lia).
    change (2 ^ 1) with 2 in *. change (2 ^ (53 - 1)) with 4503599627370496 in *.
    change (2 ^ 53) with 9007199254740992 in *. nia.
Qed.

(** The quotient of two normal doubles [x <= y] of the same sign bit is at
    most [b / 2^53] when the exact quotient is below it. *)
Lemma SFdiv_normal_cap (sx sy : bool) (mx my : positive) (ex ey : Z) (b : Z) :
  Zpos (digits2_pos mx) = 53 -> Zpos (digits2_pos my) = 53 ->
  emin < ex - ey <= 0 ->
  0 < b <= 2 ^ 53 ->
  Zpos mx * 2 ^ 53 < b * Zpos my * 2 ^ (ey - ex) ->
  exists m e,
    SFdiv prec emax (S754_finite sx mx ex) (S754_finite sy my ey) =
    S754_finite (xorb sx sy) m e /\
    emin <= e /\ Zpos m * 2 ^ (e - emin) <= b * 2 ^ 1021.
Proof.
  intros Hdx Hdy HD Hb Hlt.
  destruct (SFdiv_core_normal mx my ex ey Hdx Hdy ltac:(lia)) as (Hcore & Hs & He' & Hq).
  unfold SFdiv. rewrite Hcore. clear Hcore.
  set (e' := fexp prec emax (ex - ey)) in *.
  set (s := ex - ey - e') in *.
  set (q := Zpos mx * 2 ^ s / Zpos my) in *.
  assert (e' <= -53) as He53 by (subst e'; rewrite fexp_eq; lia).
  set (B := b * 2 ^ (- 53 - e')).
  assert (0 < 2 ^ (- 53 - e')) as Hp1 by (apply Z.pow_pos_nonneg; lia).
  assert (0 < 2 ^ (53 - s)) as Hp2 by (apply Z.pow_pos_nonneg; lia).
  assert (q < B) as HqB.
  { subst q. apply Z.div_lt_upper_bound; [lia |].
    apply (Z.mul_lt_mono_pos_r (2 ^ (53 - s))); [exact Hp2 |].
    rewrite <- Z.mul_assoc, <- Z.pow_add_r by lia.
    replace (s + (53 - s)) with 53 by lia.
    subst B. rewrite <- !Z.mul_assoc, <- Z.pow_add_r by lia.
    replace (- 53 - e' + (53 - s)) with (ey - ex) by lia.
    rewrite (Z.mul_comm (Zpos my)), <- Z.mul_assoc in *. lia. }
  assert (B <= 2 ^ (- e')) as HBe.
  { subst B. replace (- e') with (53 + (- 53 - e')) by lia.
    rewrite Z.pow_add_r by lia. apply Z.mul_le_mono_nonneg_r; lia. }
  destruct (binary_round_aux_cap (xorb sx sy) q e'
              (new_location (Zpos my) (Zpos mx * 2 ^ s mod Zpos my)) B Hq He' HqB)
    as (m & e & Hr & Hee & Hval).
  - destruct q as [| pq | pq] eqn:Hpq; try lia. cbn [Zdigits2].
    assert (Zpos (digits2_pos pq) <= - e') as Hdq by (apply digits2_le; lia).
    set (n := Z.max 0 (fexp prec emax (Zpos (digits2_pos pq) + e') - e')).
    assert (0 <= n <= - 53 - e') as Hn by (subst n; rewrite fexp_eq; lia).
    exists (b * 2 ^ (- 53 - e' - n)). subst B.
    rewrite <- Z.mul_assoc, <- Z.pow_add_r by lia. do 2 f_equal. lia.
  - apply Z.le_trans with (2 ^ (- e')); [exact HBe |]. apply Z.pow_le_mono_r; lia.
  - exists m, e. split; [exact Hr |]. split; [lia |].
    replace (e - emin) with ((e - e') + (e' - emin)) by lia.
    rewrite Z.pow_add_r, Z.mul_assoc by lia.
    replace 1021 with ((- 53 - e') + (e' - emin)) by lia.
    rewrite Z.pow_add_r, Z.mul_assoc by lia.
    apply Z.mul_le_mono_nonneg_r; [apply Z.pow_nonneg; lia | exact Hval].
Qed.

(** A double divided by itself is 1. *)
Lemma SFdiv_same (m : positive) (e : Z) :
  Zpos (digits2_pos m) = 53 ->
  SFdiv prec emax (S754_finite false m e) (S754_finite false m e) =
  S754_finite false 4503599627370496 (-52).
Proof.
  intros Hd.
  destruct (SFdiv_core_normal m m e e Hd Hd ltac:(lia)) as (Hcore & _).
  unfold SFdiv. rewrite Hcore. rewrite Z.sub_diag.
  change (fexp prec emax 0) with (-53). change (0 - -53) with 53.
  rewrite (Z.mul_comm (Zpos m)), Z.div_mul, Z.mod_mul by lia.
  assert (new_location (Zpos m) 0 = loc_Exact) as ->.
  { unfold new_location, new_location_even, new_location_odd.
    now destruct (Z.even (Zpos m)). }
  reflexivity.
Qed.

Lemma Prim2SF_valid_canonical (x : float) (s : bool) (m : positive) (e : Z) :
  Prim2SF x = S754_finite s m e -> canonical_mantissa prec emax m e = true /\ e <= 971.
Proof.
  intros Hx. pose proof (Prim2SF_valid x) as Hv. rewrite Hx in Hv.
  unfold valid_binary, SpecFloat.valid_binary, bounded in Hv.
  apply andb_prop in Hv as [Hc He]. split; [exact Hc |].
  apply Z.leb_le in He. exact He.
Qed.

(** The quotient of two positive normal doubles, the dividend the smaller,
    lies between 0 and 1. *)
Lemma float_div_le_one (x y : float) (mx my : positive) (ex ey : Z) :
  Prim2SF x = S754_finite false mx ex ->
  Prim2SF y = S754_finite false my ey ->
  Zpos (digits2_pos mx) = 53 -> Zpos (digits2_pos my) = 53 ->
  emin < ex - ey <= 0 ->
  Zpos mx <= Zpos my * 2 ^ (ey - ex) ->
  PrimFloat.leb 0 (x / y) = true /\ PrimFloat.leb (x / y) 1 = true.
Proof.
  intros Hx Hy Hdx Hdy HD Hle.
  rewrite !leb_spec, div_spec, Hx, Hy. unfold SF64div.
  change (Prim2SF 0) with (S754_zero false).
  change (Prim2SF 1) with (S754_finite false 4503599627370496 (-52)).
  destruct (Z.eq_dec (Zpos mx) (Zpos my * 2 ^ (ey - ex))) as [Heq | Hne].
  - assert (ex = ey) as ->.
    { destruct (Z.eq_dec ex ey) as [-> | Hn]; [reflexivity | exfalso].
      pose proof (digits2_bounds mx) as Hmx. pose proof (digits2_bounds my) as Hmy.
      rewrite Hdx in Hmx. rewrite Hdy in Hmy.
      assert (2 ^ 1 <= 2 ^ (ey - ex)) by (apply Z.pow_le_mono_r; lia).
      change (2 ^ 1) with 2 in *. change (2 ^ (53 - 1)) with 4503599627370496 in *.
      change (2 ^ 53) with 9007199254740992 in *. nia. }
    rewrite Z.sub_diag, Z.mul_1_r in Heq. injection Heq as ->.
    rewrite SFdiv_same by exact Hdy. split; reflexivity.
  - destruct (SFdiv_normal_cap false false mx my ex ey (2 ^ 53) Hdx Hdy HD)
      as (m & e & Hr & He & Hval); [lia | |].
    { rewrite (Z.mul_comm (2 ^ 53)), <- Z.mul_assoc, (Z.mul_comm (2 ^ 53)), Z.mul_assoc.
      apply Z.mul_lt_mono_pos_r; lia. }
    pose proof (Prim2SF_valid_canonical (x / y) false m e) as Hc.
    rewrite div_spec, Hx, Hy in Hc. destruct (Hc Hr) as [Hcan _].
    cbn [xorb] in Hr. rewrite Hr. split; [reflexivity |].
    rewrite SFleb_not_ltb by discriminate.
    apply negb_true_iff. apply not_true_is_false. intros Hlt.
    apply (SFltb_value m 4503599627370496 e (-52) Hcan eq_refl) in Hlt.
    change (4503599627370496 * 2 ^ (-52 - emin)) with (2 ^ 53 * 2 ^ 1021) in Hlt. lia.
Qed.

(** When the exact quotient is at most [1 - 2^-53], so is the rounded one:
    it is below 1. *)
Lemma float_div_lt_one (x y : float) (mx my : positive) (ex ey : Z) :
  Prim2SF x = S754_finite false mx ex ->
  Prim2SF y = S754_finite false my ey ->
  Zpos (digits2_pos mx) = 53 -> Zpos (digits2_pos my) = 53 ->
  emin < ex - ey <= 0 ->
  Zpos mx * 2 ^ 53 < (2 ^ 53 - 1) * Zpos my * 2 ^ (ey - ex) ->
  PrimFloat.ltb (x / y) 1 = true.
Proof.
  intros Hx Hy Hdx Hdy HD Hlt.
  rewrite ltb_spec, div_spec, Hx, Hy. unfold SF64div.
  change (Prim2SF 1) with (S754_finite false 4503599627370496 (-52)).
  destruct (SFdiv_normal_cap false false mx my ex ey (2 ^ 53 - 1) Hdx Hdy HD)
    as (m & e & Hr & He & Hval); [lia | exact Hlt |].
  pose proof (Prim2SF_valid_canonical (x / y) false m e) as Hc.
  rewrite div_spec, Hx, Hy in Hc. destruct (Hc Hr) as [Hcan _].
  cbn [xorb] in Hr. rewrite Hr.
  apply (SFltb_value 4503599627370496 m (-52) e eq_refl Hcan).
  change (4503599627370496 * 2 ^ (-52 - emin)) with (2 ^ 53 * 2 ^ 1021).
  assert (0 < 2 ^ 1021) by (apply Z.pow_pos_nonneg; lia). lia.
Qed.

(** Of two array lengths the larger has the larger exponent. *)
Lemma of_nat_exponents (c n : nat) (mc mn : positive) (ec en : Z) :
  (c <= n)%nat ->
  Zpos (digits2_pos mc) = 53 -> Zpos (digits2_pos mn) = 53 ->
  ec <= 0 -> en <= 0 ->
  Zpos mc = Z.of_nat c * 2 ^ (- ec) -> Zpos mn = Z.of_nat n * 2 ^ (- en) ->
  ec <= en.
Proof.
  intros Hcn Hdc Hdn Hec Hen Hmc Hmn.
  destruct (Z_le_gt_dec ec en) as [Hle | Hgt]; [exact Hle | exfalso].
  pose proof (digits2_bounds mc) as Hbc. pose proof (digits2_bounds mn) as Hbn.
  rewrite Hdc in Hbc. rewrite Hdn in Hbn.
  assert (2 ^ (- en) = 2 ^ (- ec) * 2 ^ (ec - en)) as Hpow
    by (rewrite <- Z.pow_add_r by lia; f_equal; lia).
  assert (2 ^ 1 <= 2 ^ (ec - en)) by (apply Z.pow_le_mono_r; lia).
  assert (0 < 2 ^ (- ec)) by (apply Z.pow_pos_nonneg; lia).
  change (2 ^ 1) with 2 in *. change (2 ^ (53 - 1)) with 4503599627370496 in *.
  change (2 ^ 53) with 9007199254740992 in *.
  assert (Z.of_nat c * 2 ^ (- ec) <= Z.of_nat n * 2 ^ (- ec))
    by (apply Z.mul_le_mono_nonneg_r; lia).
  rewrite Hpow in Hmn. nia.
Qed.

(** The values of two array lengths, compared on the grid of the dividend. *)
Lemma of_nat_values (c n : nat) (mc mn : positive) (ec en : Z) :
  ec <= en -> en <= 0 ->
  Zpos mc = Z.of_nat c * 2 ^ (- ec) -> Zpos mn = Z.of_nat n * 2 ^ (- en) ->
  Zpos mc = Z.of_nat c * 2 ^ (- ec) /\
  Zpos mn * 2 ^ (en - ec) = Z.of_nat n * 2 ^ (- ec).
Proof.
  intros Hle Hen Hmc Hmn. split; [exact Hmc |].
  rewrite Hmn, <- Z.mul_assoc, <- Z.pow_add_r by lia. do 2 f_equal. lia.
Qed.

(** In binary64 a count divided by a length it does not exceed lies
    between 0 and 1. *)
Lemma float_of_nat_div_range (c n : nat) :
  (c <= n)%nat -> (0 < n)%nat -> Z.of_nat n < 2 ^ 53 ->
  PrimFloat.leb 0 (float_of_nat c / float_of_nat n) = true /\
  PrimFloat.leb (float_of_nat c / float_of_nat n) 1 = true.
Proof.
  intros Hcn Hn Hlt.
  destruct (float_of_nat_pos n Hn Hlt) as (mn & en & Hy & Hdn & Hen & Hmn).
  destruct c as [| c'].
  - rewrite !leb_spec, div_spec, Hy. split; reflexivity.
  - destruct (float_of_nat_pos (S c') ltac:(lia) ltac:(lia)) as (mc & ec & Hx & Hdc & Hec & Hmc).
    pose proof (of_nat_exponents _ _ _ _ _ _ Hcn Hdc Hdn (proj2 Hec) (proj2 Hen) Hmc Hmn) as Hee.
    destruct (of_nat_values _ _ _ _ _ _ Hee (proj2 Hen) Hmc Hmn) as [Hvc Hvn].
    apply (float_div_le_one _ _ mc mn ec en Hx Hy Hdc Hdn); [lia |].
    rewrite Hvc, Hvn. apply Z.mul_le_mono_nonneg_r; [apply Z.pow_nonneg |]; lia.
Qed.

(** In binary64 a count divided by a larger integer below [2^53] is below 1. *)
Lemma float_of_nat_div_lt_one (c n : nat) :
  (c < n)%nat -> Z.of_nat n < 2 ^ 53 ->
  PrimFloat.ltb (float_of_nat c / float_of_nat n) 1 = true.
Proof.
  intros Hcn Hlt.
  destruct (float_of_nat_pos n ltac:(lia) Hlt) as (mn & en & Hy & Hdn & Hen & Hmn).
  destruct c as [| c'].
  - rewrite ltb_spec, div_spec, Hy. reflexivity.
  - destruct (float_of_nat_pos (S c') ltac:(lia) ltac:(lia)) as (mc & ec & Hx & Hdc & Hec & Hmc).
    pose proof (of_nat_exponents (S c') n _ _ _ _ (Nat.lt_le_incl _ _ Hcn) Hdc Hdn
                  (proj2 Hec) (proj2 Hen) Hmc Hmn) as Hee.
    destruct (of_nat_values _ _ _ _ _ _ Hee (proj2 Hen) Hmc Hmn) as [Hvc Hvn].
    apply (float_div_lt_one _ _ mc mn ec en Hx Hy Hdc Hdn); [lia |].
    rewrite <- Z.mul_assoc, Hvn, Hvc.
    assert (0 < 2 ^ (- ec)) by (apply Z.pow_pos_nonneg; lia).
    change (2 ^ 53) with 9007199254740992 in *.
    rewrite (Z.mul_comm (Z.of_nat (S c'))), <- Z.mul_assoc, (Z.mul_comm (2 ^ (- ec))).
    rewrite !Z.mul_assoc. apply Z.mul_lt_mono_pos_r; [assumption |]. lia.
Qed.

Lemma finite_not_nan (x : float) (s : bool) (m : positive) (e : Z) :
  Prim2SF x = S754_finite s m e -> is_nan x = false.
Proof.
  intros Hx. unfold is_nan. rewrite FloatAxioms.eqb_spec, Hx.
  unfold SFeqb, SFcompare. rewrite Z.compare_refl, Pos.compare_cont_refl. now destruct s.
Qed.

Lemma float_of_nat_not_nan (c : nat) : Z.of_nat c < 2 ^ 53 -> is_nan (float_of_nat c) = false.
Proof.
  intros Hlt. destruct c as [| c']; [reflexivity |].
  destruct (float_of_nat_pos (S c') ltac:(lia) Hlt) as (m & e & Hx & _).
  exact (finite_not_nan _ _ _ _ Hx).
Qed.

(** The value of an array length on the grid of [emin]. *)
Lemma float_of_nat_value (c : nat) (m : positive) (e : Z) :
  -52 <= e <= 0 -> Zpos m = Z.of_nat c * 2 ^ (- e) ->
  Zpos m * 2 ^ (e - emin) = Z.of_nat c * 2 ^ 1074.
Proof.
  intros He Hm. rewrite Hm, <- Z.mul_assoc, <- Z.pow_add_r by lia. do 2 f_equal. lia.
Qed.

(** The conversion of array lengths to doubles keeps their order. *)
Lemma float_of_nat_ltb (c n : nat) :
  Z.of_nat c < 2 ^ 53 -> Z.of_nat n < 2 ^ 53 ->
  PrimFloat.ltb (float_of_nat n) (float_of_nat c) = (n <? c)%nat.
Proof.
  intros Hc Hn. rewrite ltb_spec.
  destruct n as [| n'], c as [| c']; try reflexivity.
  - destruct (float_of_nat_pos (S c') ltac:(lia) Hc) as (m & e & -> & _). reflexivity.
  - destruct (float_of_nat_pos (S n') ltac:(lia) Hn) as (m & e & -> & _). reflexivity.
  - destruct (float_of_nat_pos (S c') ltac:(lia) Hc) as (mc & ec & Hx & Hdc & Hec & Hmc).
    destruct (float_of_nat_pos (S n') ltac:(lia) Hn) as (mn & en & Hy & Hdn & Hen & Hmn).
    rewrite Hx, Hy.
    assert (emin <= ec) as Hec' by lia. assert (emin <= en) as Hen' by lia.
    pose proof (SFltb_value mc mn ec en (float_of_nat_canonical _ _ Hdc Hec')
                  (float_of_nat_canonical _ _ Hdn Hen')) as Hv.
    rewrite (float_of_nat_value _ _ _ Hec Hmc), (float_of_nat_value _ _ _ Hen Hmn) in Hv.
    assert (0 < 2 ^ 1074) as Hp by (apply Z.pow_pos_nonneg; lia).
    rewrite <- Z.mul_lt_mono_pos_r in Hv by exact Hp.
    destruct (Nat.ltb_spec (S n') (S c')) as [Hlt | Hge].
    + apply Hv. lia.
    + apply not_true_is_false. intros H. apply Hv in H. lia.
Qed.

(** [slice] reads an integer-valued [k] as that integer. *)
Lemma float_ToIntegerOrInfinity_of_nat (c : nat) :
  Z.of_nat c < 2 ^ 53 ->
  float_ToIntegerOrInfinity (float_of_nat c) = Finite (Z.of_nat c).
Proof.
  intros Hlt. unfold float_ToIntegerOrInfinity. destruct c as [| c']; [reflexivity |].
  destruct (float_of_nat_pos (S c') ltac:(lia) Hlt) as (m & e & -> & _ & He & Hm).
  cbn [cond_Zopp]. f_equal. rewrite Hm.
  replace e with (- (- e)) at 2 by lia.
  rewrite Z.shiftl_opp_r, Z.shiftr_div_pow2 by lia.
  apply Z.div_mul. apply Z.pow_nonzero; lia.
Qed.


(** An even mantissa one place below a canonical one is halved exactly. *)
Lemma binary_round_aux_even (s : bool) (m : positive) (e : Z) :
  canonical_mantissa prec emax m (e + 1) = true -> e + 1 <= 971 ->
  binary_round_aux prec emax s (Zpos m~0) e loc_Exact = S754_finite s m (e + 1).
Proof.
  intros Hc He. unfold canonical_mantissa in Hc. apply Z.eqb_eq in Hc.
  unfold binary_round_aux, shr_fexp. cbn [Zdigits2 digits2_pos].
  rewrite Pos2Z.inj_succ.
  replace (Z.succ (Zpos (digits2_pos m)) + e) with (Zpos (digits2_pos m) + (e + 1)) by lia.
  rewrite Hc. replace (e + 1 - e) with 1 by lia.
  cbn [shr shr_record_of_loc SpecFloat.iter_pos shr_1 shr_m loc_of_shr_record shr_r shr_s
       orb round_nearest_even Zdigits2 fst snd].
  rewrite Hc, Z.sub_diag. cbn [shr shr_m shr_record_of_loc].
  change (emax - prec) with 971. now rewrite (proj2 (Z.leb_le _ _) He).
Qed.

(** Half of an integer-valued double is exact. *)
Lemma float_of_nat_half (k : nat) :
  (0 < k)%nat -> Z.of_nat k < 2 ^ 53 ->
  exists m e,
    Prim2SF (float_of_nat k) = S754_finite false m e /\
    Zpos (digits2_pos m) = 53 /\ -52 <= e <= 0 /\ Zpos m = Z.of_nat k * 2 ^ (- e) /\
    Prim2SF (float_of_nat k / float_of_nat 2) = S754_finite false m (e - 1).
Proof.
  intros Hk Hlt.
  destruct (float_of_nat_pos k Hk Hlt) as (m & e & Hx & Hd & He & Hm).
  exists m, e. repeat (split; [assumption |]).
  rewrite div_spec, Hx.
  change (Prim2SF (float_of_nat 2)) with (S754_finite false 4503599627370496 (-51)).
  destruct (SFdiv_core_normal m 4503599627370496 e (-51) Hd eq_refl ltac:(lia)) as (Hcore & _).
  unfold SF64div, SFdiv. rewrite Hcore.
  assert (fexp prec emax (e - -51) = e - 2) as -> by (rewrite fexp_eq; lia).
  replace (e - -51 - (e - 2)) with 53 by lia.
  change (2 ^ 53) with (2 * 4503599627370496).
  rewrite Z.mul_assoc, Z.div_mul, Z.mod_mul by lia.
  assert (new_location 4503599627370496 0 = loc_Exact) as -> by reflexivity.
  rewrite (Z.mul_comm (Zpos m)). change (2 * Zpos m) with (Zpos m~0).
  cbn [xorb]. replace (e - 1) with (e - 2 + 1) by lia.
  apply binary_round_aux_even; [| lia].
  apply float_of_nat_canonical; [exact Hd | lia].
Qed.

(** The majority test of [predictKNN] on doubles, for an integer [k]: the
    count is above [k / 2] exactly when twice the count is above [k]. *)
Lemma float_of_nat_majority (c k : nat) :
  (0 < k)%nat -> Z.of_nat c < 2 ^ 53 -> Z.of_nat k < 2 ^ 53 ->
  PrimFloat.ltb (float_of_nat k / float_of_nat 2) (float_of_nat c) = (k <? 2 * c)%nat.
Proof.
  intros Hk Hc Hlt. rewrite ltb_spec.
  destruct (float_of_nat_half k Hk Hlt) as (mk & ek & _ & Hdk & Hek & Hmk & ->).
  destruct c as [| c'].
  - reflexivity.
  - destruct (float_of_nat_pos (S c') ltac:(lia) Hc) as (mc & ec & -> & Hdc & Hec & Hmc).
    assert (emin <= ec) as Hec' by lia. assert (emin <= ek - 1) as Hek' by lia.
    pose proof (SFltb_value mc mk ec (ek - 1) (float_of_nat_canonical _ _ Hdc Hec')
                  (float_of_nat_canonical _ _ Hdk Hek')) as Hv.
    rewrite (float_of_nat_value _ _ _ Hec Hmc) in Hv.
    assert (Zpos mk * 2 ^ (ek - 1 - emin) = Z.of_nat k * 2 ^ 1073) as Hvk.
    { rewrite Hmk, <- Z.mul_assoc, <- Z.pow_add_r by lia. do 2 f_equal. lia. }
    rewrite Hvk in Hv. change (2 ^ 1074) with (2 * 2 ^ 1073) in Hv.
    assert (0 < 2 ^ 1073) as Hp by (apply Z.pow_pos_nonneg; lia).
    rewrite Z.mul_assoc, <- Z.mul_lt_mono_pos_r in Hv by exact Hp.
    destruct (Nat.ltb_spec k (2 * S c')) as [Hl | Hg].
    + apply Hv. lia.
    + apply not_true_is_false. intros H. apply Hv in H. lia.
Qed.



(** The exponent of a rounded number is not below the canonical exponent of
    the number rounded. *)
Lemma binary_round_aux_exponent (s : bool) (q e : Z) (l : location) (m' : positive) (e' : Z) :
  0 < q -> emin <= e ->
  binary_round_aux prec emax s q e l = S754_finite s m' e' ->
  fexp prec emax (Zdigits2 q + e) <= e'.
Proof.
  intros Hq He. unfold binary_round_aux.
  destruct (shr_fexp_shift q e l Hq) as [Hs1 _].
  destruct (shr_fexp_pos q e l Hq He) as [Hp1 He1].
  destruct (shr_fexp prec emax q e l) as [mrs1 e1]. cbn [fst snd] in *.
  pose proof (round_nearest_even_pos (shr_m mrs1) (loc_of_shr_record mrs1) Hp1) as Hm2.
  destruct (shr_fexp_shift _ e1 loc_Exact Hm2) as [Hs2 _].
  destruct (shr_fexp prec emax _ e1 loc_Exact) as [mrs2 e2]. cbn [fst snd] in *.
  destruct (shr_m mrs2) as [| m3 | m3]; try discriminate;
    destruct (e2 <=? emax - prec); try discriminate;
    intros H; injection H as _ <-; lia.
Qed.

Lemma binary_round_exponent (s : bool) (m : positive) (e : Z) (m' : positive) (e' : Z) :
  emin <= e ->
  binary_round prec emax s m e = S754_finite s m' e' ->
  fexp prec emax (Zpos (digits2_pos m) + e) <= e'.
Proof.
  intros He. unfold binary_round.
  remember (fexp prec emax (Zpos (digits2_pos m) + e)) as F eqn:HF.
  destruct (shl_align m e F) as [mz ez] eqn:Hal.
  intros Hr.
  assert (Zpos (digits2_pos mz) + ez = Zpos (digits2_pos m) + e /\ emin <= ez) as [Hd Hez].
  { unfold shl_align in Hal. rewrite fexp_eq in HF.
    destruct (F - e) as [| d | d] eqn:Hd; injection Hal as <- <-; try (split; lia).
    rewrite digits2_iter_xO. rewrite <- Pos2Z.opp_pos in Hd. split; lia. }
  apply binary_round_aux_exponent in Hr; [| lia | exact Hez].
  cbn [Zdigits2] in Hr. rewrite Hd in Hr. now rewrite HF.
Qed.

(** One plus a number that is not negative is a normal double that is at
    least 1, or infinite. *)
Lemma float_one_plus (x : float) :
  is_nan x = false -> PrimFloat.ltb x 0 = false ->
  Prim2SF (1 + x) = S754_infinity false \/
  exists m e, Prim2SF (1 + x) = S754_finite false m e /\
              Zpos (digits2_pos m) = 53 /\ -52 <= e <= 971.
Proof.
  intros Hnan Hneg. apply not_nan_spec in Hnan. rewrite ltb_spec in Hneg.
  change (Prim2SF 0) with (S754_zero false) in Hneg.
  assert (forall m e, Prim2SF (1 + x) = S754_finite false m e -> -52 <= e ->
                      Zpos (digits2_pos m) = 53 /\ -52 <= e <= 971) as Hnormal.
  { intros m e Hr He. destruct (Prim2SF_valid_canonical _ _ _ _ Hr) as [Hc He'].
    destruct (canonical_bounds m e Hc) as (_ & _ & Hd). split; [apply Hd |]; lia. }
  pose proof (add_spec 1 x) as Hadd.
  change (Prim2SF 1) with (S754_finite false 4503599627370496 (-52)) in Hadd.
  pose proof (fun s m e => Prim2SF_valid_canonical x s m e) as Hvalid.
  destruct (Prim2SF x) as [sx | sx | | sx mx ex]; [| | congruence |].
  - right. exists 4503599627370496%positive, (-52). split; [exact Hadd |].
    split; [reflexivity | lia].
  - destruct sx; [discriminate |]. left. exact Hadd.
  - destruct sx; [discriminate |].
    destruct (Hvalid false mx ex eq_refl) as [Hc _].
    destruct (canonical_bounds mx ex Hc) as (Hex & _).
    unfold SF64add, SFadd in Hadd. cbn [cond_Zopp] in Hadd.
    set (ez := Z.min (-52) ex) in *.
    destruct (shl_align_spec 4503599627370496 (-52) ez ltac:(lia)) as [Ha1 _].
    destruct (shl_align_spec mx ex ez ltac:(lia)) as [Ha2 _].
    set (M := (fst (shl_align 4503599627370496 (-52) ez) + fst (shl_align mx ex ez))%positive)
      in *.
    change (Zpos (fst (shl_align 4503599627370496 (-52) ez)) +
            Zpos (fst (shl_align mx ex ez))) with (Zpos M) in Hadd.
    unfold binary_normalize in Hadd.
    assert (2 ^ (- ez) <= Zpos M) as HM.
    { subst M. rewrite Pos2Z.inj_add, Ha1.
      change 4503599627370496 with (2 ^ 52). rewrite <- Z.pow_add_r by lia.
      replace (52 + (-52 - ez)) with (- ez) by lia. lia. }
    assert (- ez < Zpos (digits2_pos M)) as HdM.
    { pose proof (digits2_bounds M) as [_ Hhi].
      apply (Z.pow_lt_mono_r_iff 2); lia. }
    destruct (binary_round_sign false M ez ltac:(lia)) as [(m & e & Hr) | Hr].
    + pose proof (binary_round_exponent false M ez m e ltac:(lia) Hr) as He.
      rewrite fexp_eq in He. rewrite Hr in Hadd.
      right. exists m, e. split; [exact Hadd |]. apply (Hnormal m e Hadd). lia.
    + left. now rewrite Hr in Hadd.
Qed.

(** The logistic function of the engine on doubles: with [v] the value of
    the exponential, not NaN and not negative, [1 / (1 + v)] lies between 0
    and 1. *)
Lemma float_sigmoid_range (v : float) :
  is_nan v = false -> PrimFloat.ltb v 0 = false ->
  PrimFloat.leb 0 (1 / (1 + v)) = true /\ PrimFloat.leb (1 / (1 + v)) 1 = true.
Proof.
  intros Hnan Hneg.
  destruct (float_one_plus v Hnan Hneg) as [Hinf | (m & e & Hy & Hd & He)].
  - rewrite !leb_spec, div_spec, Hinf. split; reflexivity.
  - apply (float_div_le_one 1 (1 + v) 4503599627370496 m (-52) e eq_refl Hy eq_refl Hd);
      [lia |].
    pose proof (digits2_bounds m) as Hm. rewrite Hd in Hm.
    assert (1 <= 2 ^ (e - -52)) by (apply (Z.pow_le_mono_r 2 0); lia).
    change (2 ^ (53 - 1)) with 4503599627370496 in Hm. nia.
Qed.

Lemma SFleb_ltb (x y : spec_float) : SFleb x y = true -> SFltb y x = false.
Proof.
  intros H.
  assert (x <> S754_nan) as Hx by (intros ->; discriminate).
  assert (y <> S754_nan) as Hy by (intros ->; destruct x as [[] | [] | | [] ? ?]; discriminate).
  rewrite (SFleb_not_ltb x y Hx Hy) in H. now apply negb_true_iff in H.
Qed.

Lemma float_leb_ltb (x y : float) : PrimFloat.leb x y = true -> PrimFloat.ltb y x = false.
Proof. rewrite leb_spec, ltb_spec. apply SFleb_ltb. Qed.

(** A double above a positive array length is infinite or normal, and its
    value is above the length. *)
Lemma float_above_of_nat (n : nat) (k : float) :
  (0 < n)%nat -> Z.of_nat n < 2 ^ 53 ->
  PrimFloat.ltb (float_of_nat n) k = true ->
  Prim2SF k = S754_infinity false \/
  exists m e, Prim2SF k = S754_finite false m e /\
              Zpos (digits2_pos m) = 53 /\ emin < e <= 971 /\
              Z.of_nat n * 2 ^ 1074 < Zpos m * 2 ^ (e - emin).
Proof.
  intros Hn Hlt Hk. rewrite ltb_spec in Hk.
  destruct (float_of_nat_pos n Hn Hlt) as (mn & en & Hx & Hdn & Hen & Hmn).
  rewrite Hx in Hk.
  pose proof (fun s m e => Prim2SF_valid_canonical k s m e) as Hvalid.
  destruct (Prim2SF k) as [s | s | | s m e]; try discriminate.
  - destruct s; [discriminate | now left].
  - destruct s; [discriminate |]. right.
    destruct (Hvalid false m e eq_refl) as [Hc He].
    assert (emin <= en) as Hen' by lia.
    apply (SFltb_value m mn e en Hc (float_of_nat_canonical _ _ Hdn Hen')) in Hk.
    rewrite (float_of_nat_value _ _ _ Hen Hmn) in Hk.
    destruct (canonical_bounds m e Hc) as (Hemin & Hd & Hnormal).
    assert (emin < e) as Hgt.
    { destruct (Z.eq_dec e emin) as [-> | Hne]; [exfalso | lia].
      rewrite Z.sub_diag, Z.mul_1_r in Hk.
      pose proof (digits2_bounds m) as [_ Hm].
      assert (2 ^ Zpos (digits2_pos m) <= 2 ^ 53) by (apply Z.pow_le_mono_r; lia).
      assert (2 ^ 53 <= 2 ^ 1074) by (apply Z.pow_le_mono_r; lia).
      assert (0 < 2 ^ 1074) by (apply Z.pow_pos_nonneg; lia). nia. }
    exists m, e. split; [reflexivity |]. split; [now apply Hnormal |]. split; [lia | exact Hk].
Qed.

(** [slice] reads a double above an array length as an end index that is
    not before the end of the array. *)
Lemma float_above_reaches (n : nat) (k : float) :
  Z.of_nat n < 2 ^ 53 ->
  PrimFloat.ltb (float_of_nat n) k = true ->
  reaches (float_ToIntegerOrInfinity k) n.
Proof.
  intros Hlt Hk. unfold float_ToIntegerOrInfinity.
  destruct n as [| n'].
  - rewrite ltb_spec in Hk. change (Prim2SF (float_of_nat 0)) with (S754_zero false) in Hk.
    destruct (Prim2SF k) as [s | s | | s m e]; try discriminate.
    + destruct s; [discriminate | exact I].
    + destruct s; [discriminate |]. cbn [cond_Zopp reaches]. simpl Z.of_nat.
      apply Z.shiftl_nonneg. lia.
  - destruct (float_above_of_nat (S n') k ltac:(lia) Hlt Hk)
      as [-> | (m & e & -> & Hd & He & Hv)]; [exact I |].
    cbn [cond_Zopp reaches].
    destruct (Z_le_gt_dec 0 e) as [Hpos | Hneg].
    + rewrite Z.shiftl_mul_pow2 by lia.
      replace (e - emin) with (e + 1074) in Hv by lia.
      rewrite Z.pow_add_r, Z.mul_assoc in Hv by lia.
      apply Z.mul_lt_mono_pos_r in Hv; [lia | apply Z.pow_pos_nonneg; lia].
    + replace e with (- (- e)) by lia.
      rewrite Z.shiftl_opp_r, Z.shiftr_div_pow2 by lia.
      apply Z.div_le_lower_bound; [apply Z.pow_pos_nonneg; lia |].
      assert (2 ^ 1074 = 2 ^ (- e) * 2 ^ (e - emin)) as Hpow
        by (rewrite <- Z.pow_add_r by lia; f_equal; lia).
      rewrite Hpow, Z.mul_assoc in Hv.
      apply Z.mul_lt_mono_pos_r in Hv; [lia | apply Z.pow_pos_nonneg; lia].
Qed.

(** A count divided by a double above it is below 1. *)
Lemma float_of_nat_div_above (c : nat) (k : float) :
  Z.of_nat c < 2 ^ 53 - 1 ->
  PrimFloat.ltb (float_of_nat c) k = true ->
  PrimFloat.ltb (float_of_nat c / k) 1 = true.
Proof.
  intros Hlt Hk. destruct c as [| c'].
  - rewrite ltb_spec in Hk. rewrite ltb_spec, div_spec.
    change (Prim2SF (float_of_nat 0)) with (S754_zero false) in *.
    destruct (Prim2SF k) as [s | s | | s m e]; try discriminate;
      destruct s; try discriminate; reflexivity.
  - assert (Z.of_nat (S c') < 2 ^ 53) as Hlt' by lia.
    destruct (float_of_nat_pos (S c') ltac:(lia) Hlt') as (mc & ec & Hx & Hdc & Hec & Hmc).
    destruct (float_above_of_nat (S c') k ltac:(lia) Hlt' Hk)
      as [Hinf | (mk & ek & Hy & Hdk & Hek & Hv)].
    + rewrite ltb_spec, div_spec, Hx, Hinf. reflexivity.
    + rewrite <- (float_of_nat_value _ _ _ Hec Hmc) in Hv.
      pose proof (digits2_bounds mc) as Hbc. pose proof (digits2_bounds mk) as Hbk.
      rewrite Hdc in Hbc. rewrite Hdk in Hbk.
      change (2 ^ (53 - 1)) with 4503599627370496 in *.
      change (2 ^ 53) with 9007199254740992 in *.
      assert (ec <= ek) as Hee.
      { destruct (Z_le_gt_dec ec ek) as [Hle | Hgt]; [exact Hle | exfalso].
        replace (ec - emin) with ((ec - ek) + (ek - emin)) in Hv by lia.
        rewrite Z.pow_add_r, Z.mul_assoc in Hv by lia.
        apply Z.mul_lt_mono_pos_r in Hv; [| apply Z.pow_pos_nonneg; lia].
        assert (2 ^ 1 <= 2 ^ (ec - ek)) by (apply Z.pow_le_mono_r; lia).
        change (2 ^ 1) with 2 in *. nia. }
      replace (ek - emin) with ((ek - ec) + (ec - emin)) in Hv by lia.
      rewrite Z.pow_add_r, Z.mul_assoc in Hv by lia.
      apply Z.mul_lt_mono_pos_r in Hv; [| apply Z.pow_pos_nonneg; lia].
      apply (float_div_lt_one _ _ mc mk ec ek Hx Hy Hdc Hdk); [lia |].
      change (2 ^ 53) with 9007199254740992.
      assert (Zpos mc <= 9007199254740990) as Hmc'.
      { destruct (Z.eq_dec ec 0) as [-> | Hne].
        - simpl in Hmc. lia.
        - assert (2 ^ (- ec) = 2 * 2 ^ (- ec - 1)) as Hpow.
          { rewrite <- Z.pow_succ_r by lia. f_equal. lia. }
          rewrite Hpow in Hmc. lia. }
      destruct (Z.eq_dec ek ec) as [-> | Hne].
      * rewrite Z.sub_diag, Z.mul_1_r in *. lia.
      * assert (2 ^ 1 <= 2 ^ (ek - ec)) by (apply Z.pow_le_mono_r; lia).
        change (2 ^ 1) with 2 in *. nia.
Qed.

End Binary64Range.

(** ** NaN in the arithmetic of doubles *)

Section NanFacts.

Local Open Scope float_scope.

Lemma is_nan_eq (x : float) : is_nan x = true -> x = nan.
Proof.
  unfold is_nan. rewrite FloatAxioms.eqb_spec. intros H.
  rewrite <- (SF2Prim_Prim2SF x).
  destruct (Prim2SF x) as [s | s | | s m e]; try reflexivity; exfalso.
  - now destruct s.
  - now destruct s.
  - unfold SFeqb, SFcompare in H.
    rewrite Z.compare_refl, Pos.compare_refl in H. now destruct s.
Qed.

Lemma add_nan_r (x : float) : x + nan = nan.
Proof.
  rewrite <- (SF2Prim_Prim2SF (x + nan)), add_spec.
  change (Prim2SF nan) with S754_nan. now destruct (Prim2SF x) as [[] | [] | | [] ? ?].
Qed.

Lemma add_nan_l (x : float) : nan + x = nan.
Proof.
  rewrite <- (SF2Prim_Prim2SF (nan + x)), add_spec.
  change (Prim2SF nan) with S754_nan. reflexivity.
Qed.

Lemma sub_nan_r (x : float) : x - nan = nan.
Proof.
  rewrite <- (SF2Prim_Prim2SF (x - nan)), sub_spec.
  change (Prim2SF nan) with S754_nan. now destruct (Prim2SF x) as [[] | [] | | [] ? ?].
Qed.

Lemma sub_nan_l (x : float) : nan - x = nan.
Proof.
  rewrite <- (SF2Prim_Prim2SF (nan - x)), sub_spec.
  change (Prim2SF nan) with S754_nan. reflexivity.
Qed.

Lemma mul_nan_r (x : float) : x * nan = nan.
Proof.
  rewrite <- (SF2Prim_Prim2SF (x * nan)), mul_spec.
  change (Prim2SF nan) with S754_nan. now destruct (Prim2SF x) as [[] | [] | | [] ? ?].
Qed.

Lemma div_nan_l (x : float) : nan / x = nan.
Proof.
  rewrite <- (SF2Prim_Prim2SF (nan / x)), div_spec.
  change (Prim2SF nan) with S754_nan. reflexivity.
Qed.

(** A sum with a NaN term is NaN. *)
Lemma fold_add_nan (xs : list float) : fold_left PrimFloat.add xs nan = nan.
Proof. induction xs as [| x xs IH]; simpl; [reflexivity | now rewrite add_nan_l]. Qed.

Lemma spec_sum_nan (xs : list float) (a : float) :
  In nan xs -> fold_left PrimFloat.add xs a = nan.
Proof.
  revert a. induction xs as [| x xs IH]; intros a Hin; [contradiction |].
  simpl. destruct Hin as [-> | Hin].
  - rewrite add_nan_r. apply fold_add_nan.
  - now apply IH.
Qed.

Lemma spec_mean_nan (xs : list float) : In nan xs -> spec_mean xs = nan.
Proof.
  intros Hin. unfold spec_mean, spec_sum. cbn [add div binary64].
  rewrite (spec_sum_nan xs _ Hin). apply div_nan_l.
Qed.

(** A value standardized with a NaN mean is NaN. *)
Lemma standardized_nan (x s : float) : (x - nan) / s = nan.
Proof. now rewrite sub_nan_r, div_nan_l. Qed.

(** An array whose distances are all NaN is left in its order by the
    sort: no entry goes after another. *)
Lemma Array_sort_nan (l : list (Neighbor float)) :
  Forall (fun n => dist n = nan) l -> Array_sort by_dist l = l.
Proof.
  induction 1 as [| x rest Hx Hrest IH]; [reflexivity |].
  simpl. rewrite IH. destruct Hrest as [| y rest Hy _]; [reflexivity |].
  simpl. unfold goes_after, by_dist. rewrite Hx, Hy. reflexivity.
Qed.

Lemma div_nan_r (x : float) : x / nan = nan.
Proof.
  rewrite <- (SF2Prim_Prim2SF (x / nan)), div_spec.
  change (Prim2SF nan) with S754_nan. now destruct (Prim2SF x) as [[] | [] | | [] ? ?].
Qed.

End NanFacts.

(** ** Arrays *)

Lemma Array_slice0_nat {A : Type} (a : list A) (k : nat) :
  Array_slice0 a (Finite (Z.of_nat k)) = firstn k a.
Proof.
  unfold Array_slice0.
  destruct (Z.ltb_spec (Z.of_nat k) 0) as [Hneg | _]; [lia |].
  destruct (Nat.le_gt_cases k (length a)) as [Hle | Hgt].
  - f_equal. lia.
  - replace (Z.to_nat _) with (length a) by lia.
    rewrite firstn_all. symmetry. apply firstn_all2. lia.
Qed.

Lemma Array_slice0_all {A : Type} (a : list A) (r : IntegerOrInfinity) :
  reaches r (length a) -> Array_slice0 a r = a.
Proof.
  destruct r as [z | |]; simpl; intros Hz; [| reflexivity | contradiction].
  destruct (Z.ltb_spec z 0) as [Hneg | _]; [lia |].
  replace (Z.to_nat _) with (length a) by lia. apply firstn_all.
Qed.

Lemma Array_slice0_map {A B : Type} (f : A -> B) (a : list A) (r : IntegerOrInfinity) :
  Array_slice0 (map f a) r = map f (Array_slice0 a r).
Proof.
  destruct r as [z | |]; simpl; try reflexivity.
  rewrite length_map. destruct (z <? 0)%Z; apply firstn_map.
Qed.

Section SortFacts.

Context {num : Type} {N : Number num} {A : Type}.
Variable comparefn : A -> A -> num.

Local Abbreviation after := (goes_after comparefn).
Local Abbreviation not_after := (fun a b => goes_after comparefn a b = false).

Lemma sort_insert_perm (x : A) (l : list A) :
  Permutation (sort_insert comparefn x l) (x :: l).
Proof.
  induction l as [| y rest IH]; simpl.
  - reflexivity.
  - destruct (after x y).
    + rewrite IH. apply perm_swap.
    + reflexivity.
Qed.

Lemma Array_sort_perm (l : list A) : Permutation (Array_sort comparefn l) l.
Proof.
  induction l as [| x rest IH]; simpl.
  - reflexivity.
  - rewrite sort_insert_perm. now constructor.
Qed.

Lemma Array_sort_length (l : list A) : length (Array_sort comparefn l) = length l.
Proof. apply Permutation_length, Array_sort_perm. Qed.

Lemma Array_sort_In (l : list A) (x : A) : In x (Array_sort comparefn l) <-> In x l.
Proof.
  split; apply Permutation_in; [| symmetry]; apply Array_sort_perm.
Qed.

Lemma consistentb_sound (l : list A) :
  consistentb comparefn l = true -> consistent_on comparefn l.
Proof.
  unfold consistentb, consistent_on. rewrite forallb_forall. intros H. split.
  - intros a b Ha Hb Hab. specialize (H a Ha). rewrite forallb_forall in H.
    specialize (H b Hb). apply andb_prop in H as [H _].
    rewrite Hab in H. simpl in H. now apply negb_true_iff.
  - intros a b c Ha Hb Hc Hab Hbc. specialize (H a Ha). rewrite forallb_forall in H.
    specialize (H b Hb). apply andb_prop in H as [_ H]. rewrite forallb_forall in H.
    specialize (H c Hc). rewrite Hab, Hbc in H. simpl in H. now apply negb_true_iff.
Qed.

Lemma consistent_on_incl (l l' : list A) :
  incl l' l -> consistent_on comparefn l -> consistent_on comparefn l'.
Proof.
  intros Hincl [Hasym Htrans]. split.
  - intros a b Ha Hb. apply Hasym; now apply Hincl.
  - intros a b c Ha Hb Hc. apply Htrans; now apply Hincl.
Qed.

Lemma sort_insert_sorted (x : A) (l : list A) :
  consistent_on comparefn (x :: l) ->
  StronglySorted not_after l ->
  StronglySorted not_after (sort_insert comparefn x l).
Proof.
  intros Hcons Hsorted. induction Hsorted as [| y rest Hrest IH Hy]; simpl.
  - repeat constructor.
  - destruct (after x y) eqn:Hxy.
    + constructor.
      * apply IH. eapply consistent_on_incl; [| exact Hcons].
        intros z [-> | Hz]; simpl; auto.
      * apply Forall_forall. intros z Hz.
        apply (Permutation_in _ (sort_insert_perm x rest)) in Hz.
        destruct Hz as [<- | Hz].
        -- apply (proj1 Hcons); simpl; auto.
        -- rewrite Forall_forall in Hy. now apply Hy.
    + constructor.
      * now constructor.
      * constructor; [exact Hxy |].
        apply Forall_forall. intros z Hz. rewrite Forall_forall in Hy.
        apply (proj2 Hcons x y z); simpl; auto.
Qed.

(** On elements the comparator orders consistently, the result is ascending. *)
Lemma Array_sort_sorted (l : list A) :
  consistent_on comparefn l -> StronglySorted not_after (Array_sort comparefn l).
Proof.
  induction l as [| x rest IH]; intros Hcons; simpl.
  - constructor.
  - apply sort_insert_sorted.
    + eapply consistent_on_incl; [| exact Hcons].
      intros z [-> | Hz]; simpl; auto. right. exact (proj1 (Array_sort_In _ _) Hz).
    + apply IH. eapply consistent_on_incl; [| exact Hcons].
      intros z Hz. now right.
Qed.

Lemma sort_insert_stable (x z : A) (l : list A) :
  consistent_on comparefn (z :: x :: l) ->
  filter (same_rank comparefn z) (sort_insert comparefn x l) =
  filter (same_rank comparefn z) (x :: l).
Proof.
  intros Hcons. induction l as [| y rest IH]; [reflexivity |].
  simpl sort_insert. destruct (after x y) eqn:Hxy; [| reflexivity].
  simpl. rewrite IH.
  2: { eapply consistent_on_incl; [| exact Hcons].
       intros u [-> | [-> | Hu]]; simpl; auto. }
  simpl. destruct (same_rank comparefn z y) eqn:Hzy, (same_rank comparefn z x) eqn:Hzx;
    try reflexivity.
  exfalso. unfold same_rank in Hzy, Hzx.
  apply andb_prop in Hzy as [Hzy _], Hzx as [_ Hxz].
  apply negb_true_iff in Hzy, Hxz.
  assert (after x y = false) as Hno
    by (apply (proj2 Hcons x z y); simpl; auto).
  congruence.
Qed.

(** Stability: elements the comparator ranks alike keep their input order. *)
Lemma Array_sort_stable (l : list A) (z : A) :
  consistent_on comparefn (z :: l) ->
  filter (same_rank comparefn z) (Array_sort comparefn l) =
  filter (same_rank comparefn z) l.
Proof.
  induction l as [| x rest IH]; intros Hcons; [reflexivity |].
  simpl Array_sort. rewrite sort_insert_stable.
  - simpl. rewrite IH; [reflexivity |].
    eapply consistent_on_incl; [| exact Hcons].
    intros u [-> | Hu]; simpl; auto.
  - eapply consistent_on_incl; [| exact Hcons].
    intros u [-> | [-> | Hu]]; simpl; auto.
    right. right. exact (proj1 (Array_sort_In _ _) Hu).
Qed.

End SortFacts.

Lemma sort_insert_map {num : Type} {N : Number num} {A B : Type}
    (cmpA : A -> A -> num) (cmpB : B -> B -> num) (f : A -> B) (x : A) (s : list A) :
  (forall a, In a s -> goes_after cmpB (f x) (f a) = goes_after cmpA x a) ->
  map f (sort_insert cmpA x s) = sort_insert cmpB (f x) (map f s).
Proof.
  induction s as [| y s IHs]; intros Hx; [reflexivity |].
  simpl. rewrite (Hx y) by (simpl; auto).
  destruct (goes_after cmpA x y); simpl; [| reflexivity].
  f_equal. apply IHs. intros a Ha. apply Hx. now right.
Qed.

(** Sorting commutes with a map under which the comparators agree: the
    sort only looks at which element goes after which. *)
Lemma Array_sort_map {num : Type} {N : Number num} {A B : Type}
    (cmpA : A -> A -> num) (cmpB : B -> B -> num) (f : A -> B) (l : list A) :
  (forall a a', In a l -> In a' l ->
     goes_after cmpB (f a) (f a') = goes_after cmpA a a') ->
  map f (Array_sort cmpA l) = Array_sort cmpB (map f l).
Proof.
  induction l as [| x rest IH]; intros Hagree; [reflexivity |].
  simpl. rewrite <- IH.
  2: { intros a a' Ha Ha'. apply Hagree; simpl; auto. }
  apply sort_insert_map.
  intros a Ha. apply Hagree; simpl; auto.
  right. exact (proj1 (Array_sort_In _ _ _) Ha).
Qed.

(** ** Construction *)

Section EngineFacts.

Context {num : Type} {N : Number num}.

Local Open Scope num_scope.

Lemma calculateScaling_returns (this : MLEngine num) :
  calculateScaling this = Normal (set_scaleParams this (scaling_of (trainingData this))).
Proof. reflexivity. Qed.

Lemma trainLogisticRegression_keeps (this : MLEngine num) :
  trainingData (trainLogisticRegression this) = trainingData this /\
  scaleParams (trainLogisticRegression this) = scaleParams this.
Proof.
  unfold trainLogisticRegression.
  destruct (for_loop _ _ _) as [[w1 w2] b]. split; reflexivity.
Qed.

Lemma MLEngine_new_returns (data : list (CustomerData num)) :
  MLEngine_new data =
  Normal (trainLogisticRegression
            (set_scaleParams (set_trainingData MLEngine_fields data) (scaling_of data))).
Proof. reflexivity. Qed.

Lemma MLEngine_new_fields (data : list (CustomerData num)) (e : MLEngine num) :
  MLEngine_new data = Normal e ->
  trainingData e = data /\ scaleParams e = scaling_of data.
Proof.
  rewrite MLEngine_new_returns. intros [= <-].
  apply trainLogisticRegression_keeps.
Qed.

Lemma scale_eq (e e' : MLEngine num) (age salary : num) :
  scaleParams e = scaleParams e' -> scale e age salary = scale e' age salary.
Proof. unfold scale. now intros ->. Qed.

(** ** Training *)

Lemma for_loop_iter {S : Type} (n : nat) (body : S -> S) (s : S) :
  for_loop n body s = Nat.iter n body s.
Proof.
  revert s. induction n as [| n IH]; intros s; [reflexivity |].
  simpl. rewrite IH. clear IH. induction n as [| n IH]; [reflexivity |].
  simpl. now rewrite IH.
Qed.

Lemma iter_ext {S : Type} (f g : S -> S) (n : nat) (s : S) :
  (forall x, f x = g x) -> Nat.iter n f s = Nat.iter n g s.
Proof.
  intros Hfg. induction n as [| n IH]; [reflexivity |].
  simpl. now rewrite IH, Hfg.
Qed.

Lemma accumulate_sums (this : MLEngine num) (w : num * num * num)
    (data : list (CustomerData num)) (g1 g2 g3 : num) :
  fold_left (accumulate w)
            (map (fun d => (d, scale this (Age d) (EstimatedSalary d))) data)
            (g1, g2, g3) =
  (fold_left add (map (fun r => spec_diff w r * fst (fst r)) (map (spec_standardized this) data)) g1,
   fold_left add (map (fun r => spec_diff w r * snd (fst r)) (map (spec_standardized this) data)) g2,
   fold_left add (map (fun r => spec_diff w r) (map (spec_standardized this) data)) g3).
Proof.
  revert g1 g2 g3. induction data as [| d rest IH]; intros g1 g2 g3; [reflexivity |].
  simpl. destruct w as [[w1 w2] b]. simpl. rewrite IH. reflexivity.
Qed.

Lemma descend_gd_step (this : MLEngine num) (eta m : num)
    (data : list (CustomerData num)) (w : num * num * num) :
  descend eta m (map (fun d => (d, scale this (Age d) (EstimatedSalary d))) data) w =
  gd_step eta m (map (spec_standardized this) data) w.
Proof.
  unfold descend, gd_step, spec_gradient_sums, spec_sum.
  rewrite accumulate_sums. reflexivity.
Qed.

Lemma trainLogisticRegression_weights (this : MLEngine num) :
  let e := trainLogisticRegression this in
  (fst (lrWeights e), snd (lrWeights e), lrBias e) =
  Nat.iter 1000 (gd_step lit_0_1 (of_nat (length (trainingData this)))
                         (map (spec_standardized this) (trainingData this)))
           (of_nat 0, of_nat 0, of_nat 0).
Proof.
  unfold trainLogisticRegression.
  rewrite for_loop_iter.
  rewrite (iter_ext _ _ _ _ (descend_gd_step this _ _ _)).
  destruct (Nat.iter _ _ _) as [[w1 w2] b]. reflexivity.
Qed.

Lemma spec_standardized_eq (e e' : MLEngine num) :
  scaleParams e = scaleParams e' -> spec_standardized e = spec_standardized e'.
Proof. unfold spec_standardized, scale. now intros ->. Qed.

Lemma MLEngine_new_weights (data : list (CustomerData num)) (e : MLEngine num) :
  MLEngine_new data = Normal e ->
  (fst (lrWeights e), snd (lrWeights e), lrBias e) =
  Nat.iter 1000
    (gd_step lit_0_1 (of_nat (length data)) (map (spec_standardized e) data))
    (of_nat 0, of_nat 0, of_nat 0).
Proof.
  intros Hnew. rewrite MLEngine_new_returns in Hnew. injection Hnew as <-.
  rewrite trainLogisticRegression_weights. simpl trainingData.
  rewrite (spec_standardized_eq (trainLogisticRegression _) _
             (proj2 (trainLogisticRegression_keeps _))).
  reflexivity.
Qed.

(** ** Accuracy *)

Lemma count_fold {A : Type} (P : A -> bool) (l : list A) (n : nat) :
  fold_left (fun correct d => if P d then S correct else correct) l n =
  (n + length (filter P l))%nat.
Proof.
  revert n. induction l as [| d rest IH]; intros n; simpl; [lia |].
  rewrite IH. destruct (P d); simpl; lia.
Qed.

Lemma getAccuracy_fraction (this : MLEngine num) (algorithm : Algorithm) :
  getAccuracy this algorithm =
  of_nat (length (filter (is_correct this algorithm) (trainingData this)))
  / of_nat (length (trainingData this)).
Proof. unfold getAccuracy. now rewrite count_fold. Qed.

End EngineFacts.

(** ** Nearest neighbours *)

Lemma filter_length_perm {A : Type} (P : A -> bool) (l l' : list A) :
  Permutation l l' -> length (filter P l) = length (filter P l').
Proof.
  induction 1 as [| x l l' _ IH | x y l | l l' l'' _ IH1 _ IH2]; simpl.
  - reflexivity.
  - destruct (P x); simpl; now rewrite IH.
  - destruct (P x), (P y); reflexivity.
  - now rewrite IH1.
Qed.

Lemma filter_length_le {A : Type} (P : A -> bool) (l : list A) :
  (length (filter P l) <= length l)%nat.
Proof.
  induction l as [| x rest IH]; simpl; [lia |].
  destruct (P x); simpl; lia.
Qed.

Lemma filter_all {A : Type} (P : A -> bool) (l : list A) :
  Forall (fun x => P x = true) l -> filter P l = l.
Proof.
  induction 1 as [| x rest Hx _ IH]; simpl; [reflexivity |].
  now rewrite Hx, IH.
Qed.

Lemma filter_none {A : Type} (P : A -> bool) (l : list A) :
  Forall (fun x => P x = false) l -> filter P l = [].
Proof.
  induction 1 as [| x rest Hx _ IH]; simpl; [reflexivity |].
  now rewrite Hx.
Qed.

Lemma StronglySorted_weaken {A : Type} (R R' : A -> A -> Prop) (l : list A) :
  (forall a b, In a l -> In b l -> R a b -> R' a b) ->
  StronglySorted R l -> StronglySorted R' l.
Proof.
  intros Himpl Hsorted. induction Hsorted as [| x rest _ IH Hx]; constructor.
  - apply IH. intros a b Ha Hb. apply Himpl; now right.
  - rewrite Forall_forall in *. intros y Hy.
    apply Himpl; simpl; auto.
Qed.

Section KnnFacts.

Context {num : Type} {N : Number num}.

Local Open Scope num_scope.

Lemma predictKNN_default (this : MLEngine num) (age salary : num) :
  predictKNN this age salary None = predictKNN this age salary (Some (of_nat 5)).
Proof. reflexivity. Qed.

Lemma neighbors_unfold (this : MLEngine num) (age salary k : num) :
  neighbors this age salary k =
  Array_slice0
    (Array_sort by_dist
       (distances this (fst (scale this age salary)) (snd (scale this age salary))))
    (ToIntegerOrInfinity k).
Proof. reflexivity. Qed.

Lemma predictKNN_unfold (this : MLEngine num) (age salary k : num) :
  predictKNN this age salary (Some k) =
  {| purchased :=
       of_nat (length (filter (fun n => nb_purchased n === of_nat 1)
                              (neighbors this age salary k))) >? k / of_nat 2;
     probability :=
       of_nat (length (filter (fun n => nb_purchased n === of_nat 1)
                              (neighbors this age salary k))) / k |}.
Proof. reflexivity. Qed.

Lemma distances_length (this : MLEngine num) (sAge sSalary : num) :
  length (distances this sAge sSalary) = length (trainingData this).
Proof. apply length_map. Qed.

Lemma distances_labels (this : MLEngine num) (sAge sSalary : num) :
  map nb_purchased (distances this sAge sSalary) = map Purchased (trainingData this).
Proof.
  unfold distances. rewrite map_map. apply map_ext. intros d.
  destruct (scale this (Age d) (EstimatedSalary d)). reflexivity.
Qed.

Lemma filter_map_length {A B : Type} (f : A -> B) (P : B -> bool) (l : list A) :
  length (filter P (map f l)) = length (filter (fun x => P (f x)) l).
Proof.
  induction l as [| x rest IH]; simpl; [reflexivity |].
  destruct (P (f x)); simpl; now rewrite IH.
Qed.

(** The number of label-1 entries of [distances] is the number of label-1
    training records. *)
Lemma distances_purchased_count (this : MLEngine num) (sAge sSalary : num) :
  length (filter (fun n => nb_purchased n === of_nat 1) (distances this sAge sSalary)) =
  length (filter (fun d => Purchased d === of_nat 1) (trainingData this)).
Proof.
  rewrite <- (filter_map_length nb_purchased (fun l => l === of_nat 1)).
  rewrite distances_labels. apply filter_map_length.
Qed.

(** With [k] at least the size of the training set every record votes. *)
Lemma neighbors_all (this : MLEngine num) (age salary k : num) :
  reaches (ToIntegerOrInfinity k) (length (trainingData this)) ->
  neighbors this age salary k =
  Array_sort by_dist
    (distances this (fst (scale this age salary)) (snd (scale this age salary))).
Proof.
  intros Hk. rewrite neighbors_unfold.
  apply Array_slice0_all. now rewrite Array_sort_length, distances_length.
Qed.

Lemma predictKNN_all (this : MLEngine num) (age salary k : num) :
  reaches (ToIntegerOrInfinity k) (length (trainingData this)) ->
  let purchasedCount :=
    of_nat (length (filter (fun d => Purchased d === of_nat 1) (trainingData this))) in
  predictKNN this age salary (Some k) =
  {| purchased := purchasedCount >? k / of_nat 2; probability := purchasedCount / k |}.
Proof.
  intros Hk. simpl. rewrite predictKNN_unfold.
  rewrite (neighbors_all _ _ _ _ Hk).
  rewrite (filter_length_perm _ _ _ (Array_sort_perm by_dist _)).
  now rewrite distances_purchased_count.
Qed.

End KnnFacts.

(** ** The formulas of the specification *)

Section SpecFormulaFacts.

Context {num : Type} {N : Number num}.

Local Open Scope num_scope.

(** [scale] is the standardization with the stored parameters. *)
Lemma scale_standardize (this : MLEngine num) (age salary : num) :
  scale this age salary = spec_standardize (scaleParams this) age salary.
Proof. reflexivity. Qed.

(** The array [distances] of [predictKNN] holds the Euclidean distances in
    standardized feature space. *)
Lemma distances_euclidean (this : MLEngine num) (age salary : num) :
  distances this (fst (scale this age salary)) (snd (scale this age salary)) =
  spec_distances (scaleParams this) (trainingData this) age salary.
Proof. reflexivity. Qed.

Lemma spec_standardized_records (e : MLEngine num) (data : list (CustomerData num)) :
  map (spec_standardized e) data = spec_records (scaleParams e) data.
Proof. reflexivity. Qed.

End SpecFormulaFacts.

(** ** Exact arithmetic *)

Section ExactFacts.

Local Open Scope R_scope.

Lemma by_dist_after (a b : Neighbor R) :
  goes_after by_dist a b = true <-> dist b < dist a.
Proof.
  unfold goes_after, by_dist. simpl. rewrite R_ltb_true. lra.
Qed.

Lemma by_dist_not_after (a b : Neighbor R) :
  goes_after by_dist a b = false <-> dist a <= dist b.
Proof.
  unfold goes_after, by_dist. simpl. rewrite R_ltb_false. lra.
Qed.

Lemma by_dist_same_rank (a b : Neighbor R) :
  same_rank by_dist a b = true <-> dist a = dist b.
Proof.
  unfold same_rank. rewrite andb_true_iff, !negb_true_iff, !by_dist_not_after. lra.
Qed.

(** Over the reals the comparator of [predictKNN] orders any neighbours
    consistently. *)
Lemma by_dist_consistent (l : list (Neighbor R)) : consistent_on by_dist l.
Proof.
  split.
  - intros a b _ _. rewrite by_dist_after, by_dist_not_after. lra.
  - intros a b c _ _ _. rewrite !by_dist_not_after. lra.
Qed.

Lemma spec_sum_acc (xs : list R) (a : R) : fold_left Rplus xs a = a + spec_sum xs.
Proof.
  unfold spec_sum. simpl. revert a.
  induction xs as [| x rest IH]; intros a; simpl; [lra |].
  rewrite IH, (IH (0 + x)). lra.
Qed.

Lemma spec_sum_cons (x : R) (xs : list R) : spec_sum (x :: xs) = x + spec_sum xs.
Proof.
  unfold spec_sum at 1. simpl. rewrite spec_sum_acc. lra.
Qed.

Lemma spec_sum_nil : spec_sum (@nil R) = 0.
Proof. reflexivity. Qed.

Lemma spec_sum_scal (c : R) (A : Type) (f : A -> R) (l : list A) :
  spec_sum (map (fun x => c * f x) l) = c * spec_sum (map f l).
Proof.
  induction l as [| x rest IH]; simpl map.
  - rewrite spec_sum_nil. lra.
  - rewrite !spec_sum_cons, IH. lra.
Qed.

Lemma spec_sum_const (c : R) (A : Type) (l : list A) :
  spec_sum (map (fun _ => c) l) = INR (length l) * c.
Proof.
  induction l as [| x rest IH]; simpl map.
  - rewrite spec_sum_nil. simpl. lra.
  - rewrite spec_sum_cons, IH. simpl length. rewrite S_INR. lra.
Qed.

Lemma spec_sum_nonneg (xs : list R) : Forall (fun x => 0 <= x) xs -> 0 <= spec_sum xs.
Proof.
  induction 1 as [| x rest Hx _ IH].
  - rewrite spec_sum_nil. lra.
  - rewrite spec_sum_cons. lra.
Qed.

(** A sum of non-negative terms is zero only if every term is. *)
Lemma spec_sum_zero (xs : list R) :
  Forall (fun x => 0 <= x) xs -> spec_sum xs = 0 -> Forall (fun x => x = 0) xs.
Proof.
  induction 1 as [| x rest Hx Hrest IH]; intros Hsum; constructor.
  - rewrite spec_sum_cons in Hsum. pose proof (spec_sum_nonneg _ Hrest). lra.
  - apply IH. rewrite spec_sum_cons in Hsum. pose proof (spec_sum_nonneg _ Hrest). lra.
Qed.

Lemma INR_length_pos {A : Type} (l : list A) : l <> [] -> 0 < INR (length l).
Proof.
  intros Hne. destruct l as [| x rest]; [congruence |].
  apply lt_0_INR. simpl. lia.
Qed.

(** The deviations from the mean sum to zero. *)
Lemma spec_sum_centered (xs : list R) (s : R) :
  xs <> [] -> spec_sum (map (fun x => (x - spec_mean xs) / s) xs) = 0.
Proof.
  intros Hne. pose proof (INR_length_pos xs Hne) as Hn.
  assert (forall mu l, spec_sum (map (fun x => (x - mu) / s) l)
                       = (spec_sum l - INR (length l) * mu) / s) as Hgen.
  { intros mu l. induction l as [| x rest IH]; simpl map.
    - rewrite !spec_sum_nil. simpl. unfold Rdiv. lra.
    - rewrite !spec_sum_cons, IH. simpl length. rewrite S_INR. unfold Rdiv. lra. }
  rewrite Hgen. unfold spec_mean. simpl.
  replace (spec_sum xs - INR (length xs) * (spec_sum xs / INR (length xs))) with 0.
  - unfold Rdiv. lra.
  - field. lra.
Qed.

Lemma div_le_iff (a b d : R) : 0 < d -> (a / d <= b <-> a <= b * d).
Proof.
  intros Hd. assert (a = a / d * d) as Ha by (field; lra).
  split; intros H; nra.
Qed.

Lemma div_lt_iff (a b d : R) : 0 < d -> (a / d < b <-> a < b * d).
Proof.
  intros Hd. assert (a = a / d * d) as Ha by (field; lra).
  split; intros H; nra.
Qed.

Lemma le_div_iff (a b d : R) : 0 < d -> (b <= a / d <-> b * d <= a).
Proof.
  intros Hd. assert (a = a / d * d) as Ha by (field; lra).
  split; intros H; nra.
Qed.

Lemma spec_sigmoid_range (z : R) : 0 < spec_sigmoid z < 1.
Proof.
  unfold spec_sigmoid. simpl. pose proof (exp_pos (- z)) as He.
  split.
  - apply Rdiv_lt_0_compat; lra.
  - apply div_lt_iff; lra.
Qed.

Lemma spec_sigmoid_half (z : R) : 1 / 2 <= spec_sigmoid z <-> 0 <= z.
Proof.
  unfold spec_sigmoid. simpl. pose proof (exp_pos (- z)) as He.
  assert (1 / 2 <= 1 / (1 + exp (- z)) <-> exp (- z) <= 1) as ->.
  { rewrite le_div_iff by lra. lra. }
  rewrite <- exp_0. split; intros H.
  - destruct (Rle_lt_dec 0 z) as [Hz | Hz]; [exact Hz |].
    assert (exp 0 < exp (- z)) by (apply exp_increasing; lra). lra.
  - destruct H as [Hz | <-].
    + left. apply exp_increasing. lra.
    + right. f_equal. lra.
Qed.

(** Dividing each sum by [m] and multiplying by [eta] is multiplying the sum
    by [eta / m]. *)
Lemma gd_step_spec (eta m : R) (X : list (R * R * R)) (w : R * R * R) :
  gd_step eta m X w = spec_gd_step eta m X w.
Proof.
  unfold gd_step, spec_gd_step.
  destruct (spec_gradient_sums X w) as [[g1 g2] g3], w as [[w1 w2] b].
  simpl. unfold Rdiv. f_equal; [f_equal |]; ring.
Qed.

Lemma fraction_range (c n : nat) :
  (c <= n)%nat -> (0 < n)%nat -> 0 <= INR c / INR n <= 1.
Proof.
  intros Hc Hn. apply le_INR in Hc. apply lt_0_INR in Hn.
  pose proof (pos_INR c). split.
  - apply le_div_iff; lra.
  - apply div_le_iff; lra.
Qed.

End ExactFacts.

(** * The claims *)

Import Data.

(** ** Construction (C1) *)

(** C1, as amended.  The constructor has no check on its argument and
    nothing in it can throw: for every sequence of records, the empty one
    included, it returns an engine that holds the sequence and the scaling
    parameters computed from it. *)
Theorem MLEngine_new_total :
  forall (num : Type) (N : Number num) (data : list (CustomerData num)),
  exists e : MLEngine num,
    MLEngine_new data = Normal e /\
    trainingData e = data /\
    scaleParams e = scaling_of data.
Proof.
  intros num N data. eexists. split; [apply MLEngine_new_returns |].
  apply trainLogisticRegression_keeps.
Qed.

(** C1 as stated fails on the empty sequence: the constructor returns, with
    NaN means, unit deviations and NaN weights. *)
Lemma MLEngine_new_empty_returns :
  MLEngine_new (@nil (CustomerData float)) =
  Normal {| trainingData := [];
            scaleParams := {| mean := (nan, nan); std := (1, 1)%float |};
            lrWeights := (nan, nan);
            lrBias := nan |}.
Proof. vm_compute. reflexivity. Qed.

(** ** Logistic regression (C3, C4) *)

(** C3, as amended.  The stored weights and bias are 1000 iterations, from
    [(0, 0, 0)] with rate 0.1, of the gradient step over the standardized
    training records in input order: every feature less the mean of the
    feature over the training set, divided by its population standard
    deviation (1 when the computed deviation is zero or NaN).  An iteration
    sums [diff * x1], [diff * x2] and [diff] over every record and subtracts
    each sum multiplied by [0.1 / m]; over the reals that is 0.1 times the
    sum divided by [m], the update of the specification. *)
Theorem trainLogisticRegression_is_gradient_descent :
  (forall (num : Type) (N : Number num) (data : list (CustomerData num)) (e : MLEngine num),
     MLEngine_new data = Normal e ->
     (fst (lrWeights e), snd (lrWeights e), lrBias e) =
     Nat.iter 1000
       (gd_step lit_0_1 (of_nat (length data)) (spec_records (scaling_of data) data))
       (of_nat 0, of_nat 0, of_nat 0)) /\
  (forall (data : list (CustomerData R)) (e : MLEngine R),
     MLEngine_new data = Normal e ->
     (fst (lrWeights e), snd (lrWeights e), lrBias e) =
     Nat.iter 1000
       (spec_gd_step (1 / 10)%R (INR (length data)) (spec_records (scaling_of data) data))
       (0, 0, 0)%R).
Proof.
  assert (forall (num : Type) (N : Number num) (data : list (CustomerData num))
                 (e : MLEngine num),
     MLEngine_new data = Normal e ->
     (fst (lrWeights e), snd (lrWeights e), lrBias e) =
     Nat.iter 1000
       (gd_step lit_0_1 (of_nat (length data)) (spec_records (scaling_of data) data))
       (of_nat 0, of_nat 0, of_nat 0)) as Hgen.
  { intros num N data e Hnew. rewrite (MLEngine_new_weights _ _ Hnew).
    rewrite spec_standardized_records.
    now rewrite (proj2 (MLEngine_new_fields _ _ Hnew)). }
  split; [exact Hgen |].
  intros data e Hnew. rewrite (Hgen _ _ _ _ Hnew).
  apply iter_ext. intros w. apply gd_step_spec.
Qed.

Lemma trainLogisticRegression_is_gradient_descent_witness :
  exists e : MLEngine float,
    MLEngine_new two_points = Normal e /\
    (fst (lrWeights e), snd (lrWeights e), lrBias e) =
    Nat.iter 1000
      (gd_step 0.1%float (float_of_nat (length two_points))
               (spec_records (scaling_of two_points) two_points))
      (0, 0, 0)%float.
Proof.
  eexists. split; [apply MLEngine_new_returns |].
  apply (proj1 trainLogisticRegression_is_gradient_descent float binary64 two_points).
  apply MLEngine_new_returns.
Defined.

(** C3 as stated fails in binary64: on the training set [tied] the first
    iteration of the source, which multiplies the sum by [0.1 / 3], and the
    iteration of the specification, which multiplies the sum divided by 3
    by 0.1, give different second weights.  (The first iteration takes the
    exponential of a zero only, which is 1.) *)
Lemma trainLogisticRegression_update_rounding :
  exists this : MLEngine float,
    calculateScaling (set_trainingData MLEngine_fields tied) = Normal this /\
    descend 0.1%float (float_of_nat 3)
            (map (fun d => (d, scale this (Age d) (EstimatedSalary d))) tied)
            (0, 0, 0)%float =
    (-0x1.3d6efd46d8e3p-5, 0x1.822cb17ff2eb7p-6, -0x1.1111111111111p-6)%float /\
    spec_gd_step 0.1%float (float_of_nat 3) (spec_records (scaling_of tied) tied)
                 (0, 0, 0)%float =
    (-0x1.3d6efd46d8e3p-5, 0x1.822cb17ff2eb8p-6, -0x1.1111111111111p-6)%float /\
    PrimFloat.eqb 0x1.822cb17ff2eb7p-6 0x1.822cb17ff2eb8p-6 = false.
Proof.
  eexists. split; [reflexivity |]. vm_compute. repeat split.
Qed.

(** C4, as amended.  For every engine and query, [predictLogisticRegression]
    standardizes the query with the stored parameters, each feature less
    the stored mean and divided by the stored deviation, forms
    [z = w1 x1 + w2 x2 + b] and returns [1 / (1 + exp (- z))] as the
    probability, with [purchased] the test [probability >= 0.5].  In
    binary64, whatever function the engine has for [Math.exp]: when the
    exponential of [- z] is NaN, as it is for a NaN [z], the probability is
    NaN and [purchased] is [false]; when it is a number that is not
    negative, the probability lies in [[0, 1]].  Over the reals it lies
    strictly between 0 and 1. *)
Theorem predictLogisticRegression_sigmoid :
  (forall (num : Type) (N : Number num) (this : MLEngine num) (age salary : num),
     let x := spec_standardize (scaleParams this) age salary in
     let z := (fst (lrWeights this) * fst x + snd (lrWeights this) * snd x + lrBias this)%num in
     predictLogisticRegression this age salary =
     {| purchased := (spec_sigmoid z >=? lit_0_5)%num; probability := spec_sigmoid z |}) /\
  (forall (Math_exp' : float -> float) (this : MLEngine float) (age salary : float),
     let x1 := ((age - fst (mean (scaleParams this))) / fst (std (scaleParams this)))%float in
     let x2 := ((salary - snd (mean (scaleParams this))) / snd (std (scaleParams this)))%float in
     let z := (fst (lrWeights this) * x1 + snd (lrWeights this) * x2 + lrBias this)%float in
     let v := Math_exp' (- z)%float in
     let result := @predictLogisticRegression float (binary64_with Math_exp') this age salary in
     result = {| purchased := PrimFloat.leb 0.5 (1 / (1 + v));
                 probability := (1 / (1 + v))%float |} /\
     (is_nan v = true -> result = {| purchased := false; probability := nan |}) /\
     (is_nan v = false -> PrimFloat.ltb v 0 = false ->
      PrimFloat.leb 0 (probability result) = true /\
      PrimFloat.leb (probability result) 1 = true)) /\
  (forall z : float, is_nan z = true -> is_nan (float_exp (- z)) = true) /\
  (forall (e : MLEngine R) (age salary : R),
     let p := probability (predictLogisticRegression e age salary) in
     (0 < p < 1)%R /\
     (purchased (predictLogisticRegression e age salary) = true <-> (1 / 2 <= p)%R)).
Proof.
  assert (forall (num : Type) (N : Number num) (this : MLEngine num) (age salary : num),
     let x := spec_standardize (scaleParams this) age salary in
     let z := (fst (lrWeights this) * fst x + snd (lrWeights this) * snd x + lrBias this)%num in
     predictLogisticRegression this age salary =
     {| purchased := (spec_sigmoid z >=? lit_0_5)%num; probability := spec_sigmoid z |}) as Hgen.
  { intros num N this age salary. unfold predictLogisticRegression.
    rewrite scale_standardize. reflexivity. }
  split; [exact Hgen |]. split; [| split].
  - intros Math_exp' this age salary x1 x2 z v result.
    assert (result = {| purchased := PrimFloat.leb 0.5 (1 / (1 + v));
                        probability := 1 / (1 + v) |}%float) as Hr
      by exact (Hgen float (binary64_with Math_exp') this age salary).
    split; [exact Hr |]. rewrite Hr. cbn [probability]. split.
    + intros Hnan. apply is_nan_eq in Hnan. rewrite Hnan.
      now rewrite add_nan_r, div_nan_r.
    + intros Hv Hneg. exact (float_sigmoid_range _ Hv Hneg).
  - intros z Hnan. apply is_nan_eq in Hnan. now rewrite Hnan.
  - intros e age salary. split.
    + apply spec_sigmoid_range.
    + simpl. apply R_leb_true.
Qed.

Lemma predictLogisticRegression_sigmoid_witness :
  exists e : MLEngine float,
    MLEngine_new two_points = Normal e /\
    PrimFloat.leb 0 (probability (predictLogisticRegression e 40 80000)%float) = true /\
    PrimFloat.leb (probability (predictLogisticRegression e 40 80000)%float) 1 = true.
Proof.
  eexists. split; [apply MLEngine_new_returns |].
  apply (proj2 (proj2 (proj1 (proj2 predictLogisticRegression_sigmoid)
                         float_exp _ 40%float 80000%float)));
    vm_compute; reflexivity.
Defined.

(** C4 as stated fails in binary64: two finite ages whose sum overflows give
    infinite scaling parameters and NaN weights, and the probability returned
    for a finite query is NaN, which is not at least 0. *)
Lemma predictLogisticRegression_nan :
  exists e : MLEngine float,
    MLEngine_new overflowing = Normal e /\
    probability (predictLogisticRegression e 1 1)%float = nan /\
    PrimFloat.leb 0 (probability (predictLogisticRegression e 1 1))%float = false /\
    purchased (predictLogisticRegression e 1 1)%float = false.
Proof.
  eexists. split; [apply MLEngine_new_returns |].
  vm_compute. repeat split.
Qed.

(** ** Accuracy (C5, C10) *)

(** C5.  [getAccuracy] is the number of training records whose prediction,
    queried with the record's own raw features, equals the record's label,
    divided by the number of training records.  For a non-empty training
    set the value lies in [[0, 1]]: in binary64, where the quotient of two
    array lengths is rounded, and over the reals. *)
Theorem getAccuracy_training_fraction :
  (forall (num : Type) (N : Number num) (this : MLEngine num) (algorithm : Algorithm),
     let prediction d :=
       match algorithm with
       | LR => predictLogisticRegression this (Age d) (EstimatedSalary d)
       | KNN => predictKNN this (Age d) (EstimatedSalary d) None
       end in
     let matching :=
       filter (fun d => ((if purchased (prediction d) then of_nat 1 else of_nat 0)
                         === Purchased d)%num)
              (trainingData this) in
     getAccuracy this algorithm =
       (of_nat (length matching) / of_nat (length (trainingData this)))%num /\
     (length matching <= length (trainingData this))%nat) /\
  (forall (this : MLEngine float) (algorithm : Algorithm),
     trainingData this <> [] ->
     (Z.of_nat (length (trainingData this)) < 2 ^ 53)%Z ->
     PrimFloat.leb 0 (getAccuracy this algorithm) = true /\
     PrimFloat.leb (getAccuracy this algorithm) 1 = true) /\
  (forall (e : MLEngine R) (algorithm : Algorithm),
     trainingData e <> [] ->
     (0 <= getAccuracy e algorithm <= 1)%R).
Proof.
  split; [| split].
  - intros num N this algorithm. simpl. split.
    + rewrite getAccuracy_fraction. do 3 f_equal.
      apply filter_ext. intros d. unfold is_correct, predicted.
      destruct algorithm; reflexivity.
    + apply filter_length_le.
  - intros this algorithm Hne Hlt. rewrite getAccuracy_fraction.
    apply float_of_nat_div_range; [apply filter_length_le | | exact Hlt].
    destruct (trainingData this); [congruence | simpl; lia].
  - intros e algorithm Hne.
    rewrite getAccuracy_fraction.
    apply fraction_range; [apply filter_length_le |].
    destruct (trainingData e); [congruence | simpl; lia].
Qed.

Lemma getAccuracy_training_fraction_witness :
  exists e : MLEngine float,
    MLEngine_new two_points = Normal e /\
    PrimFloat.leb 0 (getAccuracy e KNN) = true /\
    PrimFloat.leb (getAccuracy e KNN) 1 = true.
Proof.
  eexists. split; [apply MLEngine_new_returns |].
  apply (proj1 (proj2 getAccuracy_training_fraction)).
  - rewrite (proj1 (trainLogisticRegression_keeps
                      (set_scaleParams (set_trainingData MLEngine_fields two_points)
                                       (scaling_of two_points)))).
    discriminate.
  - rewrite (proj1 (trainLogisticRegression_keeps
                      (set_scaleParams (set_trainingData MLEngine_fields two_points)
                                       (scaling_of two_points)))).
    reflexivity.
Defined.

(** C10.  [getAccuracy] calls [predictKNN] without a third argument, so the
    vote is taken with [k = 5] on every training record; [getAccuracy] has no
    parameter through which another [k] could be passed. *)
Theorem getAccuracy_knn_uses_five :
  forall (num : Type) (N : Number num) (this : MLEngine num),
    getAccuracy this KNN =
    (of_nat (length (filter
       (fun d => (if purchased (predictKNN this (Age d) (EstimatedSalary d) (Some (of_nat 5)))
                  then of_nat 1 else of_nat 0) === Purchased d)
       (trainingData this)))
     / of_nat (length (trainingData this)))%num.
Proof.
  intros num N this. rewrite getAccuracy_fraction. reflexivity.
Qed.

(** ** Nearest neighbours (C2, C9) *)

Lemma R_trunc_above (k : R) (n : nat) : (INR n < k)%R -> (Z.of_nat n <= R_trunc k)%Z.
Proof.
  intros Hk. pose proof (pos_INR n) as Hn. unfold R_trunc.
  destruct (Rle_dec 0 k) as [_ | Hneg]; [| lra].
  destruct (base_Int_part k) as [_ Hfloor].
  rewrite INR_IZR_INZ in Hk.
  assert (IZR (Z.of_nat n) - 1 < IZR (Int_part k))%R as Hlt by lra.
  rewrite <- minus_IZR in Hlt. apply lt_IZR in Hlt. lia.
Qed.

(** C2, as amended.  The array [predictKNN] sorts holds, for every training
    record in input order, the Euclidean distance in standardized feature
    space between the query and the record.  With [k] a positive integer,
    [predictKNN] votes with the first [k] entries of the sorted array: a
    rearrangement of the array, ascending, entries of equal rank in input
    order.  This is what a sort is held to on elements the comparator orders
    consistently; on doubles that is the case whenever no distance is NaN,
    over the reals always, and in both the order is ascending distance with
    equal distances in input order.  The result is [purchasedCount > k / 2],
    strictly, and [purchasedCount / k]: on doubles and over the reals
    [purchased] holds exactly when twice the count exceeds [k], and the
    probability lies in [[0, 1]].  On the two-record scenario
    with [k = 2] the result is [false] and 1/2. *)
Theorem predictKNN_majority_vote :
  (forall (num : Type) (N : Number num) (L : NumberLaws num)
          (this : MLEngine num) (age salary k : num) (kn : nat),
     ToIntegerOrInfinity k = Finite (Z.of_nat kn) ->
     (0 < kn)%nat ->
     let ds := spec_distances (scaleParams this) (trainingData this) age salary in
     consistent_on by_dist ds ->
     exists sorted : list (Neighbor num),
       Permutation sorted ds /\
       StronglySorted (fun a b => goes_after by_dist a b = false) sorted /\
       (forall z, In z ds ->
          filter (same_rank by_dist z) sorted = filter (same_rank by_dist z) ds) /\
       neighbors this age salary k = firstn kn sorted /\
       let purchasedCount :=
         of_nat (length (filter (fun n => nb_purchased n === of_nat 1) (firstn kn sorted)))%num in
       predictKNN this age salary (Some k) =
         {| purchased := (purchasedCount >? k / of_nat 2)%num;
            probability := (purchasedCount / k)%num |} /\
       (purchasedCount = (k / of_nat 2)%num ->
        purchased (predictKNN this age salary (Some k)) = false)) /\
  (forall (e : MLEngine R) (age salary : R) (kn : nat),
     (0 < kn)%nat ->
     let ds := spec_distances (scaleParams e) (trainingData e) age salary in
     exists sorted : list (Neighbor R),
       Permutation sorted ds /\
       StronglySorted (fun a b => (dist a <= dist b)%R) sorted /\
       (forall z, In z ds ->
          filter (fun n => dist z === dist n)%num sorted =
          filter (fun n => dist z === dist n)%num ds) /\
       neighbors e age salary (INR kn) = firstn kn sorted /\
       let purchasedCount :=
         length (filter (fun n => nb_purchased n === 1%R)%num (firstn kn sorted)) in
       probability (predictKNN e age salary (Some (INR kn))) =
         (INR purchasedCount / INR kn)%R /\
       (0 <= INR purchasedCount / INR kn <= 1)%R /\
       (purchased (predictKNN e age salary (Some (INR kn))) = true <->
        (kn < 2 * purchasedCount)%nat)) /\
  (forall (this : MLEngine float) (age salary : float) (kn : nat),
     (0 < kn)%nat ->
     (Z.of_nat kn < 2 ^ 53)%Z ->
     let ds := spec_distances (scaleParams this) (trainingData this) age salary in
     Forall (fun n => is_nan (dist n) = false) ds ->
     exists sorted : list (Neighbor float),
       Permutation sorted ds /\
       StronglySorted (fun a b => PrimFloat.leb (dist a) (dist b) = true) sorted /\
       (forall z, In z ds ->
          filter (fun n => PrimFloat.eqb (dist z) (dist n)) sorted =
          filter (fun n => PrimFloat.eqb (dist z) (dist n)) ds) /\
       neighbors this age salary (float_of_nat kn) = firstn kn sorted /\
       let purchasedCount :=
         length (filter (fun n => PrimFloat.eqb (nb_purchased n) 1%float) (firstn kn sorted)) in
       predictKNN this age salary (Some (float_of_nat kn)) =
         {| purchased := (kn <? 2 * purchasedCount)%nat;
            probability := (float_of_nat purchasedCount / float_of_nat kn)%float |} /\
       PrimFloat.leb 0 (float_of_nat purchasedCount / float_of_nat kn)%float = true /\
       PrimFloat.leb (float_of_nat purchasedCount / float_of_nat kn)%float 1 = true) /\
  (exists e : MLEngine float,
     MLEngine_new two_points = Normal e /\
     predictKNN e 40%float 80000%float (Some 2%float) =
     {| purchased := false; probability := 0.5%float |}).
Proof.
  assert (forall (num : Type) (N : Number num)
          (this : MLEngine num) (age salary k : num) (kn : nat),
     ToIntegerOrInfinity k = Finite (Z.of_nat kn) ->
     let ds := spec_distances (scaleParams this) (trainingData this) age salary in
     consistent_on by_dist ds ->
       Permutation (Array_sort by_dist ds) ds /\
       StronglySorted (fun a b => goes_after by_dist a b = false) (Array_sort by_dist ds) /\
       (forall z, In z ds ->
          filter (same_rank by_dist z) (Array_sort by_dist ds) = filter (same_rank by_dist z) ds) /\
       neighbors this age salary k = firstn kn (Array_sort by_dist ds)) as Hsort.
  { intros num N this age salary k kn Hk ds Hcons. repeat split.
    - apply Array_sort_perm.
    - now apply Array_sort_sorted.
    - intros z Hz. apply Array_sort_stable.
      eapply consistent_on_incl; [| exact Hcons].
      intros u [<- | Hu]; assumption.
    - rewrite neighbors_unfold, Hk, distances_euclidean. apply Array_slice0_nat. }
  split; [| split; [| split]].
  - intros num N L this age salary k kn Hk _ ds Hcons. subst ds.
    destruct (Hsort _ _ this age salary k kn Hk Hcons) as (Hperm & Hsorted & Hstable & Hnb).
    eexists.
    split; [exact Hperm |]. split; [exact Hsorted |]. split; [exact Hstable |].
    split; [exact Hnb |]. cbv zeta. split.
    + rewrite predictKNN_unfold, Hnb. reflexivity.
    + rewrite predictKNN_unfold, Hnb. cbn [purchased]. intros Heq.
      rewrite Heq. apply ltb_irrefl.
  - intros e age salary kn Hkn ds. subst ds.
    assert (ToIntegerOrInfinity (INR kn) = Finite (Z.of_nat kn)) as Hk
      by (simpl; now rewrite R_trunc_INR).
    destruct (Hsort _ _ e age salary (INR kn) kn Hk (by_dist_consistent _))
      as (Hperm & Hsorted & Hstable & Hnb).
    eexists. split; [exact Hperm |].
    split; [| split; [| split; [| cbv zeta; split; [| split; [| split]]]]].
    + eapply StronglySorted_weaken; [| exact Hsorted].
      intros a b _ _. apply by_dist_not_after.
    + intros z Hz. rewrite <- (filter_ext (same_rank by_dist z)).
      * rewrite Hstable by assumption. apply filter_ext.
        intros n. apply eq_true_iff_eq. rewrite by_dist_same_rank.
        symmetry. apply R_strict_eq_true.
      * intros n. apply eq_true_iff_eq. rewrite by_dist_same_rank.
        symmetry. apply R_strict_eq_true.
    + exact Hnb.
    + rewrite predictKNN_unfold, Hnb. reflexivity.
    + apply fraction_range; [| exact Hkn].
      etransitivity; [apply filter_length_le |].
      rewrite length_firstn. apply Nat.le_min_l.
    + rewrite predictKNN_unfold, Hnb. cbn [purchased]. simpl ltb. rewrite R_ltb_true.
      intros H. apply INR_lt. rewrite mult_INR. simpl in *. lra.
    + rewrite predictKNN_unfold, Hnb. cbn [purchased]. simpl ltb. rewrite R_ltb_true.
      intros H. apply lt_INR in H. rewrite mult_INR in H. simpl in *. lra.
  - intros this age salary kn Hpos Hlt ds Hnan. subst ds.
    pose proof (float_ToIntegerOrInfinity_of_nat kn Hlt) as Hk.
    destruct (Hsort float binary64 this age salary (float_of_nat kn) kn Hk
                (by_dist_consistent_float _ Hnan))
      as (Hperm & Hsorted & Hstable & Hnb).
    rewrite Forall_forall in Hnan.
    assert (forall z n, In z (spec_distances (scaleParams this) (trainingData this) age salary) ->
                        is_nan (dist n) = false ->
                        same_rank by_dist z n = PrimFloat.eqb (dist z) (dist n)) as Hrank.
    { intros z n Hz Hn. unfold same_rank.
      rewrite !by_dist_after_float, float_eqb_not_ltb by auto. apply andb_comm. }
    eexists. split; [exact Hperm |].
    split; [| split; [| split; [exact Hnb |]]].
    + eapply StronglySorted_weaken; [| exact Hsorted].
      intros a b Ha Hb Hab. cbv beta in Hab. rewrite by_dist_after_float in Hab.
      rewrite float_leb_not_ltb, Hab; [reflexivity | |];
        apply Hnan; eapply Permutation_in; eassumption.
    + intros z Hz.
      rewrite <- (filter_ext_in (same_rank by_dist z)).
      * rewrite (Hstable z Hz). apply filter_ext_in. intros n Hn. now apply Hrank; auto.
      * intros n Hn. apply Hrank; [assumption |].
        apply Hnan. eapply Permutation_in; eassumption.
    + cbv zeta. set (c := length _).
      assert (c <= kn)%nat as Hc.
      { subst c. etransitivity; [apply filter_length_le |].
        rewrite length_firstn. apply Nat.le_min_l. }
      split; [| apply float_of_nat_div_range; assumption].
      rewrite predictKNN_unfold, Hnb. fold c. f_equal.
      apply float_of_nat_majority; [assumption | lia | assumption].
  - eexists. split; [apply MLEngine_new_returns |]. vm_compute. reflexivity.
Qed.

Lemma predictKNN_majority_vote_witness :
  exists e : MLEngine float,
    MLEngine_new two_points = Normal e /\
    Forall (fun n => is_nan (dist n) = false)
           (spec_distances (scaleParams e) (trainingData e) 40 80000)%float /\
    exists sorted : list (Neighbor float),
      Permutation sorted (spec_distances (scaleParams e) (trainingData e) 40 80000)%float /\
      neighbors e 40%float 80000%float (float_of_nat 2) = firstn 2 sorted.
Proof.
  exists (trainLogisticRegression
            (set_scaleParams (set_trainingData MLEngine_fields two_points)
                             (scaling_of two_points))).
  set (e := trainLogisticRegression _).
  split; [apply MLEngine_new_returns |].
  assert (Forall (fun n => is_nan (dist n) = false)
                 (spec_distances (scaleParams e) (trainingData e) 40 80000)%float) as Hnan.
  { subst e. rewrite (proj1 (trainLogisticRegression_keeps _)),
               (proj2 (trainLogisticRegression_keeps _)).
    repeat constructor. }
  split; [exact Hnan |].
  destruct (proj1 (proj2 (proj2 predictKNN_majority_vote)) e 40%float 80000%float 2%nat
              Nat.lt_0_2 eq_refl Hnan)
    as (sorted & Hperm & _ & _ & Hnb & _).
  exists sorted. split; assumption.
Defined.

(** C2 as stated fails in binary64: the finite training set [mixed] gives an
    infinite salary deviation, and the distance from the finite query
    [(31, 0)] to the first record is NaN.  The comparator puts the third
    entry not after the first and the first not after the second, and yet
    the third after the second: it does not order the three entries
    consistently, there is no ascending order of the distances, and the
    order the sort leaves is up to the implementation. *)
Lemma predictKNN_distance_nan :
  exists e : MLEngine float,
    MLEngine_new mixed = Normal e /\
    exists n0 n1 n2 : Neighbor float,
      spec_distances (scaleParams e) (trainingData e) 31%float 0%float = [n0; n1; n2] /\
      is_nan (dist n0) = true /\ is_nan (dist n1) = false /\ is_nan (dist n2) = false /\
      goes_after by_dist n2 n0 = false /\
      goes_after by_dist n0 n1 = false /\
      goes_after by_dist n2 n1 = true /\
      consistentb by_dist [n0; n1; n2] = false.
Proof.
  eexists. split; [apply MLEngine_new_returns |].
  do 3 eexists. split; [vm_compute; reflexivity |].
  vm_compute. repeat split.
Qed.

(** C9.  When [k], as [slice] reads it, is at least the number [n] of
    training records, every record votes, and the count of label-1 training
    records is still compared with [k / 2] and divided by [k].  For [k > n],
    in binary64 and over the reals, the probability is below 1, and
    [n <= k / 2] makes the answer [false] whatever the labels are; for an
    integer [k] in binary64 that is the case when [2 n <= k]. *)
Theorem predictKNN_k_beyond_training_set :
  (forall (num : Type) (N : Number num) (this : MLEngine num) (age salary k : num),
     reaches (ToIntegerOrInfinity k) (length (trainingData this)) ->
     Permutation (neighbors this age salary k)
       (spec_distances (scaleParams this) (trainingData this) age salary) /\
     length (neighbors this age salary k) = length (trainingData this) /\
     let purchasedCount :=
       of_nat (length (filter (fun d => Purchased d === of_nat 1)%num (trainingData this))) in
     predictKNN this age salary (Some k) =
     {| purchased := (purchasedCount >? k / of_nat 2)%num;
        probability := (purchasedCount / k)%num |}) /\
  (forall (this : MLEngine float) (age salary k : float),
     (Z.of_nat (length (trainingData this)) < 2 ^ 53 - 1)%Z ->
     PrimFloat.ltb (float_of_nat (length (trainingData this))) k = true ->
     reaches (ToIntegerOrInfinity k) (length (trainingData this)) /\
     PrimFloat.ltb (probability (predictKNN this age salary (Some k))) 1 = true /\
     (PrimFloat.leb (float_of_nat (length (trainingData this))) (k / 2)%float = true ->
      purchased (predictKNN this age salary (Some k)) = false)) /\
  (forall (this : MLEngine float) (age salary : float) (kn : nat),
     (length (trainingData this) < kn)%nat ->
     (Z.of_nat kn < 2 ^ 53)%Z ->
     reaches (ToIntegerOrInfinity (float_of_nat kn)) (length (trainingData this)) /\
     PrimFloat.ltb (probability (predictKNN this age salary (Some (float_of_nat kn)))) 1 = true /\
     ((2 * length (trainingData this) <= kn)%nat ->
      purchased (predictKNN this age salary (Some (float_of_nat kn))) = false)) /\
  (forall (e : MLEngine R) (age salary k : R),
     (INR (length (trainingData e)) < k)%R ->
     reaches (ToIntegerOrInfinity k) (length (trainingData e)) /\
     (probability (predictKNN e age salary (Some k)) < 1)%R /\
     ((INR (length (trainingData e)) <= k / 2)%R ->
      purchased (predictKNN e age salary (Some k)) = false)).
Proof.
  split; [| split; [| split]].
  - intros num N this age salary k Hk. split; [| split].
    + rewrite (neighbors_all _ _ _ _ Hk), distances_euclidean. apply Array_sort_perm.
    + rewrite (neighbors_all _ _ _ _ Hk).
      now rewrite Array_sort_length, distances_length.
    + now apply predictKNN_all.
  - intros this age salary k Hn Hk.
    assert (reaches (ToIntegerOrInfinity k) (length (trainingData this))) as Hreach
      by (apply float_above_reaches; [lia | exact Hk]).
    split; [exact Hreach |].
    rewrite (predictKNN_all this age salary _ Hreach). cbn [purchased probability].
    pose proof (filter_length_le (fun d => (Purchased d === of_nat 1)%num) (trainingData this))
      as Hc.
    set (c := length (filter _ _)) in *.
    assert (PrimFloat.ltb (float_of_nat (length (trainingData this))) (float_of_nat c) = false)
      as Hcn by (rewrite float_of_nat_ltb by lia; apply Nat.ltb_ge; exact Hc).
    assert (is_nan (float_of_nat c) = false) as Hcnan by (apply float_of_nat_not_nan; lia).
    assert (is_nan (float_of_nat (length (trainingData this))) = false) as Hnnan
      by (apply float_of_nat_not_nan; lia).
    split.
    + apply float_of_nat_div_above; [lia |].
      apply not_false_is_true. intros Hck.
      rewrite (float_ltb_false_trans k (float_of_nat c) _ Hcnan Hck Hcn) in Hk. discriminate.
    + intros Hhalf. apply float_leb_ltb in Hhalf.
      exact (float_ltb_false_trans _ _ _ Hnnan Hcn Hhalf).
  - intros this age salary kn Hn Hlt.
    assert (reaches (ToIntegerOrInfinity (float_of_nat kn)) (length (trainingData this)))
      as Hreach.
    { cbn [ToIntegerOrInfinity binary64].
      rewrite (float_ToIntegerOrInfinity_of_nat kn Hlt). simpl. lia. }
    split; [exact Hreach |].
    rewrite (predictKNN_all this age salary _ Hreach). cbn [purchased probability].
    pose proof (filter_length_le (fun d => (Purchased d === of_nat 1)%num) (trainingData this))
      as Hc.
    set (c := length (filter _ _)) in *.
    split.
    + apply float_of_nat_div_lt_one; [lia | exact Hlt].
    + intros Hhalf. cbn [ltb div of_nat binary64].
      rewrite float_of_nat_majority by lia.
      apply Nat.ltb_ge. lia.
  - intros e age salary k Hk.
    assert (reaches (ToIntegerOrInfinity k) (length (trainingData e))) as Hreach
      by (simpl; now apply R_trunc_above).
    split; [exact Hreach |].
    rewrite (predictKNN_all e age salary k Hreach).
    simpl.
    pose proof (le_INR _ _ (filter_length_le (fun d => R_strict_eq (Purchased d) 1)
                                             (trainingData e))) as Hc.
    pose proof (pos_INR (length (trainingData e))) as Hn.
    split.
    + apply div_lt_iff; lra.
    + intros Hhalf. apply R_ltb_false. lra.
Qed.

Lemma predictKNN_k_beyond_training_set_witness :
  exists e : MLEngine float,
    MLEngine_new three_buyers = Normal e /\
    PrimFloat.ltb (probability (predictKNN e 40 80000 (Some (float_of_nat 6)))%float) 1 = true /\
    purchased (predictKNN e 40 80000 (Some (float_of_nat 6)))%float = false.
Proof.
  eexists. split; [apply MLEngine_new_returns |].
  assert (trainingData
            (trainLogisticRegression
               (set_scaleParams (set_trainingData MLEngine_fields three_buyers)
                                (scaling_of three_buyers))) = three_buyers) as Hdata
    by apply trainLogisticRegression_keeps.
  destruct (proj1 (proj2 (proj2 predictKNN_k_beyond_training_set))
              (trainLogisticRegression
                 (set_scaleParams (set_trainingData MLEngine_fields three_buyers)
                                  (scaling_of three_buyers)))
              40%float 80000%float 6%nat)
    as (_ & Hp & Hfalse).
  - rewrite Hdata. simpl. lia.
  - reflexivity.
  - split; [exact Hp |]. apply Hfalse. rewrite Hdata. simpl. lia.
Defined.

(** ** Standardization (C6) *)

Lemma or_else_truthy {num : Type} {N : Number num} {L : NumberLaws num} (x : num) :
  ToBoolean (or_else x (of_nat 1)) = true.
Proof.
  unfold or_else. destruct (ToBoolean x) eqn:Hx; [exact Hx | apply ToBoolean_one].
Qed.

Lemma or_else_falsy {num : Type} {N : Number num} (x y : num) :
  ToBoolean x = false -> or_else x y = y.
Proof. unfold or_else. now intros ->. Qed.

Lemma spec_mean_constant (xs : list R) (c : R) :
  xs <> [] -> Forall (fun x => x = c) xs -> spec_mean xs = c.
Proof.
  intros Hne Hconst. pose proof (INR_length_pos xs Hne) as Hn.
  assert (spec_sum xs = INR (length xs) * c)%R as Hsum.
  { clear Hne Hn. induction Hconst as [| x rest -> _ IH].
    - rewrite spec_sum_nil. simpl. lra.
    - rewrite spec_sum_cons, IH. simpl length. rewrite S_INR. lra. }
  unfold spec_mean. rewrite Hsum. simpl. field. lra.
Qed.

(** Over the reals a constant list has population standard deviation 0. *)
Lemma spec_population_std_constant (xs : list R) (c : R) :
  xs <> [] -> Forall (fun x => x = c) xs -> spec_population_std xs = 0%R.
Proof.
  intros Hne Hconst.
  unfold spec_population_std. rewrite (spec_mean_constant xs c Hne Hconst).
  assert (spec_sum (map (fun x => Math_pow2 (x - c)%num) xs) = 0%R) as ->.
  { clear Hne. induction Hconst as [| x rest -> _ IH].
    - apply spec_sum_nil.
    - rewrite map_cons, spec_sum_cons, IH. simpl. lra. }
  simpl. unfold Rdiv. rewrite Rmult_0_l. apply sqrt_0.
Qed.

(** C6, as amended.  Construction never fails.  Whenever the standard
    deviation the engine computes for a feature is falsy (zero, or NaN), the
    engine stores 1 instead and [scale] returns, for that feature, the value
    minus the mean, over 1; the stored deviations are never zero.  Over the
    reals a feature that is constant across a non-empty training set has
    computed deviation 0, so it is centred and left unscaled. *)
Theorem zero_deviation_replaced_by_one :
  (forall (num : Type) (N : Number num) (L : NumberLaws num) (data : list (CustomerData num)),
     exists e : MLEngine num,
       MLEngine_new data = Normal e /\
       (ToBoolean (spec_population_std (map Age data)) = false ->
        fst (std (scaleParams e)) = of_nat 1 /\
        forall age salary,
          fst (scale e age salary) = ((age - spec_mean (map Age data)) / of_nat 1)%num) /\
       (ToBoolean (spec_population_std (map EstimatedSalary data)) = false ->
        snd (std (scaleParams e)) = of_nat 1 /\
        forall age salary,
          snd (scale e age salary) =
          ((salary - spec_mean (map EstimatedSalary data)) / of_nat 1)%num) /\
       ToBoolean (fst (std (scaleParams e))) = true /\
       ToBoolean (snd (std (scaleParams e))) = true) /\
  (forall (data : list (CustomerData R)) (e : MLEngine R) (c : R),
     data <> [] ->
     MLEngine_new data = Normal e ->
     ((forall d, In d data -> Age d = c) ->
      spec_population_std (map Age data) = 0%R /\
      fst (std (scaleParams e)) = 1%R /\
      forall age salary, fst (scale e age salary) = ((age - c) / 1)%R) /\
     ((forall d, In d data -> EstimatedSalary d = c) ->
      spec_population_std (map EstimatedSalary data) = 0%R /\
      snd (std (scaleParams e)) = 1%R /\
      forall age salary, snd (scale e age salary) = ((salary - c) / 1)%R)).
Proof.
  split.
  - intros num N L data.
    exists (trainLogisticRegression
              (set_scaleParams (set_trainingData MLEngine_fields data) (scaling_of data))).
    split; [apply MLEngine_new_returns |].
    pose proof (proj2 (trainLogisticRegression_keeps
                  (set_scaleParams (set_trainingData MLEngine_fields data) (scaling_of data))))
      as Hscale.
    cbn [set_scaleParams scaleParams] in Hscale.
    unfold scale. rewrite Hscale. simpl.
    split; [| split; [| split]].
    + intros Hzero. rewrite (or_else_falsy _ _ Hzero). split; reflexivity.
    + intros Hzero. rewrite (or_else_falsy _ _ Hzero). split; reflexivity.
    + apply or_else_truthy.
    + apply or_else_truthy.
  - intros data e c Hne Hnew.
    apply MLEngine_new_fields in Hnew as [_ Hscale].
    assert (forall (f : CustomerData R -> R),
              (forall d, In d data -> f d = c) ->
              spec_population_std (map f data) = 0%R /\ spec_mean (map f data) = c) as Hconst.
    { intros f Hf.
      assert (map f data <> []) as Hne' by (destruct data; [congruence | discriminate]).
      assert (Forall (fun x => x = c) (map f data)) as Hall.
      { apply Forall_forall. intros x Hx. apply in_map_iff in Hx as (d & <- & Hd).
        now apply Hf. }
      split; [now apply (spec_population_std_constant _ c) |].
      now apply spec_mean_constant. }
    unfold scale. rewrite Hscale. unfold scaling_of. cbn [std mean fst snd].
    split; intros Hf; destruct (Hconst _ Hf) as [Hstd Hmean];
      (split; [exact Hstd |]); rewrite Hstd, Hmean;
      rewrite (or_else_falsy (N := exact) 0%R (of_nat 1))
        by (apply R_ToBoolean_false; reflexivity);
      split; reflexivity.
Qed.

Lemma zero_deviation_replaced_by_one_witness :
  exists e : MLEngine float,
    MLEngine_new constant_age = Normal e /\
    ToBoolean (spec_population_std (map Age constant_age)) = false /\
    fst (std (scaleParams e)) = 1%float /\
    fst (scale e 30 20000)%float = ((30 - 25) / 1)%float.
Proof.
  destruct (proj1 zero_deviation_replaced_by_one float binary64 binary64_laws constant_age)
    as (e & Hnew & Hage & _).
  exists e. split; [exact Hnew |].
  assert (ToBoolean (spec_population_std (map Age constant_age)) = false) as Hzero
    by reflexivity.
  split; [exact Hzero |].
  destruct (Hage Hzero) as [Hstd Hscale].
  split; [exact Hstd |]. apply Hscale.
Defined.

(** C6 as stated fails in binary64 on a constant feature whose mean is not
    computed exactly: three ages 0.1 sum to 0.30000000000000004, the mean is
    0.10000000000000002, the computed deviation is about 1.4e-17 and not
    zero, nothing is substituted, and [scale] returns -1 where the centred
    value is about -1.4e-17. *)
Lemma constant_feature_not_centred :
  exists e : MLEngine float,
    MLEngine_new constant_tenth = Normal e /\
    map Age constant_tenth = [0.1; 0.1; 0.1]%float /\
    fst (std (scaleParams e)) = 1.3877787807814457e-17%float /\
    fst (scale e 0.1 1)%float = (-1)%float /\
    ((0.1 - fst (mean (scaleParams e))) / 1)%float = (-1.3877787807814457e-17)%float.
Proof.
  eexists. split; [apply MLEngine_new_returns |].
  vm_compute. repeat split.
Qed.

(** ** Training sets with a single class (C7) *)

Lemma Forall_firstn {A : Type} (P : A -> Prop) (n : nat) (l : list A) :
  Forall P l -> Forall P (firstn n l).
Proof.
  intros H. revert n. induction H as [| x rest Hx _ IH]; intros [| n]; simpl;
    constructor; auto.
Qed.

Section SingleClass.

Context {num : Type} {N : Number num} {L : NumberLaws num}.

Local Open Scope num_scope.

(** With every label 1 the vote with the default [k] counts the first five
    records, or all of them when there are fewer. *)
Lemma predictKNN_all_buyers (this : MLEngine num) (age salary : num) :
  Forall (fun d => Purchased d = of_nat 1) (trainingData this) ->
  purchased (predictKNN this age salary None) =
  (of_nat (Nat.min 5 (length (trainingData this))) >? of_nat 5 / of_nat 2).
Proof.
  intros Hall. rewrite predictKNN_default, predictKNN_unfold, neighbors_unfold.
  rewrite ToInteger_five. change 5%Z with (Z.of_nat 5). rewrite Array_slice0_nat.
  cbn [purchased]. rewrite filter_all.
  - now rewrite length_firstn, Array_sort_length, distances_length.
  - apply Forall_firstn.
    apply (Permutation_Forall (Permutation_sym (Array_sort_perm by_dist _))).
    apply Forall_forall. intros n Hn. unfold distances in Hn.
    apply in_map_iff in Hn as (d & <- & Hd).
    rewrite Forall_forall in Hall. destruct (scale this (Age d) (EstimatedSalary d)).
    cbn [nb_purchased]. rewrite (Hall d Hd). apply strict_eq_one_one.
Qed.

Lemma knn_correct_all_buyers (this : MLEngine num) (d : CustomerData num) :
  Forall (fun d => Purchased d = of_nat 1) (trainingData this) ->
  In d (trainingData this) ->
  ((3 <= length (trainingData this))%nat -> is_correct this KNN d = true) /\
  ((length (trainingData this) <= 2)%nat -> is_correct this KNN d = false).
Proof.
  intros Hall Hd. unfold is_correct, predicted.
  rewrite (predictKNN_all_buyers _ _ _ Hall).
  rewrite Forall_forall in Hall. rewrite (Hall d Hd).
  split; intros Hn.
  - rewrite three_of_five by lia. apply strict_eq_one_one.
  - rewrite two_of_five by lia. apply strict_eq_zero_one.
Qed.

Lemma getAccuracy_knn_all_buyers (this : MLEngine num) :
  Forall (fun d => Purchased d = of_nat 1) (trainingData this) ->
  ((3 <= length (trainingData this))%nat ->
   getAccuracy this KNN =
   of_nat (length (trainingData this)) / of_nat (length (trainingData this))) /\
  ((length (trainingData this) <= 2)%nat ->
   getAccuracy this KNN = of_nat 0 / of_nat (length (trainingData this))).
Proof.
  intros Hall. rewrite getAccuracy_fraction. split; intros Hn.
  - rewrite filter_all; [reflexivity |].
    apply Forall_forall. intros d Hd.
    now apply (knn_correct_all_buyers this d Hall Hd).
  - rewrite filter_none; [reflexivity |].
    apply Forall_forall. intros d Hd.
    now apply (knn_correct_all_buyers this d Hall Hd).
Qed.

End SingleClass.

Section SingleClassExact.

Local Open Scope R_scope.

Lemma spec_sum_ext_in {A : Type} (f g : A -> R) (l : list A) :
  (forall x, In x l -> f x = g x) -> spec_sum (map f l) = spec_sum (map g l).
Proof. intros H. f_equal. now apply map_ext_in. Qed.

(** With every label 1 and features that sum to zero, a gradient step from
    zero weights leaves the weights at zero and does not lower the bias. *)
Lemma gd_step_all_buyers (X : list (R * R * R)) (b : R) :
  X <> [] ->
  Forall (fun r => snd r = 1) X ->
  spec_sum (map (fun r => fst (fst r)) X) = 0 ->
  spec_sum (map (fun r => snd (fst r)) X) = 0 ->
  0 <= b ->
  exists b', gd_step (1 / 10) (INR (length X)) X (0, 0, b) = (0, 0, b') /\ 0 <= b'.
Proof.
  intros Hne Hall H1 H2 Hb. pose proof (INR_length_pos X Hne) as Hn.
  pose proof (spec_sigmoid_range b) as Hs.
  assert (forall r, In r X -> spec_diff (0, 0, b) r = spec_sigmoid b - 1) as Hdiff.
  { intros [[x1 x2] l] Hr. rewrite Forall_forall in Hall.
    specialize (Hall _ Hr). simpl in Hall. subst l.
    unfold spec_diff. cbn [add mul sub exact].
    replace (0 * x1 + 0 * x2 + b) with b by ring. reflexivity. }
  exists (b - (1 / 10 / INR (length X)) * (INR (length X) * (spec_sigmoid b - 1))).
  split.
  - unfold gd_step, spec_gradient_sums.
    rewrite (spec_sum_ext_in (fun r => (spec_diff (0, 0, b) r * fst (fst r))%num)
                             (fun r => (spec_sigmoid b - 1) * fst (fst r)))
      by (intros r Hr; rewrite (Hdiff r Hr); reflexivity).
    rewrite (spec_sum_ext_in (fun r => (spec_diff (0, 0, b) r * snd (fst r))%num)
                             (fun r => (spec_sigmoid b - 1) * snd (fst r)))
      by (intros r Hr; rewrite (Hdiff r Hr); reflexivity).
    rewrite (spec_sum_ext_in (fun r => spec_diff (0, 0, b) r) (fun _ => spec_sigmoid b - 1))
      by exact Hdiff.
    rewrite !spec_sum_scal, H1, H2, spec_sum_const. simpl.
    apply f_equal2; [apply f_equal2 |]; ring.
  - replace (1 / 10 / INR (length X) * (INR (length X) * (spec_sigmoid b - 1)))
      with (1 / 10 * (spec_sigmoid b - 1)) by (field; lra).
    lra.
Qed.

Lemma iter_all_buyers (X : list (R * R * R)) (n : nat) :
  X <> [] ->
  Forall (fun r => snd r = 1) X ->
  spec_sum (map (fun r => fst (fst r)) X) = 0 ->
  spec_sum (map (fun r => snd (fst r)) X) = 0 ->
  exists b, Nat.iter n (gd_step (1 / 10) (INR (length X)) X) (0, 0, 0) = (0, 0, b) /\ 0 <= b.
Proof.
  intros Hne Hall H1 H2. induction n as [| n (b & IH & Hb)].
  - exists 0. split; [reflexivity | lra].
  - simpl. rewrite IH. now apply gd_step_all_buyers.
Qed.

(** The standardized features of a non-empty training set sum to zero. *)
Lemma standardized_sums (data : list (CustomerData R)) (e : MLEngine R) :
  data <> [] ->
  scaleParams e = scaling_of data ->
  spec_sum (map (fun r => fst (fst r)) (map (spec_standardized e) data)) = 0 /\
  spec_sum (map (fun r => snd (fst r)) (map (spec_standardized e) data)) = 0.
Proof.
  intros Hne Hscale. rewrite !map_map. unfold spec_standardized, scale.
  rewrite Hscale. cbn [fst snd mean std scaling_of]. split.
  - rewrite <- (map_map Age (fun x => (x - spec_mean (map Age data)) / _)%num).
    apply spec_sum_centered. destruct data; [congruence | discriminate].
  - rewrite <- (map_map EstimatedSalary
                  (fun x => (x - spec_mean (map EstimatedSalary data)) / _)%num).
    apply spec_sum_centered. destruct data; [congruence | discriminate].
Qed.

Lemma MLEngine_new_all_buyers (data : list (CustomerData R)) (e : MLEngine R) :
  data <> [] ->
  Forall (fun d => Purchased d = 1) data ->
  MLEngine_new data = Normal e ->
  fst (lrWeights e) = 0 /\ snd (lrWeights e) = 0 /\ 0 <= lrBias e.
Proof.
  intros Hne Hall Hnew.
  pose proof (MLEngine_new_weights _ _ Hnew) as Hw.
  apply MLEngine_new_fields in Hnew as [_ Hscale].
  destruct (standardized_sums data e Hne Hscale) as [H1 H2].
  destruct (iter_all_buyers (map (spec_standardized e) data) 1000) as (b & Hiter & Hb);
    try assumption.
  - destruct data; [congruence | discriminate].
  - apply Forall_forall. intros r Hr. apply in_map_iff in Hr as (d & <- & Hd).
    rewrite Forall_forall in Hall. exact (Hall d Hd).
  - rewrite length_map in Hiter.
    assert ((fst (lrWeights e), snd (lrWeights e), lrBias e) = (0, 0, b)) as Hfinal
      by (rewrite Hw; exact Hiter).
    injection Hfinal as -> -> ->. auto.
Qed.

Lemma getAccuracy_lr_all_buyers (data : list (CustomerData R)) (e : MLEngine R) :
  data <> [] ->
  Forall (fun d => Purchased d = 1) data ->
  MLEngine_new data = Normal e ->
  getAccuracy e LR = 1.
Proof.
  intros Hne Hall Hnew.
  destruct (MLEngine_new_all_buyers data e Hne Hall Hnew) as (Hw1 & Hw2 & Hb).
  apply MLEngine_new_fields in Hnew as [Hdata _].
  rewrite getAccuracy_fraction, Hdata, filter_all.
  - simpl. field. pose proof (INR_length_pos data Hne). lra.
  - apply Forall_forall. intros d Hd. rewrite Forall_forall in Hall.
    unfold is_correct, predicted. rewrite (Hall d Hd).
    assert (purchased (predictLogisticRegression e (Age d) (EstimatedSalary d)) = true) as ->.
    { unfold predictLogisticRegression.
      destruct (scale e (Age d) (EstimatedSalary d)) as [x1 x2].
      cbn [purchased]. rewrite Hw1, Hw2. simpl. apply R_leb_true.
      apply (spec_sigmoid_half (0 * x1 + 0 * x2 + lrBias e)). lra. }
    apply R_strict_eq_true. reflexivity.
Qed.

End SingleClassExact.

(** C7, as amended.  On a training set whose labels are all 1,
    [getAccuracy('KNN')] classifies every record correctly when there are at
    least three records, and none when there are one or two: the vote is
    taken with [k = 5] and needs more than 2.5 neighbours with label 1.
    Over the reals the accuracy is then 1, respectively 0, and
    [getAccuracy('LR')] is 1 for every non-empty such training set. *)
Theorem all_buyers_accuracy :
  (forall (num : Type) (N : Number num) (L : NumberLaws num)
          (data : list (CustomerData num)) (e : MLEngine num),
     Forall (fun d => Purchased d = of_nat 1) data ->
     MLEngine_new data = Normal e ->
     ((3 <= length data)%nat ->
      getAccuracy e KNN = (of_nat (length data) / of_nat (length data))%num) /\
     ((length data <= 2)%nat ->
      getAccuracy e KNN = (of_nat 0 / of_nat (length data))%num)) /\
  (forall (data : list (CustomerData R)) (e : MLEngine R),
     data <> [] ->
     Forall (fun d => Purchased d = 1%R) data ->
     MLEngine_new data = Normal e ->
     getAccuracy e LR = 1%R /\
     ((3 <= length data)%nat -> getAccuracy e KNN = 1%R) /\
     ((length data <= 2)%nat -> getAccuracy e KNN = 0%R)).
Proof.
  split.
  - intros num N L data e Hall Hnew.
    destruct (MLEngine_new_fields data e Hnew) as [Hdata _].
    rewrite <- Hdata in *. now apply getAccuracy_knn_all_buyers.
  - intros data e Hne Hall Hnew.
    split; [exact (getAccuracy_lr_all_buyers data e Hne Hall Hnew) |].
    pose proof (INR_length_pos data Hne) as Hn.
    apply MLEngine_new_fields in Hnew as [Hdata _].
    rewrite <- Hdata in *.
    destruct (getAccuracy_knn_all_buyers (L := exact_laws) e Hall) as [Hmany Hfew].
    split; intros Hlen.
    + rewrite (Hmany Hlen). simpl. field. lra.
    + rewrite (Hfew Hlen). simpl. field. lra.
Qed.

Lemma all_buyers_accuracy_witness :
  exists e : MLEngine float,
    Forall (fun d => Purchased d = 1%float) three_buyers /\
    MLEngine_new three_buyers = Normal e /\
    (3 <= length three_buyers)%nat /\
    getAccuracy e KNN = (3 / 3)%float.
Proof.
  assert (Forall (fun d => Purchased d = 1%float) three_buyers) as Hall
    by (repeat constructor).
  eexists. split; [exact Hall |]. split; [apply MLEngine_new_returns |].
  split; [apply le_n |].
  exact (proj1 (proj1 all_buyers_accuracy float binary64 binary64_laws three_buyers _
                  Hall (MLEngine_new_returns _)) (le_n 3)).
Defined.

(** C7 as stated fails on a single record with label 1: its one neighbour is
    not more than 2.5, the prediction is [false] and the accuracy is 0. *)
Lemma single_buyer_knn_accuracy :
  exists e : MLEngine float,
    MLEngine_new one_buyer = Normal e /\
    map Purchased one_buyer = [1%float] /\
    purchased (predictKNN e 20%float 20000%float None) = false /\
    getAccuracy e KNN = 0%float.
Proof.
  eexists. split; [apply MLEngine_new_returns |].
  vm_compute. repeat split.
Qed.

(** ** Rescaling a feature (C8) *)

Lemma combine_map_r {A B C : Type} (g : B -> C) (l : list A) (l' : list B) :
  combine l (map g l') = map (fun p => (fst p, g (snd p))) (combine l l').
Proof.
  revert l'. induction l as [| x l IH]; intros [| y l']; simpl; try reflexivity.
  now rewrite IH.
Qed.

Lemma map_snd_combine_seq {B : Type} (l : list B) (s : nat) :
  map snd (combine (seq s (length l)) l) = l.
Proof.
  revert s. induction l as [| y l IH]; intros s; simpl; [reflexivity |].
  now rewrite IH.
Qed.

Section RankedFacts.

Context {num : Type} {N : Number num}.

Lemma distances_entries (this : MLEngine num) (sAge sSalary : num) :
  distances this sAge sSalary = map (entry this sAge sSalary) (trainingData this).
Proof. reflexivity. Qed.

(** Tagging the entries with positions does not change the order. *)
Lemma ranked_sorted (this : MLEngine num) (age salary : num) :
  map snd (ranked this age salary) =
  Array_sort by_dist
    (distances this (fst (scale this age salary)) (snd (scale this age salary))).
Proof.
  unfold ranked, scale.
  rewrite (Array_sort_map (fun a b => by_dist (snd a) (snd b)) by_dist snd)
    by reflexivity.
  now rewrite map_snd_combine_seq.
Qed.

Lemma nearest_neighbors (this : MLEngine num) (age salary k : num) :
  map snd (Array_slice0 (ranked this age salary) (ToIntegerOrInfinity k)) =
  neighbors this age salary k.
Proof.
  rewrite <- Array_slice0_map, ranked_sorted. reflexivity.
Qed.

(** The ranking as a sort of the tagged training records themselves. *)
Lemma ranked_by_record (this : MLEngine num) (age salary : num) :
  ranked this age salary =
  map (fun p => (fst p, entry this (fst (scale this age salary))
                              (snd (scale this age salary)) (snd p)))
      (Array_sort (fun p p' => by_dist (entry this (fst (scale this age salary))
                                              (snd (scale this age salary)) (snd p))
                                       (entry this (fst (scale this age salary))
                                              (snd (scale this age salary)) (snd p')))
                  (combine (seq 0 (length (trainingData this))) (trainingData this))).
Proof.
  unfold ranked. unfold scale at 1.
  rewrite distances_entries, length_map, combine_map_r.
  symmetry. apply Array_sort_map. reflexivity.
Qed.

End RankedFacts.

Section RescaleExact.

Local Open Scope R_scope.

Lemma or_else_zero (y : R) : or_else 0 y = y.
Proof. apply or_else_falsy. now apply R_ToBoolean_false. Qed.

Lemma or_else_nonzero (x y : R) : x <> 0 -> or_else x y = x.
Proof.
  intros Hx. unfold or_else. simpl.
  now rewrite (proj2 (R_ToBoolean_true x) Hx).
Qed.

Lemma or_else_one_nonzero (x : R) : or_else x (of_nat 1) <> 0.
Proof.
  destruct (Req_dec_T x 0) as [-> | Hx].
  - rewrite or_else_zero. simpl. lra.
  - now rewrite or_else_nonzero.
Qed.

Lemma spec_mean_scal (c : R) (xs : list R) :
  spec_mean (map (fun x => c * x) xs) = c * spec_mean xs.
Proof.
  unfold spec_mean. rewrite length_map, (spec_sum_scal c R (fun x => x)), map_id.
  simpl. unfold Rdiv. ring.
Qed.

Lemma spec_population_std_scal (c : R) (xs : list R) :
  0 <= c ->
  spec_population_std (map (fun x => c * x) xs) = c * spec_population_std xs.
Proof.
  intros Hc. unfold spec_population_std.
  rewrite spec_mean_scal, map_map, length_map.
  rewrite (spec_sum_ext_in _ (fun x => (c * c) * Math_pow2 (x - spec_mean xs)%num))
    by (intros x _; simpl; ring).
  rewrite spec_sum_scal. simpl.
  match goal with
  | |- sqrt (c * c * ?s / ?n) = _ =>
      replace (c * c * s / n) with ((c * c) * (s / n)) by (unfold Rdiv; ring)
  end.
  rewrite sqrt_mult_alt by nra. now rewrite sqrt_square.
Qed.

(** A zero population standard deviation means every value is the mean. *)
Lemma zero_std_all_mean (xs : list R) :
  xs <> [] -> spec_population_std xs = 0 -> Forall (fun x => x = spec_mean xs) xs.
Proof.
  intros Hne Hstd. pose proof (INR_length_pos xs Hne) as Hn.
  set (sq := map (fun x => (x - spec_mean xs) * (x - spec_mean xs)) xs).
  change (sqrt (spec_sum sq / INR (length xs)) = 0) in Hstd.
  assert (Forall (fun x => 0 <= x) sq) as Hsq.
  { apply Forall_forall. intros y Hy. apply in_map_iff in Hy as (x & <- & _).
    apply Rle_0_sqr. }
  pose proof (spec_sum_nonneg sq Hsq) as Hsum.
  apply sqrt_eq_0 in Hstd; [| apply le_div_iff; lra].
  assert (spec_sum sq = 0) as Hzero.
  { assert (spec_sum sq = spec_sum sq / INR (length xs) * INR (length xs)) as ->
      by (field; lra).
    rewrite Hstd. ring. }
  pose proof (spec_sum_zero sq Hsq Hzero) as Hall.
  apply Forall_forall. intros x Hx. rewrite Forall_forall in Hall.
  assert ((x - spec_mean xs) * (x - spec_mean xs) = 0) as Hx0.
  { apply Hall. unfold sq. apply in_map_iff. now exists x. }
  apply Rmult_integral in Hx0. lra.
Qed.

Lemma spec_sq_distance_nonneg (e : MLEngine R) (age salary : R) (d : CustomerData R) :
  0 <= spec_sq_distance e age salary d.
Proof.
  unfold spec_sq_distance. simpl.
  apply Rplus_le_le_0_compat; apply Rle_0_sqr.
Qed.

(** Over the reals the comparator compares squared distances. *)
Lemma goes_after_sq_distance (e : MLEngine R) (age salary : R) (d1 d2 : CustomerData R) :
  let q := scale e age salary in
  goes_after by_dist (entry e (fst q) (snd q) d1) (entry e (fst q) (snd q) d2) = true <->
  spec_sq_distance e age salary d2 < spec_sq_distance e age salary d1.
Proof.
  cbv zeta. rewrite by_dist_after.
  change (dist (entry e (fst (scale e age salary)) (snd (scale e age salary)) d2))
    with (sqrt (spec_sq_distance e age salary d2)).
  change (dist (entry e (fst (scale e age salary)) (snd (scale e age salary)) d1))
    with (sqrt (spec_sq_distance e age salary d1)).
  pose proof (spec_sq_distance_nonneg e age salary d2).
  split.
  - apply sqrt_lt_0_alt.
  - intros Hlt. apply sqrt_lt_1_alt. lra.
Qed.

(** Multiplying feature 1 by [c > 0] in the training set and in the query
    shifts every squared distance by the same amount: by nothing when the
    feature varies, and by a constant when it does not (its deviation is then
    replaced by 1 before and after). *)
Lemma spec_sq_distance_rescaled (data : list (CustomerData R)) (c : R) (e e' : MLEngine R)
    (age salary : R) :
  data <> [] ->
  0 < c ->
  scaleParams e = scaling_of data ->
  scaleParams e' = scaling_of (map (scale_feature1 c) data) ->
  exists K, forall d, In d data ->
    spec_sq_distance e' (c * age) salary (scale_feature1 c d) =
    spec_sq_distance e age salary d + K.
Proof.
  intros Hne Hc He He'.
  assert (map Age (map (scale_feature1 c) data) = map (fun x => c * x) (map Age data)) as Hages
    by (rewrite !map_map; reflexivity).
  assert (map EstimatedSalary (map (scale_feature1 c) data) = map EstimatedSalary data)
    as Hsalaries by (rewrite map_map; reflexivity).
  unfold spec_sq_distance, scale. rewrite He, He'. unfold scaling_of.
  rewrite Hages, Hsalaries, spec_mean_scal, spec_population_std_scal by lra.
  cbn [mean std fst snd scale_feature1 Age EstimatedSalary].
  set (mu1 := spec_mean (map Age data)).
  set (mu2 := spec_mean (map EstimatedSalary data)).
  set (s2 := or_else (spec_population_std (map EstimatedSalary data)) (of_nat 1)).
  destruct (Req_dec_T (spec_population_std (map Age data)) 0) as [Hzero | Hvar].
  - exists ((c * c - 1) * ((age - mu1) * (age - mu1))). intros d Hd.
    assert (Age d = mu1) as ->.
    { pose proof (zero_std_all_mean (map Age data)) as Hall.
      rewrite Forall_forall in Hall. apply Hall; auto.
      - destruct data; [congruence | discriminate].
      - now apply in_map. }
    rewrite Hzero, Rmult_0_r, or_else_zero. simpl. unfold Rdiv. rewrite Rinv_1. ring.
  - exists 0. intros d Hd.
    pose proof (or_else_one_nonzero (spec_population_std (map EstimatedSalary data))) as Hs2.
    fold s2 in Hs2.
    rewrite !or_else_nonzero by nra. simpl. field. repeat split; (assumption || lra).
Qed.

End RescaleExact.

Section RescaleTheorem.

Local Open Scope R_scope.

Variables (data : list (CustomerData R)) (c : R) (e e' : MLEngine R).
Hypothesis data_nonempty : data <> [].
Hypothesis c_positive : 0 < c.
Hypothesis built : MLEngine_new data = Normal e.
Hypothesis rebuilt : MLEngine_new (map (scale_feature1 c) data) = Normal e'.

Variables age salary : R.

Let q := scale e age salary.
Let q' := scale e' (c * age) salary.

(** The comparator decides alike before and after the rescaling. *)
Lemma by_dist_rescaled (d1 d2 : CustomerData R) :
  In d1 data -> In d2 data ->
  goes_after by_dist (entry e' (fst q') (snd q') (scale_feature1 c d1))
                     (entry e' (fst q') (snd q') (scale_feature1 c d2)) =
  goes_after by_dist (entry e (fst q) (snd q) d1) (entry e (fst q) (snd q) d2).
Proof.
  intros Hd1 Hd2.
  destruct (spec_sq_distance_rescaled data c e e' age salary data_nonempty c_positive
              (proj2 (MLEngine_new_fields _ _ built))
              (proj2 (MLEngine_new_fields _ _ rebuilt))) as [K HK].
  apply eq_true_iff_eq. unfold q, q'.
  rewrite (goes_after_sq_distance e' (c * age) salary),
          (goes_after_sq_distance e age salary).
  rewrite (HK d1 Hd1), (HK d2 Hd2). lra.
Qed.

(** Both rankings are one and the same ordering of the tagged records. *)
Lemma ranked_rescaled :
  exists S : list (nat * CustomerData R),
    ranked e age salary = map (fun p => (fst p, entry e (fst q) (snd q) (snd p))) S /\
    ranked e' (c * age) salary =
    map (fun p => (fst p, entry e' (fst q') (snd q') (scale_feature1 c (snd p)))) S.
Proof.
  destruct (MLEngine_new_fields _ _ built) as [Hdata _].
  destruct (MLEngine_new_fields _ _ rebuilt) as [Hdata' _].
  exists (Array_sort (fun p p' => by_dist (entry e (fst q) (snd q) (snd p))
                                         (entry e (fst q) (snd q) (snd p')))
                     (combine (seq 0 (length data)) data)).
  split.
  - rewrite ranked_by_record, Hdata. reflexivity.
  - rewrite ranked_by_record, Hdata', length_map, combine_map_r. fold q'.
    rewrite <- (Array_sort_map
                  (fun p p' => by_dist (entry e' (fst q') (snd q') (scale_feature1 c (snd p)))
                                       (entry e' (fst q') (snd q') (scale_feature1 c (snd p'))))
                  _ (fun p => (fst p, scale_feature1 c (snd p)))) by reflexivity.
    rewrite map_map. cbn [fst snd]. f_equal.
    rewrite <- (map_id (Array_sort _ _)) at 1.
    rewrite (Array_sort_map _
               (fun p p' => by_dist (entry e (fst q) (snd q) (snd p))
                                    (entry e (fst q) (snd q) (snd p'))) (fun p => p)).
    + now rewrite map_id.
    + intros [i d] [i' d'] Ha Ha'. symmetry.
      apply by_dist_rescaled; eapply in_combine_r; eassumption.
Qed.

Lemma nearest_rescaled (k : R) :
  nearest e' (c * age) salary k = nearest e age salary k.
Proof.
  destruct ranked_rescaled as (S & Hr & Hr').
  unfold nearest. rewrite <- !Array_slice0_map, Hr, Hr', !map_map. reflexivity.
Qed.

Lemma labels_rescaled (k : R) :
  map nb_purchased (neighbors e' (c * age) salary k) =
  map nb_purchased (neighbors e age salary k).
Proof.
  destruct ranked_rescaled as (S & Hr & Hr').
  rewrite <- !nearest_neighbors, <- !Array_slice0_map, Hr, Hr', !map_map. reflexivity.
Qed.

Lemma predictKNN_rescaled (k : R) :
  predictKNN e' (c * age) salary (Some k) = predictKNN e age salary (Some k).
Proof.
  rewrite !predictKNN_unfold.
  rewrite <- !(filter_map_length nb_purchased (fun l => (l === of_nat 1)%num)).
  now rewrite labels_rescaled.
Qed.

End RescaleTheorem.

(** C8, as amended.  Over the reals, multiplying the feature-1 value of every
    training record and of the query by the same [c > 0] changes neither
    which training records are the [k] nearest, nor the order they are
    ranked in, nor the prediction.  ([nearest] lists the positions of the
    records whose entries [predictKNN] slices off the sorted array.) *)
Theorem rescaling_feature1_keeps_neighbours :
  (forall (num : Type) (N : Number num) (this : MLEngine num) (age salary k : num),
     map snd (Array_slice0 (ranked this age salary) (ToIntegerOrInfinity k)) =
     neighbors this age salary k) /\
  (forall (data : list (CustomerData R)) (c : R) (e e' : MLEngine R),
     data <> [] ->
     (0 < c)%R ->
     MLEngine_new data = Normal e ->
     MLEngine_new (map (scale_feature1 c) data) = Normal e' ->
     forall age salary k : R,
       nearest e' (c * age)%R salary k = nearest e age salary k /\
       map nb_purchased (neighbors e' (c * age)%R salary k) =
       map nb_purchased (neighbors e age salary k) /\
       predictKNN e' (c * age)%R salary (Some k) = predictKNN e age salary (Some k)).
Proof.
  split.
  - intros num N this age salary k. apply nearest_neighbors.
  - intros data c e e' Hne Hc Hnew Hnew' age salary k. split; [| split].
    + now apply (nearest_rescaled data c e e').
    + now apply (labels_rescaled data c e e').
    + now apply (predictKNN_rescaled data c e e').
Qed.

Lemma rescaling_feature1_keeps_neighbours_witness :
  exists e e' : MLEngine R,
    two_points_exact <> [] /\
    (0 < 3)%R /\
    MLEngine_new two_points_exact = Normal e /\
    MLEngine_new (map (scale_feature1 3%R) two_points_exact) = Normal e' /\
    nearest e' (3 * 40)%R 80000%R 1%R = nearest e 40%R 80000%R 1%R.
Proof.
  assert (0 < 3)%R as Hc by lra.
  assert (two_points_exact <> []) as Hne by discriminate.
  do 2 eexists. split; [exact Hne |]. split; [exact Hc |].
  split; [apply MLEngine_new_returns |]. split; [apply MLEngine_new_returns |].
  exact (proj1 (proj2 rescaling_feature1_keeps_neighbours two_points_exact 3%R _ _
                  Hne Hc (MLEngine_new_returns _) (MLEngine_new_returns _)
                  40%R 80000%R 1%R)).
Defined.

(** C8 as stated fails in binary64.  In [tied], records 0 and 2 are equally
    far from the query [(27, 8000)]; rounding puts record 0 first before the
    ages are tripled and record 2 first after, so with [k = 1] the neighbour
    and the prediction change. *)
Lemma rescaling_changes_neighbour :
  exists e e' : MLEngine float,
    MLEngine_new tied = Normal e /\
    MLEngine_new (map (scale_feature1 3%float) tied) = Normal e' /\
    nearest e 27%float 8000%float 1%float = [0%nat] /\
    nearest e' (3 * 27)%float 8000%float 1%float = [2%nat] /\
    predictKNN e 27%float 8000%float (Some 1%float) =
      {| purchased := true; probability := 1%float |} /\
    predictKNN e' (3 * 27)%float 8000%float (Some 1%float) =
      {| purchased := false; probability := 0%float |}.
Proof.
  do 2 eexists. split; [apply MLEngine_new_returns |].
  split; [apply MLEngine_new_returns |].
  vm_compute. repeat split.
Qed.

(** * Further properties of the engine *)

(** ** The vote of the nearest neighbours *)

Lemma filter_firstn_length {A : Type} (P : A -> bool) (k : nat) (l : list A) :
  (length (filter P (firstn k l)) <= length (filter P l))%nat.
Proof.
  revert k. induction l as [| x rest IH]; intros [| k]; simpl; try lia.
  specialize (IH k). destruct (P x); simpl; lia.
Qed.

Lemma Array_slice0_prefix {A : Type} (a : list A) (r : IntegerOrInfinity) :
  exists k, Array_slice0 a r = firstn k a.
Proof.
  destruct r as [z | |]; simpl.
  - destruct (z <? 0)%Z; eexists; reflexivity.
  - exists (length a). symmetry. apply firstn_all.
  - exists O. reflexivity.
Qed.

Section VoteFacts.

Context {num : Type} {N : Number num}.

Local Open Scope num_scope.

(** The votes for label 1 are at most the label-1 training records. *)
Lemma neighbors_purchased_count (this : MLEngine num) (age salary k : num) :
  (length (filter (fun n => nb_purchased n === of_nat 1) (neighbors this age salary k))
   <= length (filter (fun d => Purchased d === of_nat 1) (trainingData this)))%nat.
Proof.
  rewrite neighbors_unfold.
  destruct (Array_slice0_prefix
              (Array_sort by_dist
                 (distances this (fst (scale this age salary)) (snd (scale this age salary))))
              (ToIntegerOrInfinity k)) as [j ->].
  etransitivity; [apply filter_firstn_length |].
  rewrite (filter_length_perm _ _ _ (Array_sort_perm by_dist _)).
  now rewrite distances_purchased_count.
Qed.

Lemma neighbors_length (this : MLEngine num) (age salary k : num) (kn : nat) :
  ToIntegerOrInfinity k = Finite (Z.of_nat kn) ->
  length (neighbors this age salary k) = Nat.min kn (length (trainingData this)).
Proof.
  intros Hk. rewrite neighbors_unfold, Hk, Array_slice0_nat.
  now rewrite length_firstn, Array_sort_length, distances_length.
Qed.

End VoteFacts.

(** X4.  For every engine and every [k] that [slice] reads as the
    non-negative integer [kn], [predictKNN] votes with exactly
    [min kn n] neighbours; the count of votes for label 1 is at most [kn]
    and at most the number of label-1 training records.  Over the reals,
    with [k] a positive integer, the returned probability lies in [0, 1]. *)
Theorem predictKNN_vote_bounds :
  (forall (num : Type) (N : Number num) (this : MLEngine num) (age salary k : num) (kn : nat),
     ToIntegerOrInfinity k = Finite (Z.of_nat kn) ->
     length (neighbors this age salary k) = Nat.min kn (length (trainingData this)) /\
     exists c : nat,
       (c <= kn)%nat /\
       (c <= length (filter (fun d => Purchased d === of_nat 1)%num (trainingData this)))%nat /\
       predictKNN this age salary (Some k) =
       {| purchased := (of_nat c >? k / of_nat 2)%num; probability := (of_nat c / k)%num |}) /\
  (forall (e : MLEngine R) (age salary : R) (kn : nat),
     (0 < kn)%nat ->
     (0 <= probability (predictKNN e age salary (Some (INR kn))) <= 1)%R).
Proof.
  assert (forall (num : Type) (N : Number num) (this : MLEngine num) (age salary k : num)
                 (kn : nat),
     ToIntegerOrInfinity k = Finite (Z.of_nat kn) ->
     (length (filter (fun n => nb_purchased n === of_nat 1)%num (neighbors this age salary k))
      <= kn)%nat) as Hcount.
  { intros num N this age salary k kn Hk.
    etransitivity; [apply filter_length_le |].
    rewrite (neighbors_length this age salary k kn Hk). lia. }
  split.
  - intros num N this age salary k kn Hk.
    split; [now apply neighbors_length |].
    eexists. split; [exact (Hcount _ _ this age salary k kn Hk) |].
    split; [apply neighbors_purchased_count |].
    apply predictKNN_unfold.
  - intros e age salary kn Hkn. rewrite predictKNN_unfold. cbn [probability].
    apply fraction_range; [| exact Hkn].
    apply Hcount. simpl. now rewrite R_trunc_INR.
Qed.

Lemma predictKNN_vote_bounds_witness :
  exists e : MLEngine float,
    MLEngine_new three_buyers = Normal e /\
    length (neighbors e 20%float 20000%float 2%float) = 2%nat.
Proof.
  eexists. split; [apply MLEngine_new_returns |].
  refine (proj1 (proj1 predictKNN_vote_bounds float binary64 _ _ _ 2%float 2%nat _)).
  reflexivity.
Defined.

(** X5.  When [slice] reads [k] as 0 (zero, NaN, or a fraction below 1)
    no neighbour votes: the count is 0, whatever the training set and the
    query.  In binary64, [k = 0] and [k = NaN] give probability NaN and
    [purchased = false], and [k = 0.5] gives probability 0. *)
Theorem predictKNN_no_neighbours :
  (forall (num : Type) (N : Number num) (this : MLEngine num) (age salary k : num),
     ToIntegerOrInfinity k = Finite 0 ->
     neighbors this age salary k = [] /\
     predictKNN this age salary (Some k) =
     {| purchased := (of_nat 0 >? k / of_nat 2)%num; probability := (of_nat 0 / k)%num |}) /\
  (forall (this : MLEngine float) (age salary : float),
     predictKNN this age salary (Some 0%float) = {| purchased := false; probability := nan |} /\
     predictKNN this age salary (Some nan) = {| purchased := false; probability := nan |} /\
     predictKNN this age salary (Some 0.5%float) =
       {| purchased := false; probability := 0%float |}).
Proof.
  assert (forall (num : Type) (N : Number num) (this : MLEngine num) (age salary k : num),
     ToIntegerOrInfinity k = Finite 0 ->
     neighbors this age salary k = [] /\
     predictKNN this age salary (Some k) =
     {| purchased := (of_nat 0 >? k / of_nat 2)%num; probability := (of_nat 0 / k)%num |})
    as Hgen.
  { intros num N this age salary k Hk.
    assert (neighbors this age salary k = []) as Hnb.
    { rewrite neighbors_unfold, Hk. apply (Array_slice0_nat _ 0). }
    split; [exact Hnb |]. rewrite predictKNN_unfold, Hnb. reflexivity. }
  split; [exact Hgen |].
  intros this age salary.
  split; [| split].
  - rewrite (proj2 (Hgen float binary64 this age salary 0%float eq_refl)). reflexivity.
  - rewrite (proj2 (Hgen float binary64 this age salary nan eq_refl)). reflexivity.
  - rewrite (proj2 (Hgen float binary64 this age salary 0.5%float eq_refl)). reflexivity.
Qed.

Lemma predictKNN_no_neighbours_witness :
  exists e : MLEngine float,
    MLEngine_new two_points = Normal e /\
    neighbors e 40%float 80000%float 0.5%float = [].
Proof.
  eexists. split; [apply MLEngine_new_returns |].
  refine (proj1 (proj1 predictKNN_no_neighbours float binary64 _ _ _ 0.5%float _)).
  reflexivity.
Defined.



(** X7.  An engine that holds no training record (the constructor accepts
    the empty array) has accuracy NaN for both algorithms, and its
    [predictKNN] with the default [k] answers [false] with probability 0 on
    every query. *)
Theorem empty_training_set_results :
  forall (this : MLEngine float),
    trainingData this = [] ->
    getAccuracy this LR = nan /\
    getAccuracy this KNN = nan /\
    forall age salary : float,
      predictKNN this age salary None = {| purchased := false; probability := 0%float |}.
Proof.
  intros this Hdata. rewrite !getAccuracy_fraction, Hdata.
  split; [reflexivity |]. split; [reflexivity |].
  intros age salary. rewrite predictKNN_default, predictKNN_unfold, neighbors_unfold.
  unfold distances. rewrite Hdata. reflexivity.
Qed.

Lemma empty_training_set_results_witness :
  exists e : MLEngine float,
    MLEngine_new [] = Normal e /\ getAccuracy e KNN = nan.
Proof.
  eexists. split; [apply MLEngine_new_returns |].
  refine (proj1 (proj2 (empty_training_set_results _ _))).
  exact (proj1 (trainLogisticRegression_keeps
                  (set_scaleParams (set_trainingData MLEngine_fields []) (scaling_of [])))).
Defined.

(** ** The nearest neighbour of a training point *)

Lemma find_filter {A : Type} (P : A -> bool) (l : list A) :
  find P l = hd_error (filter P l).
Proof.
  induction l as [| x rest IH]; simpl; [reflexivity |].
  destruct (P x); [reflexivity | exact IH].
Qed.

Lemma find_ext_in {A : Type} (P Q : A -> bool) (l : list A) :
  (forall x, In x l -> P x = Q x) -> find P l = find Q l.
Proof.
  intros H. induction l as [| x rest IH]; simpl; [reflexivity |].
  rewrite (H x (or_introl eq_refl)), IH; [reflexivity |].
  intros y Hy. apply H. now right.
Qed.

Section NearestDouble.

Local Open Scope float_scope.

(** A double less itself is [+0], or NaN when it is infinite or NaN. *)
Lemma float_sub_self (x : float) : x - x = 0 \/ x - x = nan.
Proof.
  rewrite <- (SF2Prim_Prim2SF (x - x)), sub_spec.
  destruct (Prim2SF x) as [[] | [] | | s m e]; try (now left); try (now right).
  left. unfold SF64sub, SFsub. rewrite Z.sub_diag. reflexivity.
Qed.

(** A square root is not negative. *)
Lemma float_sqrt_not_negative (u : float) : PrimFloat.ltb (PrimFloat.sqrt u) 0 = false.
Proof.
  rewrite ltb_spec, sqrt_spec. change (Prim2SF 0) with (S754_zero false).
  destruct (Prim2SF u) as [[] | [] | | [] m e]; try reflexivity.
  unfold SF64sqrt, SFsqrt.
  destruct (SFsqrt_core_binary prec emax (Zpos m) e) as [[mz ez] lz].
  unfold binary_round_aux.
  destruct (shr_fexp prec emax mz ez lz) as [mrs e'].
  destruct (shr_fexp prec emax _ e' loc_Exact) as [mrs' e''].
  destruct (shr_m mrs') as [| p | p]; try reflexivity.
  destruct (e'' <=? emax - prec)%Z; reflexivity.
Qed.

(** The distance of a point from itself is 0, or NaN. *)
Lemma spec_euclidean_self (a : float * float) :
  spec_euclidean a a = 0 \/ spec_euclidean a a = nan.
Proof.
  unfold spec_euclidean. cbn [sub add Math_sqrt Math_pow2 binary64]. unfold float_pow2.
  destruct (float_sub_self (fst a)) as [-> | ->], (float_sub_self (snd a)) as [-> | ->];
    [left | right | right | right]; reflexivity.
Qed.

(** Doubles that compare equal compare alike with every number. *)
Lemma float_eqb_congr (a b c : float) :
  is_nan a = false -> is_nan b = false -> is_nan c = false ->
  PrimFloat.eqb a b = true ->
  PrimFloat.eqb a c = PrimFloat.eqb c b.
Proof.
  intros Ha Hb Hc Hab.
  rewrite (float_eqb_not_ltb a b Ha Hb) in Hab.
  apply andb_prop in Hab as [Hab Hba]. apply negb_true_iff in Hab, Hba.
  rewrite (float_eqb_not_ltb a c Ha Hc), (float_eqb_not_ltb c b Hc Hb).
  assert (PrimFloat.ltb a c = PrimFloat.ltb b c) as ->.
  { destruct (PrimFloat.ltb b c) eqn:Hbc.
    - apply not_false_is_true. intros Hac.
      rewrite (float_ltb_false_trans c a b Ha Hac Hba) in Hbc. discriminate.
    - exact (float_ltb_false_trans c b a Hb Hbc Hab). }
  assert (PrimFloat.ltb c a = PrimFloat.ltb c b) as ->.
  { destruct (PrimFloat.ltb c b) eqn:Hcb.
    - apply not_false_is_true. intros Hca.
      rewrite (float_ltb_false_trans b a c Ha Hab Hca) in Hcb. discriminate.
    - exact (float_ltb_false_trans a b c Hb Hba Hcb). }
  apply andb_comm.
Qed.

(** On doubles, when no distance is NaN, the sorted distance array starts
    with the first entry of least distance. *)
Lemma Array_sort_head_float (l : list (Neighbor float)) :
  l <> [] ->
  Forall (fun n => is_nan (dist n) = false) l ->
  exists h t,
    Array_sort by_dist l = h :: t /\
    In h l /\
    (forall y, In y l -> PrimFloat.ltb (dist y) (dist h) = false) /\
    find (fun n => PrimFloat.eqb (dist h) (dist n)) l = Some h.
Proof.
  intros Hne Hnan.
  pose proof (Array_sort_perm by_dist l) as Hperm.
  pose proof (Array_sort_sorted by_dist l (by_dist_consistent_float l Hnan)) as Hsorted.
  destruct (Array_sort by_dist l) as [| h t] eqn:Hs.
  { apply Permutation_nil in Hperm. contradiction. }
  exists h, t. split; [reflexivity |].
  assert (In h l) as Hh by (apply (Permutation_in _ Hperm); now left).
  split; [exact Hh |].
  rewrite Forall_forall in Hnan.
  split.
  - intros y Hy. apply (Permutation_in _ (Permutation_sym Hperm)) in Hy as [<- | Hy].
    + apply float_ltb_irrefl.
    + apply StronglySorted_inv in Hsorted as [_ Hall].
      rewrite Forall_forall in Hall. rewrite <- by_dist_after_float. apply Hall, Hy.
  - assert (consistent_on by_dist (h :: l)) as Hcons.
    { apply by_dist_consistent_float. apply Forall_forall.
      intros n [<- | Hn]; now apply Hnan. }
    pose proof (Array_sort_stable by_dist l h Hcons) as Hstable.
    rewrite Hs in Hstable. simpl filter in Hstable.
    assert (forall n, is_nan (dist n) = false ->
                      same_rank by_dist h n = PrimFloat.eqb (dist h) (dist n)) as Hrank.
    { intros n Hn. unfold same_rank.
      rewrite !by_dist_after_float, float_eqb_not_ltb by auto. apply andb_comm. }
    rewrite (Hrank h (Hnan h Hh)) in Hstable.
    assert (PrimFloat.eqb (dist h) (dist h) = true) as Hrefl.
    { rewrite float_eqb_not_ltb by auto. now rewrite float_ltb_irrefl. }
    rewrite Hrefl in Hstable.
    rewrite find_filter.
    rewrite (filter_ext_in (fun n => PrimFloat.eqb (dist h) (dist n)) (same_rank by_dist h)).
    + now rewrite <- Hstable.
    + intros n Hn. symmetry. apply Hrank. now apply Hnan.
Qed.

End NearestDouble.

(** X8.  In binary64, with [k = 1] and the features of a training record as
    the query, when no distance is NaN: the distance of that record is 0,
    the least there is, and [predictKNN] answers with the label of the first
    training record whose distance from the query is 0 (a record with the
    features of the query, or one so near that the squares of the
    differences underflow): [purchased] is whether that label is 1, and the
    probability is 1 or 0 accordingly. *)
Theorem predictKNN_one_on_training_point :
  forall (this : MLEngine float) (d : CustomerData float),
    In d (trainingData this) ->
    let ds := spec_distances (scaleParams this) (trainingData this)
                             (Age d) (EstimatedSalary d) in
    Forall (fun n => is_nan (dist n) = false) ds ->
    In {| dist := 0%float; nb_purchased := Purchased d |} ds /\
    exists n0 : Neighbor float,
      find (fun n => PrimFloat.eqb (dist n) 0) ds = Some n0 /\
      predictKNN this (Age d) (EstimatedSalary d) (Some 1%float) =
      {| purchased := PrimFloat.eqb (nb_purchased n0) 1;
         probability := if PrimFloat.eqb (nb_purchased n0) 1 then 1%float else 0%float |}.
Proof.
  intros this d Hd ds Hnan.
  assert (In {| dist := 0%float; nb_purchased := Purchased d |} ds) as Hself.
  { assert (In {| dist := spec_euclidean
                            (spec_standardize (scaleParams this) (Age d) (EstimatedSalary d))
                            (spec_standardize (scaleParams this) (Age d) (EstimatedSalary d));
                  nb_purchased := Purchased d |} ds) as Hin
      by (unfold ds, spec_distances; apply in_map_iff; exists d; split; [reflexivity | exact Hd]).
    destruct (spec_euclidean_self
                (spec_standardize (scaleParams this) (Age d) (EstimatedSalary d)))
      as [Hz | Hn]; rewrite ?Hz, ?Hn in Hin; [exact Hin |].
    rewrite Forall_forall in Hnan. apply Hnan in Hin. discriminate. }
  split; [exact Hself |].
  assert (ds <> []) as Hne by (intros Hnil; rewrite Hnil in Hself; contradiction).
  destruct (Array_sort_head_float ds Hne Hnan) as (h & t & Hsort & Hh & Hmin & Hfind).
  pose proof Hnan as Hnan'. rewrite Forall_forall in Hnan'.
  assert (PrimFloat.eqb (dist h) 0 = true) as Hzero.
  { rewrite float_eqb_not_ltb by (auto; reflexivity).
    pose proof (Hmin _ Hself) as Hle. cbn [dist] in Hle. rewrite Hle.
    assert (PrimFloat.ltb (dist h) 0 = false) as ->; [| reflexivity].
    unfold ds, spec_distances in Hh. apply in_map_iff in Hh as (x & <- & _).
    apply float_sqrt_not_negative. }
  exists h. split.
  - rewrite <- Hfind. apply find_ext_in. intros n Hn. symmetry.
    apply float_eqb_congr; auto.
  - rewrite predictKNN_unfold, neighbors_unfold, distances_euclidean. fold ds. rewrite Hsort.
    change (ToIntegerOrInfinity 1%float) with (Finite (Z.of_nat 1)).
    rewrite (Array_slice0_nat _ 1).
    cbn [firstn filter strict_eq binary64]. unfold float_strict_eq.
    destruct (PrimFloat.eqb (nb_purchased h) (of_nat 1)) eqn:Hl;
      change (of_nat 1) with 1%float in Hl; rewrite Hl; reflexivity.
Qed.

Lemma predictKNN_one_on_training_point_witness :
  exists e : MLEngine float,
    MLEngine_new two_points = Normal e /\
    exists n0 : Neighbor float,
      find (fun n => PrimFloat.eqb (dist n) 0)
           (spec_distances (scaleParams e) (trainingData e) 60 140000)%float = Some n0 /\
      predictKNN e 60%float 140000%float (Some 1%float) =
      {| purchased := PrimFloat.eqb (nb_purchased n0) 1;
         probability := if PrimFloat.eqb (nb_purchased n0) 1 then 1%float else 0%float |}.
Proof.
  exists (trainLogisticRegression
            (set_scaleParams (set_trainingData MLEngine_fields two_points)
                             (scaling_of two_points))).
  set (e := trainLogisticRegression _).
  split; [apply MLEngine_new_returns |].
  assert (trainingData e = two_points) as Hdata by apply trainLogisticRegression_keeps.
  assert (scaleParams e = scaling_of two_points) as Hscale by apply trainLogisticRegression_keeps.
  refine (proj2 (predictKNN_one_on_training_point e (customer 60 140000 1)%float _ _)).
  - rewrite Hdata. right. now left.
  - rewrite Hdata, Hscale. repeat constructor.
Defined.



(** ** A training set with a NaN feature *)

(** X11.  In binary64, when a training record has a NaN age or a NaN
    salary (the upload handler lets NaN salaries through), the engine built
    from the training set answers [false] with probability NaN to every
    logistic-regression query; every distance is NaN, the sort leaves the
    records in input order, so [predictKNN] votes with the first [k]
    training records whatever the query; and the logistic-regression
    accuracy is the fraction of records whose label is 0. *)
Theorem nan_feature_disables_models :
  forall (data : list (CustomerData float)) (e : MLEngine float),
    MLEngine_new data = Normal e ->
    Exists (fun d => is_nan (Age d) = true \/ is_nan (EstimatedSalary d) = true) data ->
    (forall age salary,
       predictLogisticRegression e age salary = {| purchased := false; probability := nan |}) /\
    (forall age salary k,
       neighbors e age salary k =
       Array_slice0 (map (fun d => {| dist := nan; nb_purchased := Purchased d |}) data)
                    (ToIntegerOrInfinity k)) /\
    (forall age salary age' salary' k,
       predictKNN e age salary k = predictKNN e age' salary' k) /\
    getAccuracy e LR =
    (of_nat (length (filter (fun d => of_nat 0 === Purchased d)%num data))
     / of_nat (length data))%num.
Proof.
  intros data e Hnew Hnan.
  apply MLEngine_new_fields in Hnew as [Hdata Hscale].
  assert (forall age salary,
            fst (scale e age salary) = nan \/ snd (scale e age salary) = nan) as Hscaled.
  { intros age salary. unfold scale. rewrite Hscale. cbn [fst snd mean std scaling_of].
    apply Exists_exists in Hnan as (d & Hd & [Ha | Hs]); [left | right].
    - rewrite spec_mean_nan; [apply standardized_nan |].
      apply is_nan_eq in Ha. rewrite <- Ha. now apply in_map.
    - rewrite spec_mean_nan; [apply standardized_nan |].
      apply is_nan_eq in Hs. rewrite <- Hs. now apply in_map. }
  assert (forall age salary,
            predictLogisticRegression e age salary =
            {| purchased := false; probability := nan |}) as Hlr.
  { intros age salary. unfold predictLogisticRegression.
    rewrite (surjective_pairing (scale e age salary)).
    cbn [add mul neg div Math_exp leb binary64].
    destruct (Hscaled age salary) as [-> | ->].
    - rewrite mul_nan_r, !add_nan_l. reflexivity.
    - rewrite mul_nan_r, add_nan_r, add_nan_l. reflexivity. }
  assert (forall age salary,
            distances e (fst (scale e age salary)) (snd (scale e age salary)) =
            map (fun d => {| dist := nan; nb_purchased := Purchased d |}) data) as Hdist.
  { intros age salary. unfold distances. rewrite Hdata. apply map_ext. intros d.
    rewrite (surjective_pairing (scale e (Age d) (EstimatedSalary d))).
    f_equal. cbn [add sub Math_sqrt Math_pow2 binary64]. unfold float_pow2.
    destruct (Hscaled age salary) as [-> | ->].
    - now rewrite sub_nan_l, mul_nan_r, add_nan_l.
    - now rewrite sub_nan_l, mul_nan_r, add_nan_r. }
  assert (forall age salary k,
            neighbors e age salary k =
            Array_slice0 (map (fun d => {| dist := nan; nb_purchased := Purchased d |}) data)
                         (ToIntegerOrInfinity k)) as Hnb.
  { intros age salary k. rewrite neighbors_unfold, Hdist, Array_sort_nan; [reflexivity |].
    apply Forall_forall. intros n Hn. apply in_map_iff in Hn as (d & <- & _). reflexivity. }
  split; [exact Hlr |]. split; [exact Hnb |]. split.
  - intros age salary age' salary' [k |].
    + now rewrite !predictKNN_unfold, !Hnb.
    + now rewrite !predictKNN_default, !predictKNN_unfold, !Hnb.
  - rewrite getAccuracy_fraction, Hdata.
    rewrite (filter_ext (is_correct e LR) (fun d => of_nat 0 === Purchased d)%num);
      [reflexivity |].
    intros d. unfold is_correct, predicted. now rewrite Hlr.
Qed.

Lemma nan_feature_disables_models_witness :
  exists e : MLEngine float,
    MLEngine_new [customer 20 20000 0; customer 30 nan 1]%float = Normal e /\
    predictLogisticRegression e 25%float 30000%float =
    {| purchased := false; probability := nan |}.
Proof.
  eexists. split; [apply MLEngine_new_returns |].
  refine (proj1 (nan_feature_disables_models _ _ (MLEngine_new_returns _) _) _ _).
  apply Exists_cons_tl, Exists_cons_hd. right. reflexivity.
Defined.

(** * The upload handler of the application *)

Section UploadFacts.

Local Open Scope string_scope.

Lemma append_assoc (a b c : string) : (a ++ b) ++ c = a ++ b ++ c.
Proof. induction a as [| x a IH]; simpl; [reflexivity | now rewrite IH]. Qed.

Lemma append_nil_r (a : string) : a ++ "" = a.
Proof. induction a as [| x a IH]; simpl; [reflexivity | now rewrite IH]. Qed.

Lemma without_append (c : ascii) (a b : string) :
  without c a -> without c b -> without c (a ++ b).
Proof.
  induction a as [| x a IH]; simpl; [auto |].
  intros [Hx Ha] Hb. split; [exact Hx | now apply IH].
Qed.

(** *** Splitting *)

Lemma String_split_without (separator : ascii) (s : string) :
  without separator s -> String_split separator s = [s].
Proof.
  induction s as [| c rest IH]; simpl; [reflexivity |].
  intros [Hc Hrest]. rewrite (proj2 (Ascii.eqb_neq c separator) Hc), (IH Hrest).
  reflexivity.
Qed.

Lemma String_split_append (separator : ascii) (piece rest : string) :
  without separator piece ->
  String_split separator (piece ++ String separator rest) =
  piece :: String_split separator rest.
Proof.
  induction piece as [| c piece IH]; simpl.
  - intros _. now rewrite Ascii.eqb_refl.
  - intros [Hc Hpiece]. rewrite (proj2 (Ascii.eqb_neq c separator) Hc), (IH Hpiece).
    reflexivity.
Qed.

(** Splitting undoes joining when no piece holds the separator. *)
Lemma String_split_concat (separator : ascii) (pieces : list string) :
  pieces <> [] ->
  Forall (without separator) pieces ->
  String_split separator (String.concat (String separator "") pieces) = pieces.
Proof.
  intros Hne Hall. induction Hall as [| piece rest Hpiece Hrest IH]; [congruence |].
  destruct rest as [| next rest].
  - simpl. now apply String_split_without.
  - change (String.concat (String separator "") (piece :: next :: rest))
      with (piece ++ String separator (String.concat (String separator "") (next :: rest))).
    rewrite (String_split_append _ _ _ Hpiece), IH; [reflexivity | discriminate].
Qed.

Lemma String_split_length (separator : ascii) (s : string) :
  (1 <= length (String_split separator s))%nat.
Proof.
  induction s as [| c rest IH]; simpl; [lia |].
  destruct (Ascii.eqb c separator); simpl; [lia |].
  destruct (String_split separator rest); simpl in *; lia.
Qed.

(** *** Trimming *)

Lemma String_trim_starts (c : ascii) (rest : string) :
  is_white_space c = false -> String_ToBoolean (String_trim (String c rest)) = true.
Proof.
  intros Hc. unfold String_trim. simpl String_trimStart. rewrite Hc.
  simpl. rewrite Hc. now destruct (String_trimEnd rest).
Qed.

(** *** Decimal numerals *)

Lemma Pos_of_uint_digit (d : Decimal.uint) :
  d <> Decimal.Nil ->
  Pos.of_uint d =
  (DecimalPos.Unsigned.hd d * 10 ^ DecimalPos.Unsigned.usize (DecimalPos.Unsigned.tl d)
   + Pos.of_uint (DecimalPos.Unsigned.tl d))%N.
Proof.
  intros Hd.
  rewrite (DecimalPos.Unsigned.of_uint_alt d),
          (DecimalPos.Unsigned.of_uint_alt (DecimalPos.Unsigned.tl d)).
  destruct d; [congruence | ..]; unfold Decimal.rev; simpl Decimal.revapp;
    rewrite DecimalPos.Unsigned.of_lu_revapp;
    cbn [DecimalPos.Unsigned.hd DecimalPos.Unsigned.tl DecimalPos.Unsigned.of_lu];
    unfold Decimal.rev; lia.
Qed.

(** A digit string read after [n]: [n] moves up by the length of the string
    and the value of the string is added. *)
Lemma digits_prefix_decimal (d : Decimal.uint) (rest : string) (n : N) :
  stops rest ->
  digits_prefix 10 (DecimalString.NilEmpty.string_of_uint d ++ rest) (Some n) =
  Some (n * 10 ^ DecimalPos.Unsigned.usize d + Pos.of_uint d)%N.
Proof.
  intros Hrest. revert n.
  induction d as [| d IH | d IH | d IH | d IH | d IH | d IH | d IH | d IH | d IH | d IH];
    intros n.
  1:{ simpl. destruct rest as [| c rest]; simpl in *; [| rewrite Hrest]; f_equal; lia. }
  all: match goal with
       | |- context [DecimalString.NilEmpty.string_of_uint ?e] =>
           rewrite (Pos_of_uint_digit e) by discriminate
       end;
    cbn [DecimalString.NilEmpty.string_of_uint String.append digits_prefix];
    cbn [DecimalPos.Unsigned.hd DecimalPos.Unsigned.tl DecimalPos.Unsigned.usize];
    match goal with
    | |- context [digit_of ?c] =>
        let v := eval vm_compute in (digit_of c) in change (digit_of c) with v
    end;
    cbv beta iota; change (_ <? 10)%N with true; cbv iota;
    rewrite IH, N.pow_succ_r'; f_equal; lia.
Qed.

Lemma digits_prefix_decimal_start (d : Decimal.uint) (rest : string) :
  d <> Decimal.Nil ->
  stops rest ->
  digits_prefix 10 (DecimalString.NilEmpty.string_of_uint d ++ rest) None =
  Some (Pos.of_uint d).
Proof.
  intros Hd Hrest. rewrite (Pos_of_uint_digit d Hd).
  destruct d; [congruence | ..];
    cbn [DecimalString.NilEmpty.string_of_uint String.append digits_prefix];
    cbn [DecimalPos.Unsigned.hd DecimalPos.Unsigned.tl];
    match goal with
    | |- context [digit_of ?c] =>
        let v := eval vm_compute in (digit_of c) in change (digit_of c) with v
    end;
    cbv beta iota; change (_ <? 10)%N with true; cbv iota;
    rewrite (digits_prefix_decimal _ _ _ Hrest); f_equal; lia.
Qed.

Lemma stops_not_x (c : ascii) :
  digit_of c = None -> Ascii.eqb c "x" || Ascii.eqb c "X" = false.
Proof.
  intros Hc.
  destruct (Ascii.eqb_spec c "x") as [-> | _]; [discriminate |].
  destruct (Ascii.eqb_spec c "X") as [-> | _]; [discriminate | reflexivity].
Qed.

Lemma read_radix_decimal (c0 : ascii) (d : Decimal.uint) (rest : string) :
  stops rest ->
  read_radix (String c0 (DecimalString.NilEmpty.string_of_uint d ++ rest)) =
  (10%N, String c0 (DecimalString.NilEmpty.string_of_uint d ++ rest)).
Proof.
  intros Hrest. unfold read_radix.
  assert (match DecimalString.NilEmpty.string_of_uint d ++ rest with
          | EmptyString => True
          | String c1 _ => Ascii.eqb c1 "x" || Ascii.eqb c1 "X" = false
          end) as Hc1.
  { destruct d; try reflexivity. destruct rest as [| c rest]; [exact I |].
    now apply stops_not_x. }
  destruct (DecimalString.NilEmpty.string_of_uint d ++ rest) as [| c1 r]; [reflexivity |].
  now rewrite Hc1, andb_false_r.
Qed.

(** A digit string is read from its first code unit, unsigned and in
    radix 10. *)
Lemma read_decimal (d : Decimal.uint) (rest : string) :
  d <> Decimal.Nil ->
  stops rest ->
  let s := DecimalString.NilEmpty.string_of_uint d ++ rest in
  String_trimStart s = s /\ read_sign s = (false, s) /\ read_radix s = (10%N, s).
Proof.
  intros Hd Hrest s. subst s.
  destruct d as [| d | d | d | d | d | d | d | d | d | d]; [congruence | ..];
    (split; [reflexivity |]); (split; [reflexivity |]);
    now apply read_radix_decimal.
Qed.

(** [parseInt] reads the decimal numeral of an integer back, whatever
    follows it that is not a letter or a digit. *)
Lemma parseInt_decimal (z : Z) (rest : string) :
  stops rest -> parseInt (decimal z ++ rest) = Number_of_Z z.
Proof.
  intros Hrest. unfold decimal, parseInt. destruct z as [| p | p]; simpl Z.to_int.
  - cbn [DecimalString.NilEmpty.string_of_int].
    destruct (read_decimal Decimal.zero rest ltac:(congruence) Hrest)
      as (Htrim & Hsign & Hradix).
    rewrite Htrim, Hsign, Hradix.
    rewrite (digits_prefix_decimal_start Decimal.zero rest ltac:(congruence) Hrest).
    reflexivity.
  - cbn [DecimalString.NilEmpty.string_of_int].
    destruct (read_decimal (Pos.to_uint p) rest (DecimalPos.Unsigned.to_uint_nonnil p) Hrest)
      as (Htrim & Hsign & Hradix).
    rewrite Htrim, Hsign, Hradix.
    rewrite (digits_prefix_decimal_start _ _ (DecimalPos.Unsigned.to_uint_nonnil p) Hrest).
    rewrite DecimalPos.Unsigned.of_to. reflexivity.
  - cbn [DecimalString.NilEmpty.string_of_int String.append String_trimStart].
    change (is_white_space "-"%char) with false. cbv iota.
    cbn [read_sign].
    destruct (read_decimal (Pos.to_uint p) rest (DecimalPos.Unsigned.to_uint_nonnil p) Hrest)
      as (_ & _ & Hradix).
    rewrite Hradix.
    rewrite (digits_prefix_decimal_start _ _ (DecimalPos.Unsigned.to_uint_nonnil p) Hrest).
    rewrite DecimalPos.Unsigned.of_to. reflexivity.
Qed.

(** A numeral starts with a digit or a minus sign and holds neither a
    comma nor a line feed. *)
Lemma string_of_uint_without (c : ascii) (d : Decimal.uint) :
  digit_of c = None -> without c (DecimalString.NilEmpty.string_of_uint d).
Proof.
  intros Hc. induction d; simpl; try exact I; (split; [| assumption]);
    intros <-; discriminate.
Qed.

Lemma decimal_without (c : ascii) (z : Z) :
  digit_of c = None -> c <> "-"%char -> without c (decimal z).
Proof.
  intros Hc Hminus. unfold decimal.
  destruct z as [| p | p]; simpl Z.to_int; cbn [DecimalString.NilEmpty.string_of_int].
  - now apply string_of_uint_without.
  - now apply string_of_uint_without.
  - split; [congruence | now apply string_of_uint_without].
Qed.

Lemma decimal_starts (z : Z) (rest : string) :
  exists c r, decimal z ++ rest = String c r /\ is_white_space c = false.
Proof.
  unfold decimal. destruct z as [| p | p]; simpl Z.to_int;
    cbn [DecimalString.NilEmpty.string_of_int].
  - do 2 eexists. split; reflexivity.
  - pose proof (DecimalPos.Unsigned.to_uint_nonnil p) as Hp.
    destruct (Pos.to_uint p); [congruence | ..]; do 2 eexists; split; reflexivity.
  - do 2 eexists. split; reflexivity.
Qed.

(** *** Numbers *)

Lemma Number_of_Z_of_uint63 (z : Z) :
  (0 <= z < 2 ^ 63)%Z -> Number_of_Z z = of_uint63 (Uint63.of_Z z).
Proof.
  intros Hz. unfold Number_of_Z.
  rewrite <- (SF2Prim_Prim2SF (of_uint63 (Uint63.of_Z z))).
  rewrite of_uint63_spec, Uint63.of_Z_spec, Z.mod_small; [reflexivity | exact Hz].
Qed.

(** The Number value for an integer below [2^63] is not NaN. *)
Lemma Number_of_Z_not_nan (z : Z) :
  (0 <= z < 2 ^ 63)%Z -> is_nan (Number_of_Z z) = false.
Proof.
  intros Hz. rewrite (Number_of_Z_of_uint63 z Hz). unfold is_nan.
  rewrite FloatAxioms.eqb_spec, of_uint63_spec, Uint63.of_Z_spec, Z.mod_small by exact Hz.
  destruct z as [| p | p]; [reflexivity | | lia].
  unfold binary_normalize.
  destruct (binary_round_sign false p 0 ltac:(lia)) as [(m & e & ->) | ->];
    [| reflexivity].
  unfold SFeqb, SFcompare. now rewrite Z.compare_refl, Pos.compare_refl.
Qed.

(** *** Rows *)

(** The cells [parseInt] reads from a row of numerals: the numbers
    written, and NaN beyond the last cell. *)
Lemma csv_row_cells (eol : string) (cells : list Z) (i : nat) :
  cells <> [] ->
  stops eol ->
  without ","%char eol ->
  parseInt (ToString (Array_get (String_split ","%char (csv_row eol cells)) (Z.of_nat i))) =
  csv_cell cells i.
Proof.
  intros Hne Hstops Heol. unfold Array_get, csv_row, csv_cell.
  destruct (Z.ltb_spec (Z.of_nat i) 0) as [Hneg | _]; [lia |].
  rewrite Nat2Z.id. revert i.
  induction cells as [| z rest IH]; [congruence |]. intros i.
  assert (without ","%char (decimal z)) as Hz by (apply decimal_without; [reflexivity | discriminate]).
  destruct rest as [| z' rest].
  - cbn [map String.concat].
    rewrite String_split_without by now apply without_append.
    destruct i as [| i]; cbn [nth_error ToString].
    + now apply parseInt_decimal.
    + destruct i; reflexivity.
  - change (String.concat "," (map decimal (z :: z' :: rest)))
      with (decimal z ++ String ","%char (String.concat "," (map decimal (z' :: rest)))).
    rewrite append_assoc.
    change (String ","%char (String.concat "," (map decimal (z' :: rest))) ++ eol)
      with (String ","%char (String.concat "," (map decimal (z' :: rest)) ++ eol)).
    rewrite (String_split_append _ _ _ Hz).
    destruct i as [| i]; cbn [nth_error ToString].
    + rewrite <- (append_nil_r (decimal z)). now apply parseInt_decimal.
    + apply IH. discriminate.
Qed.

Lemma csv_row_without (eol : string) (cells : list Z) :
  without "010"%char eol -> without "010"%char (csv_row eol cells).
Proof.
  intros Heol. unfold csv_row. apply without_append; [| exact Heol].
  induction cells as [| z rest IH]; [exact I |].
  destruct rest as [| z' rest].
  - apply decimal_without; [reflexivity | discriminate].
  - change (String.concat "," (map decimal (z :: z' :: rest)))
      with (decimal z ++ String ","%char (String.concat "," (map decimal (z' :: rest)))).
    apply without_append; [apply decimal_without; [reflexivity | discriminate] |].
    split; [discriminate | exact IH].
Qed.

Lemma csv_row_not_blank (eol : string) (cells : list Z) :
  cells <> [] -> String_ToBoolean (String_trim (csv_row eol cells)) = true.
Proof.
  intros Hne. unfold csv_row. destruct cells as [| z rest]; [congruence |].
  assert (exists c r, String.concat "," (map decimal (z :: rest)) ++ eol = String c r /\
                      is_white_space c = false) as (c & r & -> & Hc).
  { destruct rest as [| z' rest].
    - apply decimal_starts.
    - change (String.concat "," (map decimal (z :: z' :: rest)))
        with (decimal z ++ String ","%char (String.concat "," (map decimal (z' :: rest)))).
      rewrite append_assoc. apply decimal_starts. }
  now apply String_trim_starts.
Qed.

Lemma filter_app_all_none {A : Type} (P : A -> bool) (l l' : list A) :
  Forall (fun x => P x = true) l -> Forall (fun x => P x = false) l' ->
  filter P (l ++ l')%list = l.
Proof.
  intros Hl Hl'. rewrite filter_app, (filter_all _ _ Hl), (filter_none _ _ Hl').
  apply app_nil_r.
Qed.

End UploadFacts.

(** X12.  An upload never leaves the application without training data:
    the handler either keeps the state or replaces it by a non-empty list of
    records whose ages are numbers (not NaN), at most one per line after the
    header; a state that is not empty stays so.  A text without a line feed
    changes nothing. *)
Theorem upload_keeps_training_data :
  forall (text : String.string) (data : list (CustomerData float)),
    let data' := handleFileUpload_onload text data in
    (data' = data \/
     (data' <> [] /\
      Forall (fun d => is_nan (Age d) = false) data' /\
      (length data' < length (String_split "010"%char text))%nat)) /\
    (data <> [] -> data' <> []) /\
    (without "010"%char text -> data' = data).
Proof.
  intros text data data'.
  assert (data' = data \/
          (data' <> [] /\
           Forall (fun d => is_nan (Age d) = false) data' /\
           (length data' < length (String_split "010"%char text))%nat)) as Hcases.
  { subst data'. unfold handleFileUpload_onload.
    destruct (length (String_split "010"%char text) <? 2)%nat; [now left |].
    destruct (negb _ && negb _ && negb _); [| now left].
    match goal with
    | |- context [if (length ?p =? 0)%nat then _ else _] => set (parsed := p)
    end.
    destruct (Nat.eqb_spec (length parsed) 0) as [_ | Hlen]; [now left |].
    right. split; [intros Hnil; now rewrite Hnil in Hlen |]. split.
    - apply Forall_forall. intros d Hd. apply filter_In in Hd as [_ Hd].
      now apply negb_true_iff in Hd.
    - subst parsed.
      eapply Nat.le_lt_trans; [apply filter_length_le |]. rewrite length_map.
      eapply Nat.le_lt_trans; [apply filter_length_le |].
      pose proof (String_split_length "010"%char text).
      destruct (String_split "010"%char text); simpl in *; lia. }
  split; [exact Hcases |]. split.
  - intros Hne. destruct Hcases as [-> | [H _]]; assumption.
  - intros Htext. subst data'. unfold handleFileUpload_onload.
    now rewrite (String_split_without _ _ Htext).
Qed.

Lemma upload_keeps_training_data_witness :
  handleFileUpload_onload "Age,EstimatedSalary,Purchased"%string Data.two_points
  = Data.two_points.
Proof.
  refine (proj2 (proj2 (upload_keeps_training_data
                          "Age,EstimatedSalary,Purchased"%string Data.two_points)) _).
  repeat split; discriminate.
Defined.

(** X13.  A well-formed file is read back in full.  Take a header line in
    which the first column names containing "age", "salary" and
    "purchased" (in any case) stand at the positions [iAge], [iSalary] and
    [iPurchased], then rows of integers written in decimal and separated
    by commas, each row ended by nothing or by a carriage return, then any
    blank lines, all joined by line feeds.  If every row has an age cell
    holding a number from 0 to below [2^63], the upload replaces the state
    by one record per row, in order, holding the numbers of the three
    columns; a cell the row is too short for gives NaN. *)
Theorem upload_reads_well_formed_csv :
  forall (header eol : String.string) (iAge iSalary iPurchased : nat)
         (rows : list (list Z)) (blank : list String.string)
         (data : list (CustomerData float)),
    without "010"%char header ->
    (let headers := String_split ","%char (String_toLowerCase header) in
     Array_findIndex (fun h => String_includes h "age"%string) headers = Z.of_nat iAge /\
     Array_findIndex (fun h => String_includes h "salary"%string) headers = Z.of_nat iSalary /\
     Array_findIndex (fun h => String_includes h "purchased"%string) headers = Z.of_nat iPurchased) ->
    eol = ""%string \/ eol = String.String "013"%char ""%string ->
    Forall (fun l => without "010"%char l /\ String_trim l = ""%string) blank ->
    rows <> [] ->
    Forall (fun cells => exists a, nth_error cells iAge = Some a /\ (0 <= a < 2 ^ 63)%Z) rows ->
    handleFileUpload_onload (csv_text header eol rows blank) data =
    map (fun cells => {| Age := csv_cell cells iAge;
                         EstimatedSalary := csv_cell cells iSalary;
                         Purchased := csv_cell cells iPurchased |}) rows.
Proof.
  intros header eol iAge iSalary iPurchased rows blank data
         Hheader (HiA & HiS & HiP) Heol Hblank Hne Hrows.
  assert (stops eol /\ without ","%char eol /\ without "010"%char eol) as (He1 & He2 & He3).
  { destruct Heol as [-> | ->]; repeat split; discriminate. }
  assert (Forall (fun cells : list Z => cells <> []) rows) as Hcells.
  { eapply Forall_impl; [| exact Hrows]. intros cells (a & Ha & _) ->.
    destruct iAge; discriminate. }
  unfold handleFileUpload_onload, csv_text.
  rewrite String_split_concat; [| discriminate |].
  2:{ constructor; [exact Hheader |]. apply Forall_app. split.
      - apply Forall_forall. intros l Hl. apply in_map_iff in Hl as (cells & <- & _).
        now apply csv_row_without.
      - eapply Forall_impl; [| exact Hblank]. now intros l [Hl _]. }
  cbn [length nth tl].
  destruct rows as [| row rows]; [congruence |].
  cbn [map app length Nat.ltb Nat.leb].
  change (String_toLowerCase header) with (String_toLowerCase header).
  rewrite HiA, HiS, HiP.
  replace (negb (Z.of_nat iAge =? -1)%Z && negb (Z.of_nat iSalary =? -1)%Z
           && negb (Z.of_nat iPurchased =? -1)%Z) with true.
  2:{ symmetry. rewrite !andb_true_iff, !negb_true_iff, !Z.eqb_neq. lia. }
  change (csv_row eol row :: (map (csv_row eol) rows ++ blank)%list)
    with ((map (csv_row eol) (row :: rows)) ++ blank)%list.
  rewrite filter_app_all_none.
  2:{ apply Forall_forall. intros l Hl. apply in_map_iff in Hl as (cells & <- & Hin).
      apply csv_row_not_blank. rewrite Forall_forall in Hcells. now apply Hcells. }
  2:{ eapply Forall_impl; [| exact Hblank]. intros l [_ Hl]. cbv beta. now rewrite Hl. }
  rewrite map_map.
  rewrite (map_ext_in _ (fun cells => {| Age := csv_cell cells iAge;
                                         EstimatedSalary := csv_cell cells iSalary;
                                         Purchased := csv_cell cells iPurchased |})).
  2:{ intros cells Hin. rewrite Forall_forall in Hcells. specialize (Hcells _ Hin).
      now rewrite !csv_row_cells. }
  rewrite filter_all.
  - reflexivity.
  - apply Forall_forall. intros d Hd. apply in_map_iff in Hd as (cells & <- & Hin).
    rewrite Forall_forall in Hrows. destruct (Hrows _ Hin) as (a & Ha & Hrange).
    cbn [Age]. unfold csv_cell, isNaN. rewrite Ha.
    now rewrite Number_of_Z_not_nan.
Qed.

Lemma upload_reads_well_formed_csv_witness :
  handleFileUpload_onload
    (csv_text "User ID,Age,EstimatedSalary,Purchased"%string (String.String "013"%char ""%string)
              [[15624510; 19; 19000; 0]; [15810944; 35; 20000; 1]; [15668575; 26]]%Z
              [""%string]) [] =
  [ {| Age := Number_of_Z 19; EstimatedSalary := Number_of_Z 19000;
       Purchased := Number_of_Z 0 |};
    {| Age := Number_of_Z 35; EstimatedSalary := Number_of_Z 20000;
       Purchased := Number_of_Z 1 |};
    {| Age := Number_of_Z 26; EstimatedSalary := nan; Purchased := nan |} ].
Proof.
  refine (upload_reads_well_formed_csv
            "User ID,Age,EstimatedSalary,Purchased"%string (String.String "013"%char ""%string) 1%nat 2%nat 3%nat
            [[15624510; 19; 19000; 0]; [15810944; 35; 20000; 1]; [15668575; 26]]%Z
            [""%string] [] _ _ _ _ _ _).
  - repeat split; discriminate.
  - repeat split; reflexivity.
  - now right.
  - repeat constructor.
  - discriminate.
  - repeat constructor; eexists; (split; [reflexivity | lia]).
Defined.
